(** * AI readiness dashboard: CSV ingestion and aggregation pipeline

    A shallow embedding of [src/components/AIReadinessInteractive.jsx]:
    the CSV parser, the column inference, the row classifiers, the filter
    engine, the site aggregator, the summary, the site table view and the
    CSV exporter, followed by the properties of the specification.

    Conventions of the embedding.
    - A JavaScript string is a list of code units.  The model covers the
      code units 0..255 (Latin-1), on which [toLowerCase] and [trim] are
      written out in full.  Above U+00FF the run-time's [toLowerCase] is
      not a map of code units (U+212A gives [k], U+0130 gives two units);
      no property stated here relates a test under the [i] flag to a test
      on lowercased text.
    - An object used as a record ([row], the export records) is the list of
      its own properties in creation order.  A row is created empty and
      filled by assignment, header by header: it owns every header but
      [__proto__], whose assignment stores nothing.  The keys of the
      file-count, size, date, type, name and permission roles are headers
      that contain a keyword, so rows own them and their reads are reads
      of own properties.  The site key may be any header: its read is
      modelled with the members of [Object.prototype], and the call that
      fails on such a member is an error result.
    - A [Map] is the list of its entries in insertion order.
    - Numbers, dates and locale comparison are the JavaScript run-time's;
      they are an interface ([JsRuntime]) that every definition and theorem
      is parametric in.  An exact-rational instance evaluates examples. *)

From Stdlib Require Import List Ascii String Bool Arith ZArith NArith Lia.
From Stdlib Require Import Permutation Sorted.
From Stdlib Require QArith Qround Qabs DecimalString.
Import ListNotations.

Set Implicit Arguments.
Open Scope list_scope.

(* ================================================================= *)
(** ** Strings *)

Module Js.

Definition jsstring := list ascii.

(** String literals of the source. *)
Definition js (s : string) : jsstring := list_ascii_of_string s.

Definition code (c : ascii) : N := N_of_ascii c.

Definition ch_eqb (a b : ascii) : bool := Ascii.eqb a b.

Fixpoint str_eqb (a b : jsstring) : bool :=
  match a, b with
  | [], [] => true
  | x :: a', y :: b' => ch_eqb x y && str_eqb a' b'
  | _, _ => false
  end.

Definition quote : ascii := ascii_of_N 34.
Definition comma : ascii := ","%char.
Definition space : ascii := " "%char.
Definition LF : ascii := ascii_of_N 10.
Definition CR : ascii := ascii_of_N 13.

(** [WhiteSpace] and [LineTerminator] code units below 256: TAB, LF, VT,
    FF, CR, SP and NBSP. *)
Definition isWhiteSpace (c : ascii) : bool :=
  let n := code c in
  ((9 <=? n) && (n <=? 13) || (n =? 32) || (n =? 160))%N.

Fixpoint trimStart (s : jsstring) : jsstring :=
  match s with
  | c :: s' => if isWhiteSpace c then trimStart s' else s
  | [] => []
  end.

Definition trimEnd (s : jsstring) : jsstring := rev (trimStart (rev s)).

(** [String.prototype.trim] *)
Definition trim (s : jsstring) : jsstring := trimEnd (trimStart s).

(** [String.prototype.toLowerCase] on one code unit: A-Z, and U+00C0 to
    U+00DE except the multiplication sign U+00D7. *)
Definition lower_char (c : ascii) : ascii :=
  let n := code c in
  if ((65 <=? n) && (n <=? 90) ||
      (192 <=? n) && (n <=? 222) && negb (n =? 215))%N
  then ascii_of_N (n + 32) else c.

Definition toLowerCase (s : jsstring) : jsstring := map lower_char s.

(** Case folding of a regular expression with the [i] flag and no [u]
    flag: only the ASCII letters have a partner below 128. *)
Definition fold_char (c : ascii) : ascii :=
  let n := code c in
  if ((65 <=? n) && (n <=? 90))%N then ascii_of_N (n + 32) else c.

Definition foldCase (s : jsstring) : jsstring := map fold_char s.

Fixpoint startsWith (p t : jsstring) : bool :=
  match p, t with
  | [], _ => true
  | x :: p', y :: t' => ch_eqb x y && startsWith p' t'
  | _ :: _, [] => false
  end.

(** [String.prototype.includes] *)
Fixpoint includes (t sub : jsstring) : bool :=
  startsWith sub t ||
  match t with
  | [] => false
  | _ :: t' => includes t' sub
  end.

Definition endsWith (t suf : jsstring) : bool := startsWith (rev suf) (rev t).

(** [\w] of a regular expression. *)
Definition isWordChar (c : ascii) : bool :=
  let n := code c in
  ((48 <=? n) && (n <=? 57) || (65 <=? n) && (n <=? 90) ||
   (97 <=? n) && (n <=? 122) || (n =? 95))%N.

Definition isWord (o : option ascii) : bool :=
  match o with Some c => isWordChar c | None => false end.

(** [\b] between the code unit before a position and the one after it. *)
Definition boundary (before after : option ascii) : bool :=
  xorb (isWord before) (isWord after).

(** The alternative [w] matches at the head of [t], with [\b] on both
    sides; [prev] is the code unit before [t]. *)
Definition wordAt (prev : option ascii) (t w : jsstring) : bool :=
  boundary prev (hd_error t) &&
  startsWith w t &&
  boundary (match rev w with c :: _ => Some c | [] => prev end)
           (hd_error (skipn (List.length w) t)).

Fixpoint scanWords (alts : list jsstring) (prev : option ascii) (t : jsstring)
  : bool :=
  existsb (wordAt prev t) alts ||
  match t with
  | [] => false
  | c :: t' => scanWords alts (Some c) t'
  end.

(** [/\b(w1|...|wn)\b/.test(t)] *)
Definition testWords (alts : list jsstring) (t : jsstring) : bool :=
  scanWords alts None t.

(** [Array.prototype.join] on strings. *)
Fixpoint join (sep : jsstring) (l : list jsstring) : jsstring :=
  match l with
  | [] => []
  | [x] => x
  | x :: l' => x ++ sep ++ join sep l'
  end.

(** The text after the last [sep]: [s.split(sep).pop()]. *)
Fixpoint lastSegment (sep : ascii) (s : jsstring) : jsstring :=
  match s with
  | [] => []
  | c :: s' =>
      if ch_eqb c sep then lastSegment sep s'
      else if existsb (ch_eqb sep) s' then lastSegment sep s' else s
  end.

(** The text before the first [?] or [#]: [s.split(/[?#]/)[0]]. *)
Fixpoint beforeQuery (s : jsstring) : jsstring :=
  match s with
  | [] => []
  | c :: s' =>
      if ch_eqb c "?"%char || ch_eqb c "#"%char then [] else c :: beforeQuery s'
  end.

(** [s.replace(/^\./, '')] *)
Definition stripLeadingDot (s : jsstring) : jsstring :=
  match s with
  | c :: s' => if ch_eqb c "."%char then s' else s
  | [] => []
  end.

(** Truthiness of a string. *)
Definition truthy (s : jsstring) : bool :=
  match s with [] => false | _ :: _ => true end.

Definition truthyOpt (o : option jsstring) : bool :=
  match o with Some s => truthy s | None => false end.

End Js.
Export Js.

(* ================================================================= *)
(** ** Objects used as records *)

Module Obj.

(** The own properties of an object, in creation order; the keys are
    pairwise distinct ([set_prop] keeps them so). *)
Definition obj (V : Type) := list (jsstring * V).

(** The property names of [Object.prototype].  The read [o[k]] of such a
    name that [o] does not own yields the inherited member, an object or
    a function, never [undefined]. *)
Definition protoMember (k : jsstring) : bool :=
  existsb (str_eqb k)
    (map js ["__proto__"; "constructor"; "hasOwnProperty"; "isPrototypeOf";
             "propertyIsEnumerable"; "toLocaleString"; "toString";
             "valueOf"; "__defineGetter__"; "__defineSetter__";
             "__lookupGetter__"; "__lookupSetter__"]%string).

Section Props.
Variable V : Type.

(** [o[k]]; [None] is [undefined]. *)
Fixpoint get_prop (k : jsstring) (o : obj V) : option V :=
  match o with
  | [] => None
  | (k', v) :: o' => if str_eqb k k' then Some v else get_prop k o'
  end.

(** [o[k] = v]: an existing property keeps its place. *)
Fixpoint set_prop (k : jsstring) (v : V) (o : obj V) : obj V :=
  match o with
  | [] => [(k, v)]
  | (k', v') :: o' =>
      if str_eqb k k' then (k', v) :: o' else (k', v') :: set_prop k v o'
  end.

Definition digit (c : ascii) : option N :=
  let n := code c in
  if ((48 <=? n) && (n <=? 57))%N then Some (n - 48)%N else None.

Fixpoint digitsValue (acc : N) (s : jsstring) : option N :=
  match s with
  | [] => Some acc
  | c :: s' =>
      match digit c with
      | Some d => digitsValue (acc * 10 + d) s'
      | None => None
      end
  end.

(** An array index: a canonical decimal numeral below 2^32 - 1.  Such
    keys are enumerated first, in ascending order. *)
Definition arrayIndex (k : jsstring) : option N :=
  match k with
  | [] => None
  | c :: k' =>
      if ch_eqb c "0"%char && truthy k' then None
      else match digitsValue 0 k with
           | Some n => if (n <? 4294967295)%N then Some n else None
           | None => None
           end
  end.

Fixpoint insertIndexed (e : N * (jsstring * V)) (l : list (N * (jsstring * V)))
  : list (N * (jsstring * V)) :=
  match l with
  | [] => [e]
  | e' :: l' =>
      if (fst e <=? fst e')%N then e :: l else e' :: insertIndexed e l'
  end.

Fixpoint indexedProps (o : obj V) : list (N * (jsstring * V)) :=
  match o with
  | [] => []
  | (k, v) :: o' =>
      match arrayIndex k with
      | Some n => insertIndexed (n, (k, v)) (indexedProps o')
      | None => indexedProps o'
      end
  end.

Definition namedProps (o : obj V) : obj V :=
  filter (fun e => match arrayIndex (fst e) with
                   | Some _ => false | None => true end) o.

(** Own enumerable properties in the order of [Object.keys]. *)
Definition ownProps (o : obj V) : obj V :=
  map snd (indexedProps o) ++ namedProps o.

Definition Object_keys (o : obj V) : list jsstring := map fst (ownProps o).
Definition Object_values (o : obj V) : list V := map snd (ownProps o).
End Props.

End Obj.
Export Obj.

(** A CSV data row: header name to string value. *)
Definition row := obj jsstring.

(* ================================================================= *)
(** ** CSV parser *)

Module Csv.

(** [csvText.split(/\r\n|\n/)]; [cur] is the line being read. *)
Fixpoint splitLines (cur : jsstring) (s : jsstring) : list jsstring :=
  match s with
  | [] => [cur]
  | c :: s' =>
      if ch_eqb c LF then cur :: splitLines [] s'
      else if ch_eqb c CR then
        match s' with
        | d :: s'' =>
            if ch_eqb d LF then cur :: splitLines [] s''
            else splitLines (cur ++ [c]) s'
        | [] => [cur ++ [c]]
        end
      else splitLines (cur ++ [c]) s'
  end.

(** The replacement of a quote at the start and of a quote at the end by
    nothing (the global regular expression of [splitLine]'s last line). *)
Definition stripStartQuote (s : jsstring) : jsstring :=
  match s with
  | c :: s' => if ch_eqb c quote then s' else s
  | [] => []
  end.

Definition stripEndQuote (s : jsstring) : jsstring :=
  rev (stripStartQuote (rev s)).

Definition stripQuotes (s : jsstring) : jsstring :=
  stripEndQuote (stripStartQuote s).

(** The loop of [splitLine]: [values], [current] and [inQuote] are the
    loop's variables, the argument is the rest of the line from index [i]. *)
Fixpoint splitLoop (values : list jsstring) (current : jsstring)
  (inQuote : bool) (line : jsstring) : list jsstring :=
  match line with
  | [] => values ++ [trim current]
  | c :: rest =>
      if ch_eqb c quote then
        match rest with
        | d :: rest' =>
            if ch_eqb d quote
            then splitLoop values (current ++ [quote]) inQuote rest'
            else splitLoop values current (negb inQuote) rest
        | [] => splitLoop values current (negb inQuote) rest
        end
      else if ch_eqb c comma && negb inQuote
      then splitLoop (values ++ [trim current]) [] inQuote rest
      else splitLoop values (current ++ [c]) inQuote rest
  end.

Definition splitLine (line : jsstring) : list jsstring :=
  map stripQuotes (splitLoop [] [] false line).

(** [values[index]], or the empty string when it is falsy. *)
Definition valueAt (values : list jsstring) (index : nat) : jsstring :=
  match nth_error values index with
  | Some v => if truthy v then v else []
  | None => []
  end.

(** [row[h] = v] on a row under construction.  The row is created empty
    and filled by these assignments only, so it does not own
    [__proto__]: for that name the assignment reaches the setter of
    [Object.prototype], which ignores a string, and stores nothing. *)
Definition setField (h v : jsstring) (r : row) : row :=
  if str_eqb h (js "__proto__") then r else set_prop h v r.

(** The [headers.forEach] callback, [row[h] = valueAt values index], from
    column [index] on. *)
Fixpoint fillRow (values : list jsstring) (index : nat)
  (headers : list jsstring) (r : row) : row :=
  match headers with
  | [] => r
  | h :: hs => fillRow values (S index) hs (setField h (valueAt values index) r)
  end.

Record parsed := {
  data : list row;
  fields : list jsstring
}.

Record parseState := {
  headerFound : bool;
  headers : list jsstring;
  result : list row
}.

Definition parseStep (st : parseState) (rawLine : jsstring) : parseState :=
  let line := trim rawLine in
  if negb (truthy line) then st
  else if negb (headerFound st) then
    {| headerFound := true;
       headers := headers st ++ splitLine line;
       result := result st |}
  else
    let values := splitLine line in
    if negb (Nat.eqb (List.length values) 0) then
      {| headerFound := headerFound st;
         headers := headers st;
         result := result st ++ [fillRow values 0 (headers st) []] |}
    else st.

Definition parseCSV (csvText : jsstring) : parsed :=
  let st := fold_left parseStep (splitLines [] csvText)
              {| headerFound := false; headers := []; result := [] |} in
  {| data := result st; fields := headers st |}.

End Csv.
Export Csv.

(* ================================================================= *)
(** ** Column inference *)

(** [/site(name|_name)?$|^site$|siteurl|weburl|web url/i.test(h)] *)
Definition siteLike (h : jsstring) : bool :=
  let l := foldCase h in
  endsWith l (js "site") || endsWith l (js "sitename") ||
  endsWith l (js "site_name") || str_eqb l (js "site") ||
  includes l (js "siteurl") || includes l (js "weburl") ||
  includes l (js "web url").

Definition guessSiteColumn (headers : list jsstring) : option jsstring :=
  match filter siteLike headers with
  | c :: _ => Some c
  | [] => hd_error headers
  end.

(** [lower.findIndex(p)] *)
Fixpoint findIndex (p : jsstring -> bool) (l : list jsstring) : option nat :=
  match l with
  | [] => None
  | h :: l' => if p h then Some 0
               else match findIndex p l' with
                    | Some i => Some (S i)
                    | None => None
                    end
  end.

Fixpoint findColumnsLoop (headers lower : list jsstring)
  (keywords : list jsstring) : option jsstring :=
  match keywords with
  | [] => None
  | k :: ks =>
      match findIndex (fun h => includes h (toLowerCase k)) lower with
      | Some matchIdx => nth_error headers matchIdx
      | None => findColumnsLoop headers lower ks
      end
  end.

Definition findColumns (headers : list jsstring) (keywords : list jsstring)
  : option jsstring :=
  findColumnsLoop headers (map toLowerCase headers) keywords.

(** The roles other than [site]. *)
Inductive role :=
| FileCount | FileSize | LastModified | FileType | FileName | Permissions.

Definition roleKeywords (r : role) : list jsstring :=
  map js
    match r with
    | FileCount =>
        ["filecount"; "sitefilecount"; "itemcount"; "documentcount"; "count"]
    | FileSize => ["filesize"; "file_size"; "size"; "storageusage"]
    | LastModified => ["lastmodified"; "modified"; "lastmodifieddate"]
    | FileType =>
        ["extension"; "filetype"; "file_type"; "type"; "docicon"; "itemtype"]
    | FileName =>
        ["filename"; "file_name"; "name"; "itemname"; "url"; "path"; "link"]
    | Permissions =>
        ["permissions"; "perm"; "usergroup"; "group"; "sharedwith"; "access";
         "sharing"]
    end%string.

(** The column keys of the component's state; [None] is [null]. *)
Record roles := {
  siteKey : option jsstring;
  fileCountKey : option jsstring;
  fileSizeKey : option jsstring;
  lastModKey : option jsstring;
  fileTypeKey : option jsstring;
  fileNameKey : option jsstring;
  permKey : option jsstring
}.

Definition updateColumnKeys (hdrs : list jsstring) : roles :=
  {| siteKey := guessSiteColumn hdrs;
     fileCountKey := findColumns hdrs (roleKeywords FileCount);
     fileSizeKey := findColumns hdrs (roleKeywords FileSize);
     lastModKey := findColumns hdrs (roleKeywords LastModified);
     fileTypeKey := findColumns hdrs (roleKeywords FileType);
     fileNameKey := findColumns hdrs (roleKeywords FileName);
     permKey := findColumns hdrs (roleKeywords Permissions) |}.

(** The role map read by role. *)
Definition roleKey (rs : roles) (r : role) : option jsstring :=
  match r with
  | FileCount => fileCountKey rs
  | FileSize => fileSizeKey rs
  | LastModified => lastModKey rs
  | FileType => fileTypeKey rs
  | FileName => fileNameKey rs
  | Permissions => permKey rs
  end.

(** A key used as a property name: [null] reads the property ["null"]. *)
Definition propName (k : option jsstring) : jsstring :=
  match k with Some s => s | None => js "null" end.

(* ================================================================= *)
(** ** Row classifiers *)

Definition strIn (s : jsstring) (l : list string) : bool :=
  existsb (fun x => str_eqb s (js x)) l.

Definition includesAny (t : jsstring) (l : list string) : bool :=
  existsb (fun x => includes t (js x)) l.

(** [text] is a string here, so [(text || empty)] is [text]. *)
Definition getRiskProfile (text : jsstring) : jsstring :=
  let t := toLowerCase text in
  if testWords [js "everyone"] t
     || includes t (js "everyone except external users")
  then js "Critical"
  else if includesAny t
            ["visitor"; "excel services viewers"; "portfolio viewers"]%string
  then js "Medium"
  else if includesAny t
            ["owner"; "member"; "administrator"; "project manager";
             "team lead"; "resource manager"]%string
  then js "Low"
  else js "Unknown".

Definition getContentCategory (ext : jsstring) : jsstring :=
  let e := stripLeadingDot (trim (toLowerCase ext)) in
  if strIn e ["doc"; "docx"; "pdf"; "xlsx"; "xls"; "ppt"; "pptx";
              "folder"]%string
  then js "Business"
  else if strIn e ["aspx"; "odc"; "n/a"; "unknown"; EmptyString]%string
  then js "System"
  else if strIn e ["jpg"; "jpeg"; "png"; "gif"; "mp4"; "mp3"; "wav";
                   "mov"]%string
  then js "Media"
  else js "Other".

Record sharing := { level : jsstring; rank : Z }.

Definition classifySharing (rowText : jsstring) : sharing :=
  let t := toLowerCase rowText in
  if negb (truthy t) then {| level := js "Only Org"; rank := 1 |}
  else if testWords
            (map js ["anyone"; "anyonewithlink"; "anyone with the link";
                     "anonymous"; "public"]%string) t
  then {| level := js "External (Anonymous)"; rank := 4 |}
  else if testWords
            (map js ["guest"; "external"; "new external"; "new & existing";
                     "new and existing"; "newexisting"]%string) t
  then {| level := js "External (New & Existing)"; rank := 3 |}
  else if testWords [js "everyone"] t
  then {| level := js "Everyone"; rank := 2 |}
  else {| level := js "Only Org"; rank := 1 |}.

(** [key && row[key]]: the value when both are truthy. *)
Definition truthyField (key : option jsstring) (r : row) : option jsstring :=
  match key with
  | Some k =>
      if truthy k then
        match get_prop k r with
        | Some v => if truthy v then Some v else None
        | None => None
        end
      else None
  | None => None
  end.

Definition getFileExtension (rs : roles) (r : row) : jsstring :=
  let val :=
    match truthyField (fileTypeKey rs) r with
    | Some v => v
    | None =>
        match truthyField (fileNameKey rs) r with
        | Some name =>
            let lastSeg := lastSegment "/"%char name in
            if existsb (ch_eqb "."%char) lastSeg
            then beforeQuery (lastSegment "."%char lastSeg)
            else []
        | None => []
        end
    end in
  if negb (truthy val) then js "unknown"
  else
    let clean := stripLeadingDot (trim (toLowerCase val)) in
    if (0 <? List.length clean) && (List.length clean <? 10)
    then clean else js "unknown".

(* ================================================================= *)
(** ** Filter engine *)

Record filters := {
  fileTypeFilter : jsstring;
  riskFilter : jsstring;
  categoryFilter : jsstring
}.

(** [Object.values(r).join(" ")] *)
Definition rowText (r : row) : jsstring := join [space] (Object_values r).

(** The three tests of the [rows.filter] callback; [false] is the
    callback's [return false]. *)
Definition passesFileType (rs : roles) (f : filters) (r : row) : bool :=
  if negb (str_eqb (fileTypeFilter f) (js "All"))
  then str_eqb (getFileExtension rs r) (fileTypeFilter f)
  else true.

Definition passesRisk (f : filters) (r : row) : bool :=
  if negb (str_eqb (riskFilter f) (js "All")) then
    let textToCheck := rowText r in
    let risk := getRiskProfile textToCheck in
    if str_eqb (riskFilter f) (js "Critical")
       && negb (str_eqb risk (js "Critical")) then false
    else if str_eqb (riskFilter f) (js "Medium")
            && negb (str_eqb risk (js "Medium")) then false
    else if str_eqb (riskFilter f) (js "Low")
            && negb (str_eqb risk (js "Low")) then false
    else true
  else true.

Definition passesCategory (rs : roles) (f : filters) (r : row) : bool :=
  if negb (str_eqb (categoryFilter f) (js "All"))
  then str_eqb (getContentCategory (getFileExtension rs r)) (categoryFilter f)
  else true.

Definition keepRow (rs : roles) (f : filters) (r : row) : bool :=
  if negb (passesFileType rs f r) then false
  else if negb (passesRisk f r) then false
  else if negb (passesCategory rs f r) then false
  else true.

Definition filteredRows (rs : roles) (f : filters) (rows : list row)
  : list row :=
  match rows with
  | [] => []
  | _ => filter (keepRow rs f) rows
  end.

(* ================================================================= *)
(** ** The run-time interface *)

(** Numbers are binary64 values, dates are time values in milliseconds;
    none of their arithmetic is fixed here. *)
Class JsRuntime := {
  number : Type;
  (** an integer literal or an array length *)
  num_of_Z : Z -> number;
  num_add : number -> number -> number;
  num_sub : number -> number -> number;
  num_mul : number -> number -> number;
  num_div : number -> number -> number;
  (** [Lt] below zero, [Gt] above, [Eq] for zero and NaN *)
  num_sign : number -> comparison;
  (** neither zero nor NaN *)
  num_truthy : number -> bool;
  Number_of_string : jsstring -> number;
  Number_isFinite : number -> bool;
  Math_round : number -> number;
  String_of_number : number -> jsstring;
  toFixed2 : number -> jsstring;
  (** [new Date(v)]; [None] is an invalid date *)
  Date_parse : jsstring -> option Z;
  toISOString : Z -> jsstring;
  localeCompare : jsstring -> jsstring -> Z;
  (** the component's [getStaleThreshold]: calendar arithmetic on now *)
  getStaleThreshold : jsstring -> Z
}.

(** [Array.prototype.sort]: the comparator's sign decides; the sort is
    stable. *)
Fixpoint sortInsert (A : Type) (cmp : A -> A -> comparison) (x : A)
  (l : list A) : list A :=
  match l with
  | [] => [x]
  | y :: l' =>
      match cmp x y with
      | Gt => y :: sortInsert cmp x l'
      | _ => x :: l
      end
  end.

Fixpoint sortWith (A : Type) (cmp : A -> A -> comparison) (l : list A)
  : list A :=
  match l with
  | [] => []
  | x :: l' => sortInsert cmp x (sortWith cmp l')
  end.

(* ================================================================= *)
(** ** Site aggregator, summary, table view and exporter *)

Section Dashboard.
Context {RT : JsRuntime}.

Definition num_of_nat (n : nat) : number := num_of_Z (Z.of_nat n).

(** The code units kept by [parseNumber]: digits, dot and minus. *)
Definition numericChar (c : ascii) : bool :=
  let n := code c in
  ((48 <=? n) && (n <=? 57) || (n =? 46) || (n =? 45))%N.

(** The argument is [r[key]]: a string or [undefined]. *)
Definition parseNumber (v : option jsstring) : number :=
  match v with
  | None => num_of_Z 0
  | Some s =>
      let n := Number_of_string (filter numericChar s) in
      if Number_isFinite n then n else num_of_Z 0
  end.

Record site := {
  siteName : jsstring;
  displayName : jsstring;
  files : number;
  totalKB : number;
  totalMB : number;
  totalGB : number;
  lastModified : option Z;
  sharingLevel : jsstring;
  sharingRank : Z;
  visibleEveryone : bool;
  visibleExternal : bool;
  rawRows : list row
}.

(** [(r[siteKey] || "(unknown)").trim()].  When the row does not own the
    key and the key names a member of [Object.prototype], the read
    yields that member: it is truthy and has no [trim], and the call
    throws a TypeError ([None]). *)
Definition siteOf (key : jsstring) (r : row) : option jsstring :=
  match get_prop key r with
  | Some v => Some (trim (if truthy v then v else js "(unknown)"))
  | None =>
      if protoMember key then None else Some (trim (js "(unknown)"))
  end.

(** [if (!map.has(s)) map.set(s, []); map.get(s).push(r);] *)
Fixpoint mapPush (s : jsstring) (r : row) (m : list (jsstring * list row))
  : list (jsstring * list row) :=
  match m with
  | [] => [(s, [r])]
  | (s', rs) :: m' =>
      if str_eqb s s' then (s', rs ++ [r]) :: m' else (s', rs) :: mapPush s r m'
  end.

(** The loop over the filtered rows; [None] when a row's site read
    throws. *)
Fixpoint groupLoop (key : jsstring) (rows : list row)
  (m : list (jsstring * list row)) : option (list (jsstring * list row)) :=
  match rows with
  | [] => Some m
  | r :: rows' =>
      match siteOf key r with
      | Some s => groupLoop key rows' (mapPush s r m)
      | None => None
      end
  end.

Definition groupRows (key : jsstring) (rows : list row)
  : option (list (jsstring * list row)) :=
  groupLoop key rows [].

(** The valid dates of the [lastModKey] column, as time values. *)
Definition lastDates (rs : roles) (siteRows : list row) : list Z :=
  flat_map (fun r =>
              match get_prop (propName (lastModKey rs)) r with
              | Some v =>
                  if truthy v then
                    match Date_parse v with Some d => [d] | None => [] end
                  else []
              | None => []
              end) siteRows.

(** [Math.max(...l)] on a non-empty list. *)
Definition maxTime (d : Z) (l : list Z) : Z := fold_left Z.max l d.

Definition sumColumn (key : jsstring) (siteRows : list row) : number :=
  fold_left (fun acc r => num_add acc (parseNumber (get_prop key r)))
            siteRows (num_of_Z 0).

Definition buildSite (rs : roles) (entry : jsstring * list row) : site :=
  let (name, siteRows) := entry in
  let combinedText := join [space] (map rowText siteRows) in
  let sh := classifySharing combinedText in
  let files :=
    match fileCountKey rs with
    | Some k => if truthy k then sumColumn k siteRows
                else num_of_nat (List.length siteRows)
    | None => num_of_nat (List.length siteRows)
    end in
  let totalKB :=
    match fileSizeKey rs with
    | Some k => if truthy k then sumColumn k siteRows else num_of_Z 0
    | None => num_of_Z 0
    end in
  {| siteName := name;
     displayName := name;
     files := files;
     totalKB := totalKB;
     totalMB := num_div totalKB (num_of_Z 1024);
     totalGB := num_div (num_div totalKB (num_of_Z 1024)) (num_of_Z 1024);
     lastModified :=
       match lastDates rs siteRows with
       | d :: l => Some (maxTime d l)
       | [] => None
       end;
     sharingLevel := level sh;
     sharingRank := rank sh;
     visibleEveryone := testWords [js "everyone"] (foldCase combinedText);
     visibleExternal :=
       testWords (map js ["external"; "guest"; "anon"; "anyone"]%string)
                 (foldCase combinedText);
     rawRows := siteRows |}.

(** [(a, b) => b.files - a.files] *)
Definition byFilesDesc (a b : site) : comparison :=
  num_sign (num_sub (files b) (files a)).

Record siteAggResult := {
  sites : list site;
  byName : list (jsstring * list row)
}.

(** [None] when the grouping loop throws. *)
Definition siteAgg (rs : roles) (filtered : list row)
  : option siteAggResult :=
  match filtered, siteKey rs with
  | _ :: _, Some key =>
      if truthy key then
        match groupRows key filtered with
        | Some map =>
            Some {| sites := sortWith byFilesDesc (List.map (buildSite rs) map);
                    byName := map |}
        | None => None
        end
      else Some {| sites := []; byName := [] |}
  | _, _ => Some {| sites := []; byName := [] |}
  end.

(** The summary record; [sumKB], [sumMB] and [sumGB] are its [totalKB],
    [totalMB] and [totalGB], named apart from the fields of [site]. *)
Record summaryT := {
  totalSites : nat;
  publicSites : nat;
  publicPct : number;
  everyoneSites : nat;
  everyonePct : number;
  sumKB : number;
  sumMB : number;
  sumGB : number;
  totalFiles : number;
  staleThreshold : Z
}.

(** [totalSites ? Math.round(n / totalSites * 10000)/100 : 0] *)
Definition pct (n total : nat) : number :=
  match total with
  | O => num_of_Z 0
  | S _ =>
      num_div
        (Math_round
           (num_mul (num_div (num_of_nat n) (num_of_nat total))
                    (num_of_Z 10000)))
        (num_of_Z 100)
  end.

(** [x || 0] on a number. *)
Definition orZero (x : number) : number :=
  if num_truthy x then x else num_of_Z 0.

Definition summary (agg : siteAggResult) (stalePeriod : jsstring) : summaryT :=
  let total := List.length (sites agg) in
  let public :=
    List.length
      (filter (fun s => str_eqb (sharingLevel s) (js "External (Anonymous)")
                        || visibleExternal s) (sites agg)) in
  let everyone :=
    List.length
      (filter (fun s => visibleEveryone s || visibleExternal s) (sites agg)) in
  let kb :=
    fold_left (fun acc s => num_add acc (orZero (totalKB s))) (sites agg)
              (num_of_Z 0) in
  {| totalSites := total;
     publicSites := public;
     publicPct := pct public total;
     everyoneSites := everyone;
     everyonePct := pct everyone total;
     sumKB := kb;
     sumMB := num_div kb (num_of_Z 1024);
     sumGB := num_div (num_div kb (num_of_Z 1024)) (num_of_Z 1024);
     totalFiles :=
       fold_left (fun acc s => num_add acc (orZero (files s))) (sites agg)
                 (num_of_Z 0);
     staleThreshold := getStaleThreshold stalePeriod |}.

(** The table's [filter] and [sort] states. *)
Record tableFilter := { search : jsstring; sharingSel : jsstring }.
Record tableSort := { key : jsstring; dir : jsstring }.

Definition timeOf (s : site) : Z :=
  match lastModified s with Some t => t | None => 0%Z end.

(** The comparator of the table's sort, by the sign of what it returns. *)
Definition tableCompare (srt : tableSort) (a b : site) : comparison :=
  let d := if str_eqb (dir srt) (js "asc") then 1%Z else (-1)%Z in
  if str_eqb (key srt) (js "name")
  then (d * localeCompare (siteName a) (siteName b) ?= 0)%Z
  else if str_eqb (key srt) (js "files")
  then num_sign (num_mul (num_of_Z d) (num_sub (files a) (files b)))
  else if str_eqb (key srt) (js "kb")
  then num_sign (num_mul (num_of_Z d) (num_sub (totalKB a) (totalKB b)))
  else if str_eqb (key srt) (js "last")
  then (d * (timeOf a - timeOf b) ?= 0)%Z
  else Eq.

Definition filteredSites (agg : siteAggResult) (flt : tableFilter)
  (srt : tableSort) : list site :=
  let q := trim (toLowerCase (search flt)) in
  let arr := sites agg in
  let arr :=
    if truthy (sharingSel flt) && negb (str_eqb (sharingSel flt) (js "all"))
    then filter (fun s => str_eqb (sharingLevel s) (sharingSel flt)) arr
    else arr in
  let arr :=
    if truthy q
    then filter (fun s => includes (toLowerCase (siteName s)) q) arr
    else arr in
  sortWith (tableCompare srt) arr.

(** A property value of an exported record. *)
Inductive jsval :=
| VStr (s : jsstring)
| VNum (n : number).

(** [String] of the value, of the empty string when it is [undefined]. *)
Definition stringOf (v : option jsval) : jsstring :=
  match v with
  | Some (VStr s) => s
  | Some (VNum n) => String_of_number n
  | None => []
  end.

(** Every quote is replaced by two quotes. *)
Definition doubleQuotes (s : jsstring) : jsstring :=
  flat_map (fun c => if ch_eqb c quote then [quote; quote] else [c]) s.

Definition quoteField (s : jsstring) : jsstring :=
  [quote] ++ doubleQuotes s ++ [quote].

(** The text handed to the [Blob]; [None] when nothing is downloaded. *)
Definition downloadCSV (arr : list (obj jsval)) : option jsstring :=
  match arr with
  | [] => None
  | first :: _ =>
      let keys := Object_keys first in
      let line r :=
        join [comma] (map (fun k => quoteField (stringOf (get_prop k r))) keys)
      in
      Some (join [LF] (join [comma] keys :: map line arr))
  end.

(** The record the "Download CSV" button builds for a site. *)
Definition exportRecord (s : site) : obj jsval :=
  [ (js "SiteName", VStr (siteName s));
    (js "Files", VNum (files s));
    (js "TotalKB", VNum (totalKB s));
    (js "TotalMB", VStr (toFixed2 (totalMB s)));
    (js "SharingLevel", VStr (sharingLevel s));
    (js "LastModified",
     VStr match lastModified s with
          | Some t => toISOString t
          | None => []
          end) ].

Definition exportSites (l : list site) : option jsstring :=
  downloadCSV (map exportRecord l).

(** The "Download Rows (CSV)" button of an expanded site. *)
Definition exportRows (l : list row) : option jsstring :=
  downloadCSV (map (map (fun e => (fst e, VStr (snd e)))) l).

(** Loading a CSV text and deriving the dashboard's state from it. *)
Record dashboard := {
  rows : list row;
  colKeys : roles;
  filtered : list row;
  agg : siteAggResult;
  summ : summaryT
}.

(** [None] when the aggregation throws: the component does not render. *)
Definition loadCSV (text : jsstring) (f : filters) (stalePeriod : jsstring)
  : option dashboard :=
  let res := parseCSV text in
  let ks := updateColumnKeys (fields res) in
  let fr := filteredRows ks f (data res) in
  match siteAgg ks fr with
  | Some ag =>
      Some {| rows := data res;
              colKeys := ks;
              filtered := fr;
              agg := ag;
              summ := summary ag stalePeriod |}
  | None => None
  end.

End Dashboard.

(* ================================================================= *)
(** ** An evaluation instance of the run-time

    Numbers are exact rationals ([None] is NaN or an infinity): the instance
    agrees with binary64 arithmetic wherever every value met is exactly
    representable, as on integer columns below 2^53.  Dates are read in the
    date-only ISO form, in UTC; strings compare by code unit; the instant of
    evaluation is 2026-01-01T00:00:00Z. *)

Module Exact.
Import QArith.QArith Qround Qabs.
Local Close Scope Q_scope.

Definition num := option Q.

Definition lift2 (f : Q -> Q -> Q) (a b : num) : num :=
  match a, b with
  | Some x, Some y => Some (Qred (f x y))
  | _, _ => None
  end.

Definition div (a b : num) : num :=
  match a, b with
  | Some x, Some y =>
      if Qeq_bool y (inject_Z 0) then None else Some (Qred (Qdiv x y))
  | _, _ => None
  end.

Definition sign (a : num) : comparison :=
  match a with Some x => Qcompare x (inject_Z 0) | None => Eq end.

Definition isTruthy (a : num) : bool :=
  match a with Some x => negb (Qeq_bool x (inject_Z 0)) | None => false end.

Definition natString (n : N) : jsstring :=
  js (DecimalString.NilEmpty.string_of_uint (N.to_uint n)).

Definition intString (z : Z) : jsstring :=
  if (z <? 0)%Z then js "-" ++ natString (Z.abs_N z) else natString (Z.abs_N z).

(** Digits before and after the dot of a decimal literal. *)
Fixpoint beforeDot (s : jsstring) : jsstring * option jsstring :=
  match s with
  | [] => ([], None)
  | c :: s' =>
      if ch_eqb c "."%char then ([], Some s')
      else let (a, b) := beforeDot s' in (c :: a, b)
  end.

Definition unsignedLiteral (s : jsstring) : num :=
  let (ip, fp) := beforeDot s in
  let fr := match fp with Some f => f | None => [] end in
  if negb (truthy ip) && negb (truthy fr) then None
  else
    match digitsValue 0 ip, digitsValue 0 fr with
    | Some i, Some f =>
        Some (Qred (Qplus (inject_Z (Z.of_N i))
                          (Qmake (Z.of_N f)
                                 (Pos.pow 10 (Pos.of_nat (List.length fr)))
                           * (if truthy fr then 1 else 0))))
    | _, _ => None
    end.

(** [Number(s)] on the decimal literals; the empty string is zero. *)
Definition ofString (s : jsstring) : num :=
  match s with
  | [] => Some (inject_Z 0)
  | c :: s' =>
      if ch_eqb c "-"%char
      then match unsignedLiteral s' with
           | Some x => Some (Qred (Qopp x))
           | None => None
           end
      else unsignedLiteral s
  end.

Definition round (a : num) : num :=
  match a with
  | Some x => Some (inject_Z (Qfloor (Qplus x (Qmake 1 2))))
  | None => None
  end.

(** The digits after the dot, by long division. *)
Fixpoint fraction (fuel : nat) (r d : Z) : jsstring :=
  match fuel with
  | O => []
  | S fuel' =>
      if (r =? 0)%Z then []
      else natString (Z.to_N (10 * r / d)) ++ fraction fuel' ((10 * r) mod d) d
  end.

Definition toString (a : num) : jsstring :=
  match a with
  | None => js "NaN"
  | Some x =>
      let n := Z.abs (Qnum x) in
      let d := Zpos (Qden x) in
      let fr := fraction 20 (n mod d) d in
      (if (Qnum x <? 0)%Z then js "-" else []) ++
      natString (Z.to_N (n / d)) ++
      (if truthy fr then js "." ++ fr else [])
  end.

Definition pad (width : nat) (s : jsstring) : jsstring :=
  repeat "0"%char (width - List.length s) ++ s.

Definition fixed2 (a : num) : jsstring :=
  match a with
  | None => js "NaN"
  | Some x =>
      let n := Qfloor (Qplus (Qmult (Qabs x) (inject_Z 100)) (Qmake 1 2)) in
      match Qcompare x (inject_Z 0) with Lt => js "-" | _ => [] end ++
      natString (Z.to_N (n / 100)) ++ js "." ++ pad 2 (natString (Z.to_N (n mod 100)))
  end.

Definition daysFromCivil (y m d : Z) : Z :=
  let y' := if (m <=? 2)%Z then (y - 1)%Z else y in
  let era := (y' / 400)%Z in
  let yoe := (y' - era * 400)%Z in
  let mp := ((m + 9) mod 12)%Z in
  let doy := ((153 * mp + 2) / 5 + d - 1)%Z in
  let doe := (yoe * 365 + yoe / 4 - yoe / 100 + doy)%Z in
  (era * 146097 + doe - 719468)%Z.

Definition civilFromDays (z : Z) : Z * Z * Z :=
  let z := (z + 719468)%Z in
  let era := (z / 146097)%Z in
  let doe := (z - era * 146097)%Z in
  let yoe := ((doe - doe / 1460 + doe / 36524 - doe / 146096) / 365)%Z in
  let doy := (doe - (365 * yoe + yoe / 4 - yoe / 100))%Z in
  let mp := ((5 * doy + 2) / 153)%Z in
  let d := (doy - (153 * mp + 2) / 5 + 1)%Z in
  let m := if (mp <? 10)%Z then (mp + 3)%Z else (mp - 9)%Z in
  ((if (m <=? 2)%Z then era * 400 + yoe + 1 else era * 400 + yoe)%Z, m, d).

Definition fixedDigits (width : nat) (s : jsstring) : option Z :=
  if Nat.eqb (List.length s) width
  then match digitsValue 0 s with Some n => Some (Z.of_N n) | None => None end
  else None.

(** [new Date(v)] on [YYYY-MM-DD]. *)
Definition dateParse (v : jsstring) : option Z :=
  match fixedDigits 4 (firstn 4 v), fixedDigits 2 (firstn 2 (skipn 5 v)),
        fixedDigits 2 (skipn 8 v) with
  | Some y, Some m, Some d =>
      if str_eqb (firstn 1 (skipn 4 v)) (js "-")
         && str_eqb (firstn 1 (skipn 7 v)) (js "-")
         && (1 <=? m)%Z && (m <=? 12)%Z && (1 <=? d)%Z
      then
        let t := daysFromCivil y m d in
        match civilFromDays t with
        | (y', m', d') =>
            if (y' =? y)%Z && (m' =? m)%Z && (d' =? d)%Z
            then Some (t * 86400000)%Z else None
        end
      else None
  | _, _, _ => None
  end.

Definition isoString (t : Z) : jsstring :=
  let days := (t / 86400000)%Z in
  let ms := (t mod 86400000)%Z in
  match civilFromDays days with
  | (y, m, d) =>
      let two z := pad 2 (natString (Z.to_N z)) in
      pad 4 (natString (Z.to_N y)) ++ js "-" ++ two m ++ js "-" ++ two d ++
      js "T" ++ two (ms / 3600000)%Z ++ js ":" ++
      two ((ms / 60000) mod 60)%Z ++ js ":" ++
      two ((ms / 1000) mod 60)%Z ++ js "." ++
      pad 3 (natString (Z.to_N (ms mod 1000))) ++ js "Z"
  end.

Fixpoint compareUnits (a b : jsstring) : Z :=
  match a, b with
  | [], [] => 0
  | [], _ :: _ => -1
  | _ :: _, [] => 1
  | x :: a', y :: b' =>
      match N.compare (code x) (code y) with
      | Lt => -1
      | Gt => 1
      | Eq => compareUnits a' b'
      end
  end%Z.

Definition staleThresholdAt (period : jsstring) : Z :=
  (86400000 *
   if str_eqb period (js "12months") then daysFromCivil 2025 1 1
   else if str_eqb period (js "2years") then daysFromCivil 2024 1 1
   else if str_eqb period (js "5years") then daysFromCivil 2021 1 1
   else daysFromCivil 2025 7 1)%Z.

#[export] Instance runtime : JsRuntime := {|
  number := num;
  num_of_Z := fun z => Some (inject_Z z);
  num_add := lift2 Qplus;
  num_sub := lift2 Qminus;
  num_mul := lift2 Qmult;
  num_div := div;
  num_sign := sign;
  num_truthy := isTruthy;
  Number_of_string := ofString;
  Number_isFinite := fun a => match a with Some _ => true | None => false end;
  Math_round := round;
  String_of_number := toString;
  toFixed2 := fixed2;
  Date_parse := dateParse;
  toISOString := isoString;
  localeCompare := compareUnits;
  getStaleThreshold := staleThresholdAt
|}.

End Exact.

(* ================================================================= *)
(** ** File-type statistics, stale sites and the table's header clicks *)

(** A slice of the file-type chart: [{ name, value }]. *)
Record slice := { sliceName : jsstring; sliceValue : nat }.

(** [distribution[ext] = (distribution[ext] || 0) + 1] on the object
    literal [distribution].  For the extension [__proto__] the read yields
    [Object.prototype] and the write of the resulting string is ignored by
    the prototype's setter, so the object is unchanged; no other member of
    [Object.prototype] is a lowercase word of fewer than ten code units,
    as extensions are. *)
Definition countExtension (ext : jsstring) (distribution : obj nat) : obj nat :=
  if str_eqb ext (js "__proto__") then distribution
  else
    set_prop ext
      (match get_prop ext distribution with Some n => n | None => 0 end + 1)
      distribution.

(** [typesSet.add(ext)]: a [Set] keeps insertion order without repeats. *)
Definition setAdd (x : jsstring) (l : list jsstring) : list jsstring :=
  if existsb (str_eqb x) l then l else l ++ [x].

(** The order of the default [Array.prototype.sort]: strings by code
    unit. *)
Fixpoint strCompare (a b : jsstring) : comparison :=
  match a, b with
  | [], [] => Eq
  | [], _ :: _ => Lt
  | _ :: _, [] => Gt
  | x :: a', y :: b' =>
      match N.compare (code x) (code y) with
      | Eq => strCompare a' b'
      | c => c
      end
  end.

(** [(a, b) => b.value - a.value] *)
Definition byValueDesc (a b : slice) : comparison :=
  Nat.compare (sliceValue b) (sliceValue a).

Record fileTypeView := {
  fileTypeStats : list slice;
  allFileTypes : list jsstring
}.

Definition fileTypes (rs : roles) (f : filters) (rows0 : list row)
  : fileTypeView :=
  match rows0 with
  | [] => {| fileTypeStats := []; allFileTypes := [] |}
  | _ :: _ =>
      let distribution :=
        fold_left (fun d r => countExtension (getFileExtension rs r) d)
                  (filteredRows rs f rows0) [] in
      let typesSet :=
        fold_left (fun t r => setAdd (getFileExtension rs r) t) rows0 [] in
      let stats :=
        sortWith byValueDesc
          (map (fun e => {| sliceName := fst e; sliceValue := snd e |})
               (ownProps distribution)) in
      let others := list_sum (map sliceValue (skipn 8 stats)) in
      {| fileTypeStats :=
           firstn 8 stats
           ++ (if 0 <? others
               then [{| sliceName := js "Other"; sliceValue := others |}]
               else []);
         allFileTypes := sortWith strCompare typesSet |}
  end.

(** The four sortable columns of the site table and their sort keys. *)
Inductive column := ColName | ColFiles | ColStorage | ColLast.

Definition columnKey (c : column) : jsstring :=
  match c with
  | ColName => js "name"
  | ColFiles => js "files"
  | ColStorage => js "kb"
  | ColLast => js "last"
  end.

(** The click handlers of the column headers: the new [sort] state.  The
    name column starts ascending, the others descending. *)
Definition clickHeader (c : column) (srt : tableSort) : tableSort :=
  match c with
  | ColName =>
      {| key := js "name";
         dir := if str_eqb (key srt) (js "name") && str_eqb (dir srt) (js "asc")
                then js "desc" else js "asc" |}
  | _ =>
      {| key := columnKey c;
         dir := if str_eqb (key srt) (columnKey c)
                   && str_eqb (dir srt) (js "desc")
                then js "asc" else js "desc" |}
  end.

Section StaleSites.
Context {RT : JsRuntime}.

(** An entry of the stale list: the site ([...s]) and the stale fields. *)
Record staleSite := {
  staleOf : site;
  staleFileCount : nat;
  staleKB : number;
  oldestModified : Z;
  staleFiles : list row
}.

(** [new Date(r[lastModKey])] when the value is truthy and the date valid. *)
Definition rowDate (rs : roles) (r : row) : option Z :=
  match get_prop (propName (lastModKey rs)) r with
  | Some v => if truthy v then Date_parse v else None
  | None => None
  end.

(** The callback of [s.rawRows.filter]: a valid date before the threshold. *)
Definition isStale (rs : roles) (threshold : Z) (r : row) : bool :=
  match rowDate rs r with
  | Some d => (d <? threshold)%Z
  | None => false
  end.

(** The callback of the [reduce] that finds the oldest date;
    [new Date(undefined)] and invalid dates compare false. *)
Definition olderOf (rs : roles) (minDate : Z) (r : row) : Z :=
  match get_prop (propName (lastModKey rs)) r with
  | Some v =>
      match Date_parse v with
      | Some d => if (d <? minDate)%Z then d else minDate
      | None => minDate
      end
  | None => minDate
  end.

(** The callback of [siteAgg.sites.map]; [None] is [null].  [now] is the
    instant of [new Date()]. *)
Definition staleEntry (rs : roles) (threshold now : Z) (s : site)
  : option staleSite :=
  let stale := filter (isStale rs threshold) (rawRows s) in
  match stale with
  | [] => None
  | _ :: _ =>
      Some {| staleOf := s;
              staleFileCount := List.length stale;
              staleKB :=
                fold_left
                  (fun acc r =>
                     num_add acc
                       (parseNumber (get_prop (propName (fileSizeKey rs)) r)))
                  stale (num_of_Z 0);
              oldestModified := fold_left (olderOf rs) stale now;
              staleFiles := stale |}
  end.

(** [(a, b) => a.oldestModified.getTime() - b.oldestModified.getTime()] *)
Definition byOldest (a b : staleSite) : comparison :=
  (oldestModified a - oldestModified b ?= 0)%Z.

Definition staleSitesList (rs : roles) (ss : list site) (threshold now : Z)
  : list staleSite :=
  if truthyOpt (lastModKey rs)
  then sortWith byOldest
         (flat_map (fun s => match staleEntry rs threshold now s with
                             | Some e => [e]
                             | None => []
                             end) ss)
  else [].

End StaleSites.

(* ================================================================= *)
(** ** Vocabulary of the properties *)

(** The lines of a CSV text that are not blank, trimmed: the header line
    followed by the data lines. *)
Definition nonBlankLines (text : jsstring) : list jsstring :=
  filter truthy (map trim (splitLines [] text)).

(** The commas of a line that an even number of quotes precede;
    [inQuote] tells whether an odd number of quotes came before the line. *)
Fixpoint topCommas (inQuote : bool) (line : jsstring) : nat :=
  match line with
  | [] => 0
  | c :: rest =>
      if ch_eqb c quote then topCommas (negb inQuote) rest
      else if ch_eqb c comma && negb inQuote then S (topCommas inQuote rest)
      else topCommas inQuote rest
  end.

(** The row of a data line under a header line. *)
Definition rowOf (hdr line : jsstring) : row :=
  fillRow (splitLine line) 0 (splitLine hdr) [].

(** A field text that neither starts nor ends with a quote once trimmed. *)
Definition plainEnds (f : jsstring) : Prop :=
  hd_error (trim f) <> Some quote /\ hd_error (rev (trim f)) <> Some quote.

(** A text that does not start with a word character. *)
Definition nonWordHead (s : jsstring) : Prop := isWord (hd_error s) = false.

(** The order of the table sorted by last-modified, on the time values
    the comparator reads. *)
Definition timeOrder {RT : JsRuntime} (srt : tableSort) (x y : site) : Prop :=
  if str_eqb (dir srt) (js "asc")
  then (timeOf x <= timeOf y)%Z else (timeOf y <= timeOf x)%Z.

(** The order of the risk profiles: Critical above Medium above Low above
    Unknown. *)
Definition riskLevel (risk : jsstring) : nat :=
  if str_eqb risk (js "Critical") then 3
  else if str_eqb risk (js "Medium") then 2
  else if str_eqb risk (js "Low") then 1
  else 0.

(** The word lists of [classifySharing]. *)
Definition anonymousWords : list jsstring :=
  map js ["anyone"; "anyonewithlink"; "anyone with the link"; "anonymous";
          "public"]%string.

Definition externalWords : list jsstring :=
  map js ["guest"; "external"; "new external"; "new & existing";
          "new and existing"; "newexisting"]%string.

(** The phrase lists of [getRiskProfile]. *)
Definition mediumPhrases : list string :=
  ["visitor"; "excel services viewers"; "portfolio viewers"]%string.

Definition lowPhrases : list string :=
  ["owner"; "member"; "administrator"; "project manager"; "team lead";
   "resource manager"]%string.

(** The [distribution] object after the rows [l]. *)
Definition distributionOf (rs : roles) (l : list row) : obj nat :=
  fold_left (fun d r => countExtension (getFileExtension rs r) d) l [].

(** The rows the distribution counts: all but those of extension
    [__proto__]. *)
Definition counted (rs : roles) (r : row) : bool :=
  negb (str_eqb (getFileExtension rs r) (js "__proto__")).

(** A field text without quote and without comma. *)
Definition bare (f : jsstring) : Prop := ~ In quote f /\ ~ In comma f.

(** The text with a carriage return put before every line feed. *)
Definition toCRLF (text : jsstring) : jsstring :=
  flat_map (fun c => if ch_eqb c LF then [CR; LF] else [c]) text.

(** A code unit put before the first of a list of texts. *)
Definition consHead (c : ascii) (l : list jsstring) : list jsstring :=
  match l with
  | x :: xs => (c :: x) :: xs
  | [] => [[c]]
  end.

(** The line cut at the commas that an even number of quotes precede,
    the commas left out; [inQuote] tells whether an odd number of quotes
    came before the line. *)
Fixpoint cutFields (inQuote : bool) (line : jsstring) : list jsstring :=
  match line with
  | [] => [[]]
  | c :: rest =>
      if ch_eqb c quote then consHead c (cutFields (negb inQuote) rest)
      else if ch_eqb c comma && negb inQuote then [] :: cutFields inQuote rest
      else consHead c (cutFields inQuote rest)
  end.

(** A text with each doubled quote read as one quote and every other
    quote left out. *)
Fixpoint unquote (s : jsstring) : jsstring :=
  match s with
  | [] => []
  | c :: rest =>
      if ch_eqb c quote then
        match rest with
        | d :: rest' =>
            if ch_eqb d quote then quote :: unquote rest' else unquote rest
        | [] => []
        end
      else c :: unquote rest
  end.

(** A field as it is written on a line: as it is, or between quotes with
    its quotes doubled. *)
Inductive csvField :=
| Bare (text : jsstring)
| Quoted (text : jsstring).

Definition written (f : csvField) : jsstring :=
  match f with
  | Bare t => t
  | Quoted t => quoteField t
  end.

Definition fieldText (f : csvField) : jsstring :=
  match f with
  | Bare t => t
  | Quoted t => t
  end.

(** An unquoted field holds neither quote nor comma; the trimmed text of
    a quoted field neither starts nor ends with a quote. *)
Definition wellWritten (f : csvField) : Prop :=
  match f with
  | Bare t => bare t
  | Quoted t => plainEnds t
  end.

(** The read [r[key]] finds an own property of the row or nothing: it
    does not reach a member of [Object.prototype]. *)
Definition plainRead (key : jsstring) (r : row) : Prop :=
  get_prop key r <> None \/ protoMember key = false.

(** A text that is not empty and has no white space at either end. *)
Definition tight (s : jsstring) : Prop :=
  isWhiteSpace (hd space s) = false /\
  isWhiteSpace (hd space (rev s)) = false.

(** A property name that reads back from a header line as it is: not
    empty and equal to its trimmed text, without quote, comma or line
    feed. *)
Definition plainKey (k : jsstring) : Prop :=
  k <> [] /\ trim k = k /\ bare k /\ ~ In LF k.

(* ================================================================= *)
(** * Properties *)

(** ** Strings *)

Lemma ch_eqb_eq (a b : ascii) : ch_eqb a b = true <-> a = b.
Proof. apply Ascii.eqb_eq. Qed.

Lemma ch_eqb_refl (a : ascii) : ch_eqb a a = true.
Proof. apply ch_eqb_eq; reflexivity. Qed.

Lemma ch_eqb_neq (a b : ascii) : ch_eqb a b = false <-> a <> b.
Proof.
  split; intro H.
  - intro E. apply ch_eqb_eq in E. congruence.
  - destruct (ch_eqb a b) eqn:E; [apply ch_eqb_eq in E; contradiction | reflexivity].
Qed.

Lemma str_eqb_eq (a b : jsstring) : str_eqb a b = true <-> a = b.
Proof.
  revert b; induction a as [|x a IH]; intros [|y b]; simpl;
    try (split; [discriminate | discriminate]); try tauto.
  rewrite andb_true_iff, ch_eqb_eq, IH.
  split; [intros [-> ->]; reflexivity | intros E; inversion E; auto].
Qed.

Lemma str_eqb_refl (a : jsstring) : str_eqb a a = true.
Proof. apply str_eqb_eq; reflexivity. Qed.

Lemma str_eqb_neq (a b : jsstring) : str_eqb a b = false <-> a <> b.
Proof.
  split; intro H.
  - intro E. apply str_eqb_eq in E. congruence.
  - destruct (str_eqb a b) eqn:E; [apply str_eqb_eq in E; contradiction | reflexivity].
Qed.

Lemma str_eqb_sym (a b : jsstring) : str_eqb a b = str_eqb b a.
Proof.
  destruct (str_eqb a b) eqn:E.
  - apply str_eqb_eq in E; subst. symmetry; apply str_eqb_refl.
  - symmetry. apply str_eqb_neq. apply str_eqb_neq in E. congruence.
Qed.

Lemma startsWith_app (p t : jsstring) :
  startsWith p t = true <-> exists r, t = p ++ r.
Proof.
  revert t; induction p as [|x p IH]; intros t; simpl.
  - split; [intros _; exists t; reflexivity | reflexivity].
  - destruct t as [|y t].
    + split; [discriminate | intros [r E]; discriminate].
    + rewrite andb_true_iff, ch_eqb_eq, IH. split.
      * intros [-> [r ->]]. exists r; reflexivity.
      * intros [r E]. inversion E; subst. split; [reflexivity | exists r; reflexivity].
Qed.

(** ** Column inference *)

Lemma findIndex_Some (p : jsstring -> bool) (l : list jsstring) (i : nat) :
  findIndex p l = Some i ->
  exists h, nth_error l i = Some h /\ p h = true /\
            forall j h', j < i -> nth_error l j = Some h' -> p h' = false.
Proof.
  revert i; induction l as [|x l IH]; simpl; intros i H; [discriminate|].
  destruct (p x) eqn:Px.
  - inversion H; subst. exists x. repeat split; auto. intros j h' Hj; lia.
  - destruct (findIndex p l) as [i'|] eqn:F; [|discriminate].
    inversion H; subst. destruct (IH i' eq_refl) as (h & Hn & Hp & Hlt).
    exists h. repeat split; auto.
    intros [|j] h' Hj Hn'; simpl in Hn'.
    + inversion Hn'; subst; assumption.
    + apply (Hlt j); [lia | assumption].
Qed.

Lemma findIndex_None (p : jsstring -> bool) (l : list jsstring) :
  findIndex p l = None -> forall h, In h l -> p h = false.
Proof.
  induction l as [|x l IH]; simpl; intros H h Hin; [contradiction|].
  destruct (p x) eqn:Px; [discriminate|].
  destruct (findIndex p l) eqn:F; [discriminate|].
  destruct Hin as [<-|Hin]; auto.
Qed.

(** What [findColumns] returns, for any keyword list: the keywords are
    tried in order, and the first one contained in some lowercased header
    selects the first header that contains it. *)
Lemma findColumns_spec (headers keywords : list jsstring) :
  match findColumns headers keywords with
  | None =>
      forall h k, In h headers -> In k keywords ->
                  includes (toLowerCase h) (toLowerCase k) = false
  | Some h =>
      exists i j k,
        nth_error keywords i = Some k /\
        nth_error headers j = Some h /\
        includes (toLowerCase h) (toLowerCase k) = true /\
        (forall i' k' h', i' < i -> nth_error keywords i' = Some k' ->
                          In h' headers ->
                          includes (toLowerCase h') (toLowerCase k') = false) /\
        (forall j' h', j' < j -> nth_error headers j' = Some h' ->
                       includes (toLowerCase h') (toLowerCase k) = false)
  end.
Proof.
  unfold findColumns.
  induction keywords as [|k ks IH]; simpl.
  - intros h k _ [].
  - destruct (findIndex (fun h => includes h (toLowerCase k))
                        (map toLowerCase headers)) as [m|] eqn:F.
    + destruct (findIndex_Some _ _ F) as (lh & Hn & Hp & Hlt).
      rewrite nth_error_map in Hn.
      destruct (nth_error headers m) as [h|] eqn:Hh; [|discriminate].
      simpl in Hn. inversion Hn; subst lh.
      exists 0, m, k. repeat split; auto.
      * intros i' k' h' Hi; lia.
      * intros j' h' Hj Hn'. apply (Hlt j' (toLowerCase h') Hj).
        rewrite nth_error_map, Hn'. reflexivity.
    + assert (Hk : forall h, In h headers ->
                             includes (toLowerCase h) (toLowerCase k) = false).
      { intros h Hin. apply (findIndex_None _ _ F). apply in_map; assumption. }
      destruct (findColumnsLoop headers (map toLowerCase headers) ks) as [h|].
      * destruct IH as (i & j & k0 & Hi & Hj & Hinc & Hearlier & Hfirst).
        exists (S i), j, k0. repeat split; auto.
        intros [|i'] k' h' Hlt Hn' Hin; simpl in Hn'.
        -- inversion Hn'; subst. auto.
        -- apply (Hearlier i' k' h'); [lia | assumption | assumption].
      * intros h k' Hin [<-|Hin']; auto.
Qed.

Lemma roleKeywords_lower (r : role) :
  map toLowerCase (roleKeywords r) = roleKeywords r.
Proof. destruct r; reflexivity. Qed.

Lemma roleKey_updateColumnKeys (headers : list jsstring) (r : role) :
  roleKey (updateColumnKeys headers) r = findColumns headers (roleKeywords r).
Proof. destruct r; reflexivity. Qed.

Lemma roleKeyword_lower (r : role) (i : nat) (k : jsstring) :
  nth_error (roleKeywords r) i = Some k -> toLowerCase k = k.
Proof.
  intros H. pose proof (roleKeywords_lower r) as E.
  assert (H' : nth_error (map toLowerCase (roleKeywords r)) i
               = Some (toLowerCase k)) by (rewrite nth_error_map, H; reflexivity).
  rewrite E, H in H'. inversion H'. congruence.
Qed.

(** C3.  For every header sequence and every role other than [site], the
    role is assigned a header as follows.  When no header's lowercased
    text contains a keyword of the role, the role has no header ([null],
    no error).  Otherwise the winning keyword is the earliest one of the
    role's list that some header contains (an earlier keyword wins between
    headers matching different keywords), and the role is assigned the
    first header, in the original order, whose lowercased text contains
    that keyword. *)
Theorem C3_role_assignment (headers : list jsstring) (r : role) :
  match roleKey (updateColumnKeys headers) r with
  | None =>
      forall h k, In h headers -> In k (roleKeywords r) ->
                  includes (toLowerCase h) k = false
  | Some h =>
      exists i j k,
        nth_error (roleKeywords r) i = Some k /\
        nth_error headers j = Some h /\
        includes (toLowerCase h) k = true /\
        (forall i' k' h', i' < i -> nth_error (roleKeywords r) i' = Some k' ->
                          In h' headers ->
                          includes (toLowerCase h') k' = false) /\
        (forall j' h', j' < j -> nth_error headers j' = Some h' ->
                       includes (toLowerCase h') k = false)
  end.
Proof.
  rewrite roleKey_updateColumnKeys.
  pose proof (findColumns_spec headers (roleKeywords r)) as S.
  destruct (findColumns headers (roleKeywords r)) as [h|].
  - destruct S as (i & j & k & Hi & Hj & Hinc & Hearlier & Hfirst).
    pose proof (roleKeyword_lower r i Hi) as Lk.
    exists i, j, k. rewrite Lk in *. repeat split; auto.
    intros i' k' h' Hlt Hn Hin.
    rewrite <- (roleKeyword_lower r i' Hn). eapply Hearlier; eauto.
  - intros h k Hin Hk.
    destruct (In_nth_error _ _ Hk) as [i Hi].
    rewrite <- (roleKeyword_lower r i Hi). apply S; assumption.
Qed.

(** Header order alone does not decide: a later header that contains an
    earlier keyword is preferred. *)
Example findColumns_keyword_priority :
  findColumns [js "Size"; js "FileSize"] (roleKeywords FileSize)
  = Some (js "FileSize").
Proof. reflexivity. Qed.

(** ** Objects *)

Section ObjectFacts.
Variable V : Type.

Lemma get_prop_In (k : jsstring) (v : V) (o : obj V) :
  get_prop k o = Some v -> In (k, v) o.
Proof.
  induction o as [|[k' v'] o IH]; simpl; [discriminate|].
  destruct (str_eqb k k') eqn:E.
  - apply str_eqb_eq in E; subst. intros H; inversion H; subst. left; reflexivity.
  - intros H. right. auto.
Qed.

Lemma In_insertIndexed (x e : N * (jsstring * V)) (l : list (N * (jsstring * V))) :
  In x (insertIndexed e l) <-> x = e \/ In x l.
Proof.
  induction l as [|e' l IH]; simpl.
  - intuition congruence.
  - destruct (fst e <=? fst e')%N; simpl; [intuition congruence|].
    rewrite IH. intuition congruence.
Qed.

Lemma In_ownProps (e : jsstring * V) (o : obj V) : In e o -> In e (ownProps o).
Proof.
  intros Hin. unfold ownProps. apply in_or_app.
  destruct (arrayIndex (fst e)) as [n|] eqn:A.
  - left. apply in_map_iff. exists (n, e). split; [reflexivity|].
    induction o as [|[k v] o IH]; simpl in *; [contradiction|].
    destruct Hin as [<-|Hin]; simpl in *.
    + rewrite A. apply In_insertIndexed. left; reflexivity.
    + destruct (arrayIndex k); [apply In_insertIndexed; right|]; auto.
  - right. unfold namedProps. apply filter_In. rewrite A. auto.
Qed.

Lemma get_prop_Object_values (k : jsstring) (v : V) (o : obj V) :
  get_prop k o = Some v -> In v (Object_values o).
Proof.
  intros H. unfold Object_values. apply in_map_iff. exists (k, v).
  split; [reflexivity | apply In_ownProps, get_prop_In, H].
Qed.

End ObjectFacts.

(** ** Whole-word tests and joined text *)

Lemma isWord_hd_app (t s : jsstring) :
  nonWordHead s -> isWord (hd_error (t ++ s)) = isWord (hd_error t).
Proof. intros H. destruct t; simpl; [exact H | reflexivity]. Qed.

Lemma wordAt_context (prev prev' : option ascii) (t s w : jsstring) :
  isWord prev = isWord prev' -> nonWordHead s ->
  wordAt prev t w = true -> wordAt prev' (t ++ s) w = true.
Proof.
  intros Hp Hs. unfold wordAt, boundary.
  rewrite !andb_true_iff. intros [[B1 St] B2].
  apply startsWith_app in St. destruct St as [r ->].
  assert (K1 : skipn (List.length w) (w ++ r) = r).
  { rewrite skipn_app, skipn_all, Nat.sub_diag. reflexivity. }
  assert (K2 : skipn (List.length w) ((w ++ r) ++ s) = r ++ s).
  { rewrite <- app_assoc, skipn_app, skipn_all, Nat.sub_diag. reflexivity. }
  rewrite K1 in B2. rewrite K2.
  rewrite (isWord_hd_app (w ++ r) Hs), (isWord_hd_app r Hs).
  repeat split.
  - rewrite <- Hp. exact B1.
  - apply startsWith_app. exists (r ++ s). rewrite app_assoc. reflexivity.
  - destruct (rev w); [rewrite <- Hp|]; exact B2.
Qed.

Lemma scanWords_suffix (alts : list jsstring) (t s : jsstring) :
  nonWordHead s ->
  forall prev prev', isWord prev = isWord prev' ->
    scanWords alts prev t = true -> scanWords alts prev' (t ++ s) = true.
Proof.
  intros Hs. induction t as [|c t IH]; intros prev prev' Hp H.
  - simpl in H. rewrite orb_false_r in H.
    apply existsb_exists in H. destruct H as (w & Hw & Hat).
    assert (E : scanWords alts prev' ([] ++ s)
                = existsb (wordAt prev' ([] ++ s)) alts
                  || match [] ++ s with [] => false
                     | c :: t' => scanWords alts (Some c) t' end)
      by (destruct ([] ++ s); reflexivity).
    rewrite E. apply orb_true_iff. left. apply existsb_exists.
    exists w. split; [assumption|]. eapply wordAt_context; eauto.
  - simpl in H |- *. apply orb_true_iff in H. apply orb_true_iff.
    destruct H as [H|H].
    + left. apply existsb_exists in H. destruct H as (w & Hw & Hat).
      apply existsb_exists. exists w. split; [assumption|].
      change (c :: t ++ s) with ((c :: t) ++ s).
      eapply wordAt_context; eauto.
    + right. apply (IH (Some c) (Some c)); auto.
Qed.

Lemma scanWords_prefix (alts : list jsstring) (pre t : jsstring) :
  forall prev, scanWords alts (Some space) t = true ->
               scanWords alts prev (pre ++ space :: t) = true.
Proof.
  induction pre as [|c pre IH]; intros prev H; simpl.
  - rewrite H. apply orb_true_r.
  - rewrite (IH (Some c) H). apply orb_true_r.
Qed.

Lemma join_In (v : jsstring) (l : list jsstring) :
  In v l ->
  (exists suf, nonWordHead suf /\ join [space] l = v ++ suf) \/
  (exists pre suf, nonWordHead suf /\ join [space] l = pre ++ space :: v ++ suf).
Proof.
  induction l as [|x l IH]; [intros []|].
  intros Hin. destruct l as [|y l].
  - destruct Hin as [->|[]]. left. exists []. split; [reflexivity|].
    simpl. rewrite app_nil_r. reflexivity.
  - change (join [space] (x :: y :: l))
      with (x ++ [space] ++ join [space] (y :: l)).
    destruct Hin as [->|Hin].
    + left. exists ([space] ++ join [space] (y :: l)). split; reflexivity.
    + right. destruct (IH Hin) as [(suf & Hs & E)|(pre & suf & Hs & E)]; rewrite E.
      * exists x, suf. split; [assumption | reflexivity].
      * exists (x ++ space :: pre), suf. split; [assumption|].
        rewrite <- app_assoc. reflexivity.
Qed.

Lemma testWords_join (alts : list jsstring) (v : jsstring) (l : list jsstring) :
  In v l -> testWords alts v = true -> testWords alts (join [space] l) = true.
Proof.
  intros Hin H. unfold testWords in *.
  destruct (join_In v l Hin) as [(suf & Hs & E)|(pre & suf & Hs & E)]; rewrite E.
  - apply (scanWords_suffix alts v Hs None None); auto.
  - apply scanWords_prefix.
    apply (scanWords_suffix alts v Hs None (Some space)); auto.
Qed.

Lemma toLowerCase_join (l : list jsstring) :
  toLowerCase (join [space] l) = join [space] (map toLowerCase l).
Proof.
  induction l as [|x l IH]; [reflexivity|].
  destruct l as [|y l]; [reflexivity|].
  change (join [space] (x :: y :: l)) with (x ++ [space] ++ join [space] (y :: l)).
  unfold toLowerCase in *. rewrite !map_app, IH. reflexivity.
Qed.

(** ** Filter engine *)

Lemma getRiskProfile_everyone (text : jsstring) :
  testWords [js "everyone"] (toLowerCase text) = true ->
  getRiskProfile text = js "Critical".
Proof. intros H. unfold getRiskProfile. rewrite H. reflexivity. Qed.

Lemma keepRow_conj (rs : roles) (f : filters) (r : row) :
  keepRow rs f r = passesFileType rs f r && passesRisk f r && passesCategory rs f r.
Proof.
  unfold keepRow.
  destruct (passesFileType rs f r), (passesRisk f r), (passesCategory rs f r);
    reflexivity.
Qed.

Lemma passesRisk_selected (f : filters) (r : row) :
  riskFilter f = js "Critical" \/ riskFilter f = js "Medium"
  \/ riskFilter f = js "Low" ->
  passesRisk f r = str_eqb (getRiskProfile (rowText r)) (riskFilter f).
Proof.
  unfold passesRisk. intros [E|[E|E]]; rewrite E;
    match goal with
    | |- context [getRiskProfile ?t] => generalize (getRiskProfile t)
    end; intros risk;
    cbn [negb andb]; 
    repeat match goal with
    | |- context [str_eqb (js ?a) (js ?b)] =>
        let v := eval vm_compute in (str_eqb (js a) (js b)) in
        change (str_eqb (js a) (js b)) with v
    end; cbn [negb andb];
    destruct (str_eqb risk _); reflexivity.
Qed.

(** C4.  For every row and a selected risk among Critical, Medium and Low,
    the risk test of the filter keeps the row iff [getRiskProfile] of the
    space-joined values of all the row's fields equals the selected risk,
    and the row is kept (is among the filtered rows) iff it also passes
    the file-type and category tests.  In particular a row that has the
    whole word "everyone", in any letter case, in any column (a
    Description column as well as a permissions column) passes the
    Critical risk test. *)
Theorem C4_risk_filter_scans_whole_row (rs : roles) (f : filters) (r : row) :
  riskFilter f = js "Critical" \/ riskFilter f = js "Medium"
  \/ riskFilter f = js "Low" ->
  passesRisk f r
  = str_eqb (getRiskProfile (join [space] (Object_values r))) (riskFilter f)
  /\ keepRow rs f r
     = passesFileType rs f r
       && str_eqb (getRiskProfile (join [space] (Object_values r))) (riskFilter f)
       && passesCategory rs f r
  /\ (forall rows0, In r (filteredRows rs f rows0)
                    <-> In r rows0 /\ keepRow rs f r = true)
  /\ (forall column v,
        get_prop column r = Some v ->
        testWords [js "everyone"] (toLowerCase v) = true ->
        riskFilter f = js "Critical" ->
        passesRisk f r = true).
Proof.
  intros Hsel. pose proof (passesRisk_selected f r Hsel) as P.
  unfold rowText in P. split; [exact P|]. split; [|split].
  - rewrite keepRow_conj, P. reflexivity.
  - intros rows0. unfold filteredRows.
    destruct rows0 as [|r0 rows0]; [simpl; tauto | apply filter_In].
  - intros column v Hget Hword Hcrit. rewrite P, Hcrit.
    rewrite getRiskProfile_everyone; [reflexivity|].
    rewrite toLowerCase_join. apply testWords_join with (v := toLowerCase v).
    + apply in_map. eapply get_prop_Object_values; eauto.
    + exact Hword.
Qed.

Lemma C4_witness :
  let f := {| fileTypeFilter := js "All"; riskFilter := js "Critical";
              categoryFilter := js "All" |} in
  let r := [(js "Site", js "A"); (js "Description", js "Shared with Everyone")] in
  passesRisk f r = true.
Proof.
  intros f r.
  refine (proj2 (proj2 (proj2 (C4_risk_filter_scans_whole_row
                          {| siteKey := None; fileCountKey := None;
                             fileSizeKey := None; lastModKey := None;
                             fileTypeKey := None; fileNameKey := None;
                             permKey := None |} f r _)))
            (js "Description") (js "Shared with Everyone") _ _ _).
  - left; reflexivity.
  - reflexivity.
  - vm_compute; reflexivity.
  - reflexivity.
Defined.

(** C9.  With the risk filter set to "Unknown" the risk test keeps every
    row, whatever its risk profile: the callback compares only against
    Critical, Medium and Low.  The filtered rows are then those that pass
    the file-type and category tests, the same as with the risk filter
    set to "All". *)
Theorem C9_unknown_risk_keeps_every_row (rs : roles) (ft cat : jsstring)
  (rows : list row) :
  let f := {| fileTypeFilter := ft; riskFilter := js "Unknown";
              categoryFilter := cat |} in
  let f0 := {| fileTypeFilter := ft; riskFilter := js "All";
               categoryFilter := cat |} in
  (forall r, passesRisk f r = true) /\
  filteredRows rs f rows
  = filter (fun r => passesFileType rs f r && passesCategory rs f r) rows /\
  filteredRows rs f rows = filteredRows rs f0 rows.
Proof.
  intros f f0.
  assert (R : forall r, passesRisk f r = true).
  { intros r. unfold passesRisk, f. cbn [riskFilter].
    generalize (getRiskProfile (rowText r)); intros risk. reflexivity. }
  assert (K : forall g, (forall r, passesRisk g r = true) ->
                        filteredRows rs g rows
                        = filter (fun r => passesFileType rs g r
                                           && passesCategory rs g r) rows).
  { intros g Hg. unfold filteredRows. destruct rows as [|r0 rows']; [reflexivity|].
    apply filter_ext. intros r. rewrite keepRow_conj, Hg.
    rewrite andb_true_r. reflexivity. }
  split; [exact R|]. split; [apply K, R|].
  rewrite (K f R), (K f0); [reflexivity|].
  intros r. reflexivity.
Qed.

(** ** CSV parser *)

Lemma splitLoop_length (line : jsstring) :
  forall values current inQuote,
    List.length (splitLoop values current inQuote line)
    = List.length values + 1 + topCommas inQuote line.
Proof.
  assert (H : (forall values current inQuote,
                  List.length (splitLoop values current inQuote line)
                  = List.length values + 1 + topCommas inQuote line) /\
              (forall values current inQuote,
                  List.length (splitLoop values current inQuote (tl line))
                  = List.length values + 1 + topCommas inQuote (tl line))).
  { induction line as [|c rest [IH1 IH2]].
    - split; intros; simpl; rewrite length_app; simpl; lia.
    - split; [|exact IH1]. intros values current inQuote.
      simpl splitLoop. simpl topCommas.
      destruct (ch_eqb c quote) eqn:Q.
      + destruct rest as [|d rest'].
        * rewrite IH1. reflexivity.
        * destruct (ch_eqb d quote) eqn:Q'.
          -- simpl tl in IH2. rewrite IH2. simpl topCommas. rewrite Q'.
             rewrite negb_involutive. reflexivity.
          -- rewrite IH1. reflexivity.
      + destruct (ch_eqb c comma && negb inQuote).
        * rewrite IH1, length_app. simpl. lia.
        * rewrite IH1. reflexivity. }
  exact (proj1 H).
Qed.

Lemma splitLine_length (line : jsstring) :
  List.length (splitLine line) = S (topCommas false line).
Proof.
  unfold splitLine. rewrite length_map, splitLoop_length. reflexivity.
Qed.

Lemma parseStep_blank (st : parseState) (l : jsstring) :
  truthy (trim l) = false -> parseStep st l = st.
Proof. intros H. unfold parseStep. rewrite H. reflexivity. Qed.

Lemma parse_rows (H : list jsstring) (lines : list jsstring) :
  forall R,
    fold_left parseStep lines
      {| headerFound := true; headers := H; result := R |}
    = {| headerFound := true; headers := H;
         result := R ++ map (fun l => fillRow (splitLine l) 0 H [])
                            (filter truthy (map trim lines)) |}.
Proof.
  induction lines as [|l lines IH]; intros R; simpl.
  - rewrite app_nil_r. reflexivity.
  - destruct (truthy (trim l)) eqn:T.
    + unfold parseStep at 2. rewrite T. cbn [negb headerFound headers result].
      rewrite splitLine_length. cbn [Nat.eqb negb].
      rewrite IH. simpl. rewrite <- app_assoc. reflexivity.
    + rewrite parseStep_blank by assumption. apply IH.
Qed.

Lemma parse_header (lines : list jsstring) :
  fold_left parseStep lines
    {| headerFound := false; headers := []; result := [] |}
  = match filter truthy (map trim lines) with
    | [] => {| headerFound := false; headers := []; result := [] |}
    | h :: ls =>
        {| headerFound := true; headers := splitLine h;
           result := map (fun l => fillRow (splitLine l) 0 (splitLine h) []) ls |}
    end.
Proof.
  induction lines as [|l lines IH]; simpl; [reflexivity|].
  destruct (truthy (trim l)) eqn:T.
  - unfold parseStep at 2. rewrite T. cbn [negb headerFound headers result app].
    rewrite parse_rows. reflexivity.
  - rewrite parseStep_blank by assumption. apply IH.
Qed.

(** The parser, line by line: the first non-blank line gives the header
    sequence, every later non-blank line one row. *)
Lemma parseCSV_spec (text : jsstring) :
  parseCSV text
  = match nonBlankLines text with
    | [] => {| data := []; fields := [] |}
    | h :: ls => {| data := map (rowOf h) ls; fields := splitLine h |}
    end.
Proof.
  unfold parseCSV, nonBlankLines. rewrite parse_header.
  destruct (filter truthy (map trim (splitLines [] text))); reflexivity.
Qed.

Section RowFacts.
Variable V : Type.

Lemma get_set_same (k : jsstring) (v : V) (o : obj V) :
  get_prop k (set_prop k v o) = Some v.
Proof.
  induction o as [|[k' v'] o IH]; simpl.
  - rewrite str_eqb_refl. reflexivity.
  - destruct (str_eqb k k') eqn:E; simpl; rewrite E; auto.
Qed.

Lemma get_set_other (k k' : jsstring) (v : V) (o : obj V) :
  k <> k' -> get_prop k (set_prop k' v o) = get_prop k o.
Proof.
  intros N. induction o as [|[k0 v0] o IH]; simpl.
  - apply str_eqb_neq in N. rewrite N. reflexivity.
  - destruct (str_eqb k' k0) eqn:E; simpl.
    + apply str_eqb_eq in E; subst k0.
      apply str_eqb_neq in N. rewrite N. reflexivity.
    + rewrite IH. reflexivity.
Qed.

Lemma keys_set_prop (k : jsstring) (v : V) (o : obj V) :
  map fst (set_prop k v o)
  = if existsb (str_eqb k) (map fst o) then map fst o else map fst o ++ [k].
Proof.
  induction o as [|[k' v'] o IH]; simpl; [reflexivity|].
  destruct (str_eqb k k') eqn:E; simpl; [reflexivity|].
  rewrite IH. destruct (existsb (str_eqb k) (map fst o)); reflexivity.
Qed.

Lemma In_keys_set_prop (h k : jsstring) (v : V) (o : obj V) :
  In h (map fst (set_prop k v o)) <-> h = k \/ In h (map fst o).
Proof.
  rewrite keys_set_prop.
  destruct (existsb (str_eqb k) (map fst o)) eqn:E.
  - apply existsb_exists in E. destruct E as (x & Hx & Ex).
    apply str_eqb_eq in Ex; subst x. intuition congruence.
  - rewrite in_app_iff. simpl. intuition congruence.
Qed.

Lemma NoDup_keys_set_prop (k : jsstring) (v : V) (o : obj V) :
  NoDup (map fst o) -> NoDup (map fst (set_prop k v o)).
Proof.
  intros ND. rewrite keys_set_prop.
  destruct (existsb (str_eqb k) (map fst o)) eqn:E; [assumption|].
  apply NoDup_app; [assumption | .. ].
  - constructor; [intros [] | constructor].
  - intros x Hx [->|[]].
    assert (T : existsb (str_eqb x) (map fst o) = true)
      by (apply existsb_exists; exists x; split; [assumption | apply str_eqb_refl]).
    congruence.
Qed.

End RowFacts.

Lemma get_setField_same (h v : jsstring) (r : row) :
  h <> js "__proto__" -> get_prop h (setField h v r) = Some v.
Proof.
  intros N. unfold setField. apply str_eqb_neq in N. rewrite N.
  apply get_set_same.
Qed.

Lemma get_setField_other (k h v : jsstring) (r : row) :
  k <> h -> get_prop k (setField h v r) = get_prop k r.
Proof.
  intros N. unfold setField. destruct (str_eqb h (js "__proto__"));
    [reflexivity | apply get_set_other, N].
Qed.

Lemma get_setField_proto (h v : jsstring) (r : row) :
  get_prop (js "__proto__") (setField h v r) = get_prop (js "__proto__") r.
Proof.
  unfold setField. destruct (str_eqb h (js "__proto__")) eqn:E;
    [reflexivity|].
  apply get_set_other. intros X. subst h. rewrite str_eqb_refl in E.
  discriminate.
Qed.

Lemma In_keys_setField (h k v : jsstring) (r : row) :
  In h (map fst (setField k v r))
  <-> (h = k /\ k <> js "__proto__") \/ In h (map fst r).
Proof.
  unfold setField. destruct (str_eqb k (js "__proto__")) eqn:E.
  - apply str_eqb_eq in E. intuition congruence.
  - apply str_eqb_neq in E. rewrite In_keys_set_prop. intuition congruence.
Qed.

Lemma NoDup_keys_setField (k v : jsstring) (r : row) :
  NoDup (map fst r) -> NoDup (map fst (setField k v r)).
Proof.
  intros ND. unfold setField. destruct (str_eqb k (js "__proto__"));
    [exact ND | apply NoDup_keys_set_prop, ND].
Qed.

Lemma fillRow_get_notin (values : list jsstring) (h : jsstring)
  (hs : list jsstring) :
  ~ In h hs ->
  forall i r, get_prop h (fillRow values i hs r) = get_prop h r.
Proof.
  induction hs as [|h0 hs IH]; intros N i r; simpl; [reflexivity|].
  rewrite IH by (intro; apply N; right; assumption).
  apply get_setField_other. intro; subst; apply N; left; reflexivity.
Qed.

(** No header gives a row the entry [__proto__]. *)
Lemma fillRow_get_proto (values : list jsstring) (hs : list jsstring) :
  forall i r,
    get_prop (js "__proto__") (fillRow values i hs r)
    = get_prop (js "__proto__") r.
Proof.
  induction hs as [|h0 hs IH]; intros i r; simpl; [reflexivity|].
  rewrite IH. apply get_setField_proto.
Qed.

Lemma fillRow_get_last (values : list jsstring) (h : jsstring)
  (hs : list jsstring) :
  h <> js "__proto__" ->
  forall j i r,
    nth_error hs j = Some h ->
    (forall j', j < j' -> nth_error hs j' <> Some h) ->
    get_prop h (fillRow values i hs r) = Some (valueAt values (i + j)).
Proof.
  intros P. induction hs as [|h0 hs IH]; intros j i r Hj Hlast.
  - destruct j; discriminate.
  - destruct j as [|j]; simpl in Hj |- *.
    + inversion Hj; subst h0.
      rewrite fillRow_get_notin.
      * rewrite (get_setField_same _ _ P), Nat.add_0_r. reflexivity.
      * intros Hin. destruct (In_nth_error _ _ Hin) as [n Hn].
        apply (Hlast (S n)); [lia | exact Hn].
    + rewrite (IH j (S i)); [f_equal; f_equal; lia | assumption |].
      intros j' Hlt. apply (Hlast (S j')). lia.
Qed.

Lemma fillRow_keys (values : list jsstring) (hs : list jsstring) :
  forall i r,
    NoDup (map fst r) ->
    NoDup (map fst (fillRow values i hs r)) /\
    forall h, In h (map fst (fillRow values i hs r))
              <-> (In h hs /\ h <> js "__proto__") \/ In h (map fst r).
Proof.
  induction hs as [|h0 hs IH]; intros i r ND; simpl.
  - split; [assumption | intros h; tauto].
  - destruct (IH (S i) (setField h0 (valueAt values i) r)
                 (@NoDup_keys_setField _ _ r ND)) as [ND' Hin].
    split; [assumption|]. intros h. rewrite Hin, In_keys_setField.
    intuition (subst; auto).
Qed.

(** C10, at a failing input.  The header line bears the name [__proto__]
    twice.  The header sequence lists it twice, but the row of the data
    line [A,x,y] has the entry of [Site] alone: under [__proto__] it
    stores neither the value of the last column nor any other. *)
Theorem C10_proto_columns_not_stored :
  let text := js "Site,__proto__,__proto__" ++ [LF] ++ js "A,x,y" in
  fields (parseCSV text) = [js "Site"; js "__proto__"; js "__proto__"] /\
  data (parseCSV text) = [[(js "Site", js "A")]] /\
  map (get_prop (js "__proto__")) (data (parseCSV text)) = [None].
Proof. vm_compute. repeat split. Qed.

(** X23.  Duplicate header names.  The header sequence is the split of
    the header line, so a name borne by several columns is listed once
    per column.  Every data row has exactly one entry per distinct header
    name other than [__proto__], and the entry of a name holds the value
    of the last column that bears the name (the empty string when the
    line has no such column): the values of earlier columns of the same
    name are not in the row.  No row has an entry [__proto__]. *)
Theorem parseCSV_duplicate_headers_last_wins (text hdr : jsstring)
  (lines : list jsstring) :
  nonBlankLines text = hdr :: lines ->
  fields (parseCSV text) = splitLine hdr /\
  Forall2
    (fun line r =>
       NoDup (map fst r) /\
       (forall name, In name (map fst r)
                     <-> In name (splitLine hdr) /\ name <> js "__proto__") /\
       (forall j name,
          name <> js "__proto__" ->
          nth_error (splitLine hdr) j = Some name ->
          (forall j', j < j' -> nth_error (splitLine hdr) j' <> Some name) ->
          get_prop name r = Some (valueAt (splitLine line) j)))
    lines (data (parseCSV text)).
Proof.
  intros E. rewrite parseCSV_spec, E. cbn [fields data].
  split; [reflexivity|].
  clear E. induction lines as [|l ls IH]; simpl; constructor; [|exact IH].
  unfold rowOf.
  destruct (@fillRow_keys (splitLine l) (splitLine hdr) 0 [] (NoDup_nil _))
    as [ND Hin].
  split; [exact ND|]. split.
  - intros name. rewrite Hin. simpl. tauto.
  - intros j name P Hj Hlast.
    rewrite (@fillRow_get_last (splitLine l) name (splitLine hdr) P j 0 []
               Hj Hlast).
    reflexivity.
Qed.

Lemma parseCSV_duplicate_headers_last_wins_witness :
  let text := js "a,b,a" ++ [LF] ++ js "1,2,3" in
  fields (parseCSV text) = [js "a"; js "b"; js "a"] /\
  data (parseCSV text) = [[(js "a", js "3"); (js "b", js "2")]] /\
  Forall2
    (fun line r =>
       NoDup (map fst r) /\
       (forall name, In name (map fst r)
                     <-> In name (splitLine (js "a,b,a"))
                         /\ name <> js "__proto__") /\
       (forall j name,
          name <> js "__proto__" ->
          nth_error (splitLine (js "a,b,a")) j = Some name ->
          (forall j', j < j' -> nth_error (splitLine (js "a,b,a")) j' <> Some name) ->
          get_prop name r = Some (valueAt (splitLine line) j)))
    [js "1,2,3"] (data (parseCSV text)).
Proof.
  intros text. split; [reflexivity|]. split; [reflexivity|].
  exact (proj2 (@parseCSV_duplicate_headers_last_wins text (js "a,b,a")
                  [js "1,2,3"] eq_refl)).
Defined.

(** ** Header-only input *)

Section HeaderOnly.
Context {RT : JsRuntime}.

Lemma pct_no_sites (n : nat) : pct n 0 = num_of_Z 0.
Proof. reflexivity. Qed.

Lemma siteAgg_no_rows (rs : roles) :
  siteAgg rs [] = Some {| sites := []; byName := [] |}.
Proof. unfold siteAgg. destruct (siteKey rs); reflexivity. Qed.

(** C8.  A CSV text with a header line and no data line loads without
    error and yields no row, no site aggregate, [totalSites = 0] and
    [publicPct = everyonePct = 0].  The percentages are the literal [0]
    of the guard on [totalSites] whatever the run-time's division does:
    no quotient by [totalSites] is part of the result. *)
Theorem C8_header_only_csv (text hdr : jsstring) (f : filters)
  (stalePeriod : jsstring) :
  nonBlankLines text = [hdr] ->
  exists d,
    loadCSV text f stalePeriod = Some d /\
    rows d = [] /\
    sites (agg d) = [] /\
    totalSites (summ d) = 0 /\
    publicPct (summ d) = num_of_Z 0 /\
    everyonePct (summ d) = num_of_Z 0.
Proof.
  intros E. unfold loadCSV.
  rewrite parseCSV_spec, E. cbn [data fields map filteredRows filter].
  rewrite siteAgg_no_rows. eexists. split; [reflexivity|].
  cbn [rows agg summ sites]. split; [reflexivity|]. split; [reflexivity|].
  unfold summary. cbn [totalSites publicPct everyonePct sites].
  cbn [List.length filter]. repeat split; reflexivity.
Qed.

End HeaderOnly.

Lemma C8_witness :
  exists d,
    loadCSV (RT := Exact.runtime) (js "Site,Files" ++ [LF])
      {| fileTypeFilter := js "All"; riskFilter := js "All";
         categoryFilter := js "All" |} (js "6months") = Some d /\
    rows d = [] /\
    sites (agg d) = [] /\
    totalSites (summ d) = 0 /\
    publicPct (summ d) = num_of_Z 0 /\
    everyonePct (summ d) = num_of_Z 0.
Proof.
  exact (@C8_header_only_csv Exact.runtime (js "Site,Files" ++ [LF])
           (js "Site,Files") _ (js "6months") eq_refl).
Defined.

(** ** Field splitting *)

(** What [splitLine] accumulates for the quoted form of [f]: [f] itself,
    except that the two delimiters of an empty field read as one escaped
    quote. *)
Lemma splitLoop_quoted_tail (f : jsstring) :
  forall values current rest,
    hd_error rest <> Some quote ->
    splitLoop values current true (doubleQuotes f ++ quote :: rest)
    = splitLoop values (current ++ f) false rest.
Proof.
  induction f as [|c f IH]; intros values current rest Hrest.
  - rewrite app_nil_r. simpl.
    destruct rest as [|d rest']; [reflexivity|].
    destruct (ch_eqb d quote) eqn:Q; [|reflexivity].
    apply ch_eqb_eq in Q; subst d. exfalso; apply Hrest; reflexivity.
  - unfold doubleQuotes. simpl flat_map. fold (doubleQuotes f).
    destruct (ch_eqb c quote) eqn:Q.
    + apply ch_eqb_eq in Q; subst c.
      change (([quote; quote] ++ doubleQuotes f) ++ quote :: rest)
        with (quote :: quote :: doubleQuotes f ++ quote :: rest).
      simpl splitLoop. rewrite IH by assumption.
      rewrite <- app_assoc. reflexivity.
    + change (([c] ++ doubleQuotes f) ++ quote :: rest)
        with (c :: doubleQuotes f ++ quote :: rest).
      simpl splitLoop. rewrite Q, andb_false_r.
      rewrite IH by assumption. rewrite <- app_assoc. reflexivity.
Qed.

Lemma splitLoop_quoted_field (f : jsstring) :
  forall values rest,
    hd_error f <> Some quote ->
    hd_error rest <> Some quote ->
    splitLoop values [] false (quoteField f ++ rest)
    = splitLoop values (match f with [] => [quote] | _ => f end) false rest.
Proof.
  intros values rest Hf Hrest. unfold quoteField.
  destruct f as [|c f].
  - reflexivity.
  - assert (Q : ch_eqb c quote = false).
    { apply ch_eqb_neq. intros ->. apply Hf; reflexivity. }
    rewrite <- !app_assoc.
    change ([quote] ++ doubleQuotes (c :: f) ++ [quote] ++ rest)
      with (quote :: doubleQuotes (c :: f) ++ quote :: rest).
    assert (E : exists d tl, doubleQuotes (c :: f) ++ quote :: rest = d :: tl
                             /\ ch_eqb d quote = false).
    { unfold doubleQuotes. simpl flat_map. rewrite Q.
      eexists; eexists; split; [reflexivity | exact Q]. }
    destruct E as (d & tl & E & Qd).
    change (splitLoop values [] false
              (quote :: doubleQuotes (c :: f) ++ quote :: rest))
      with (match doubleQuotes (c :: f) ++ quote :: rest with
            | d :: rest' =>
                if ch_eqb d quote
                then splitLoop values ([] ++ [quote]) false rest'
                else splitLoop values [] (negb false)
                       (doubleQuotes (c :: f) ++ quote :: rest)
            | [] => splitLoop values [] (negb false)
                      (doubleQuotes (c :: f) ++ quote :: rest)
            end).
    rewrite E, Qd, <- E.
    apply (@splitLoop_quoted_tail (c :: f) values [] rest Hrest).
Qed.

Lemma splitLoop_quoted_fields (fs : list jsstring) :
  fs <> [] ->
  Forall (fun f => hd_error f <> Some quote) fs ->
  forall values,
    splitLoop values [] false (join [comma] (map quoteField fs))
    = values ++ map (fun f => trim match f with [] => [quote] | _ => f end) fs.
Proof.
  induction fs as [|f fs IH]; intros Hne Hall values; [contradiction|].
  inversion Hall as [|? ? Hf Hfs]; subst.
  destruct fs as [|g fs].
  - simpl join. rewrite <- (app_nil_r (quoteField f)).
    rewrite splitLoop_quoted_field by (assumption || discriminate).
    reflexivity.
  - change (join [comma] (map quoteField (f :: g :: fs)))
      with (quoteField f ++ comma :: join [comma] (map quoteField (g :: fs))).
    rewrite splitLoop_quoted_field by (assumption || discriminate).
    simpl splitLoop. rewrite IH by (assumption || discriminate).
    rewrite <- app_assoc. reflexivity.
Qed.

Lemma trimStart_snoc (c : ascii) (l : jsstring) :
  isWhiteSpace c = false -> exists l', trimStart (l ++ [c]) = l' ++ [c].
Proof.
  intros W. induction l as [|x l IH]; simpl.
  - rewrite W. exists []. reflexivity.
  - destruct (isWhiteSpace x); [exact IH | exists (x :: l); reflexivity].
Qed.

Lemma trim_head_quote (f : jsstring) :
  hd_error f = Some quote -> hd_error (trim f) = Some quote.
Proof.
  destruct f as [|c f]; [discriminate|]. simpl hd_error. intros E.
  inversion E; subst c. unfold trim, trimEnd.
  change (trimStart (quote :: f)) with (quote :: f).
  change (rev (quote :: f)) with (rev f ++ [quote]).
  destruct (trimStart_snoc quote (rev f) eq_refl) as [l' ->].
  rewrite rev_app_distr. reflexivity.
Qed.

Lemma stripQuotes_plain (s : jsstring) :
  hd_error s <> Some quote -> hd_error (rev s) <> Some quote ->
  stripQuotes s = s.
Proof.
  intros H1 H2. unfold stripQuotes, stripEndQuote.
  assert (S1 : forall t, hd_error t <> Some quote -> stripStartQuote t = t).
  { intros [|c t] H; [reflexivity|]. simpl.
    destruct (ch_eqb c quote) eqn:Q; [|reflexivity].
    apply ch_eqb_eq in Q; subst. exfalso; apply H; reflexivity. }
  rewrite (S1 s H1), (S1 (rev s) H2). apply rev_involutive.
Qed.

Lemma field_value_plain (f : jsstring) :
  plainEnds f ->
  stripQuotes (trim match f with [] => [quote] | _ => f end) = trim f.
Proof.
  intros [H1 H2]. destruct f as [|c f]; [reflexivity|].
  apply stripQuotes_plain; assumption.
Qed.

(** ** Sorting *)

Section SortFacts.
Variable A : Type.
Variable cmp : A -> A -> comparison.

Lemma sortInsert_perm (x : A) (l : list A) :
  Permutation (sortInsert cmp x l) (x :: l).
Proof.
  induction l as [|y l IH]; simpl; [reflexivity|].
  destruct (cmp x y); try reflexivity.
  rewrite IH. apply perm_swap.
Qed.

Lemma sortWith_perm (l : list A) : Permutation (sortWith cmp l) l.
Proof.
  induction l as [|x l IH]; simpl; [reflexivity|].
  rewrite sortInsert_perm, IH. reflexivity.
Qed.

Variable le : A -> A -> Prop.
Hypothesis le_trans : forall x y z, le x y -> le y z -> le x z.
Hypothesis cmp_le : forall x y, cmp x y <> Gt -> le x y.
Hypothesis cmp_gt : forall x y, cmp x y = Gt -> le y x.

Lemma sortInsert_sorted (x : A) (l : list A) :
  StronglySorted le l -> StronglySorted le (sortInsert cmp x l).
Proof.
  induction 1 as [|y l Hs IH Hall]; simpl.
  - constructor; constructor.
  - destruct (cmp x y) eqn:C.
    + constructor; [constructor; assumption|].
      assert (L : le x y) by (apply cmp_le; congruence).
      constructor; [exact L|].
      eapply Forall_impl; [|exact Hall]. intros z Hz. eauto.
    + constructor; [constructor; assumption|].
      assert (L : le x y) by (apply cmp_le; congruence).
      constructor; [exact L|].
      eapply Forall_impl; [|exact Hall]. intros z Hz. eauto.
    + constructor; [exact IH|].
      eapply Permutation_Forall.
      * symmetry. apply sortInsert_perm.
      * constructor; [apply cmp_gt; exact C | exact Hall].
Qed.

Lemma sortWith_sorted (l : list A) : StronglySorted le (sortWith cmp l).
Proof.
  induction l as [|x l IH]; simpl; [constructor | apply sortInsert_sorted, IH].
Qed.

End SortFacts.

Lemma StronglySorted_split (A : Type) (le : A -> A -> Prop)
  (l1 : list A) (x : A) (l2 : list A) :
  StronglySorted le (l1 ++ x :: l2) -> Forall (le x) l2.
Proof.
  induction l1 as [|y l1 IH]; simpl; intros H;
    apply StronglySorted_inv in H; destruct H as [H1 H2]; auto.
Qed.

(** ** Site aggregation *)

Section Aggregation.
Context {RT : JsRuntime}.

Lemma mapPush_keys (s : jsstring) (r : row) (m : list (jsstring * list row)) :
  map fst (mapPush s r m)
  = if existsb (str_eqb s) (map fst m) then map fst m else map fst m ++ [s].
Proof.
  induction m as [|[s' rs] m IH]; simpl; [reflexivity|].
  destruct (str_eqb s s') eqn:E; simpl; [reflexivity|].
  rewrite IH. destruct (existsb (str_eqb s) (map fst m)); reflexivity.
Qed.

Lemma mapPush_NoDup (s : jsstring) (r : row) (m : list (jsstring * list row)) :
  NoDup (map fst m) -> NoDup (map fst (mapPush s r m)).
Proof.
  intros ND. rewrite mapPush_keys.
  destruct (existsb (str_eqb s) (map fst m)) eqn:E; [assumption|].
  apply NoDup_app; [assumption | constructor; [intros [] | constructor] |].
  intros x Hx [->|[]].
  assert (T : existsb (str_eqb x) (map fst m) = true)
    by (apply existsb_exists; exists x; split; [assumption | apply str_eqb_refl]).
  congruence.
Qed.

Lemma mapPush_perm (s : jsstring) (r : row) (m : list (jsstring * list row)) :
  Permutation (List.concat (map snd (mapPush s r m))) (List.concat (map snd m) ++ [r]).
Proof.
  induction m as [|[s' rs] m IH]; simpl; [reflexivity|].
  destruct (str_eqb s s'); simpl.
  - rewrite <- !app_assoc. apply Permutation_app_head.
    apply Permutation_app_comm.
  - rewrite IH, app_assoc. reflexivity.
Qed.

Lemma mapPush_members (key s : jsstring) (r : row)
  (m : list (jsstring * list row)) :
  siteOf key r = Some s ->
  (forall e x, In e m -> In x (snd e) -> siteOf key x = Some (fst e)) ->
  forall e x, In e (mapPush s r m) -> In x (snd e) ->
              siteOf key x = Some (fst e).
Proof.
  intros Hs. induction m as [|[s' rs] m IH]; simpl; intros Hm e x He Hx.
  - destruct He as [<-|[]]. simpl in *. destruct Hx as [<-|[]]. exact Hs.
  - destruct (str_eqb s s') eqn:E.
    + apply str_eqb_eq in E; subst s'.
      destruct He as [<-|He]; [|apply (Hm e x); auto].
      simpl in *. apply in_app_or in Hx. destruct Hx as [Hx|[<-|[]]].
      * apply (Hm (s, rs) x); auto.
      * exact Hs.
    + destruct He as [<-|He]; [apply (Hm (s', rs) x); auto|].
      apply IH; auto.
Qed.

(** The site read of a row throws exactly when it reaches a member of
    [Object.prototype]. *)
Lemma siteOf_None (key : jsstring) (r : row) :
  siteOf key r = None <-> get_prop key r = None /\ protoMember key = true.
Proof.
  unfold siteOf. destruct (get_prop key r) as [v|].
  - split; [discriminate | intros [X _]; discriminate].
  - destruct (protoMember key); split; try tauto; try discriminate.
    intros [_ X]. discriminate.
Qed.

Lemma siteOf_plainRead (key : jsstring) (r : row) :
  plainRead key r <-> siteOf key r <> None.
Proof.
  rewrite siteOf_None. unfold plainRead.
  destruct (get_prop key r) as [v|]; destruct (protoMember key);
    split; intros H.
  - intros [X _]. discriminate.
  - left. discriminate.
  - intros [X _]. discriminate.
  - left. discriminate.
  - destruct H as [H|H]; [congruence | discriminate].
  - exfalso. apply H. split; reflexivity.
  - intros [_ X]. discriminate.
  - right. reflexivity.
Qed.

(** The grouping loop, when it returns, has kept the site names
    distinct, kept every row read so far once, and filed each row under
    its own site name. *)
Lemma groupLoop_invariant (key : jsstring) (rows0 : list row) :
  forall m m',
    groupLoop key rows0 m = Some m' ->
    NoDup (map fst m) ->
    (forall e x, In e m -> In x (snd e) -> siteOf key x = Some (fst e)) ->
    NoDup (map fst m') /\
    (forall e x, In e m' -> In x (snd e) -> siteOf key x = Some (fst e)) /\
    Permutation (List.concat (map snd m')) (List.concat (map snd m) ++ rows0).
Proof.
  induction rows0 as [|r rows0 IH]; intros m m' G ND Hm; simpl in G.
  - inversion G; subst m'. rewrite app_nil_r. auto.
  - destruct (siteOf key r) as [s|] eqn:S; [|discriminate].
    destruct (IH (mapPush s r m) m' G) as (ND' & Hm' & P);
      [apply mapPush_NoDup; assumption
      | apply mapPush_members; assumption |].
    repeat split; auto.
    rewrite P, mapPush_perm, <- app_assoc. reflexivity.
Qed.

(** The loop returns when no site read throws, and only then. *)
Lemma groupLoop_returns (key : jsstring) (rows0 : list row) :
  forall m,
    (exists m', groupLoop key rows0 m = Some m')
    <-> Forall (plainRead key) rows0.
Proof.
  induction rows0 as [|r rows0 IH]; intros m; simpl.
  - split; [constructor | exists m; reflexivity].
  - destruct (siteOf key r) as [s|] eqn:S.
    + rewrite IH. split.
      * intros F. constructor; [|exact F].
        apply siteOf_plainRead. congruence.
      * intros F. inversion F; assumption.
    + split; [intros [m' X]; discriminate|].
      intros F. inversion F as [|? ? H _]; subst.
      apply siteOf_plainRead in H. contradiction.
Qed.

Lemma groupRows_spec (key : jsstring) (rows0 : list row)
  (m : list (jsstring * list row)) :
  groupRows key rows0 = Some m ->
  NoDup (map fst m) /\
  (forall e x, In e m -> In x (snd e) -> siteOf key x = Some (fst e)) /\
  Permutation (List.concat (map snd m)) rows0.
Proof.
  intros G. apply (@groupLoop_invariant key rows0 [] m G).
  - constructor.
  - intros e x [].
Qed.

Lemma buildSite_name (rs : roles) (e : jsstring * list row) :
  siteName (buildSite rs e) = fst e.
Proof. destruct e; reflexivity. Qed.

Lemma buildSite_rawRows (rs : roles) (e : jsstring * list row) :
  rawRows (buildSite rs e) = snd e.
Proof. destruct e; reflexivity. Qed.

Lemma buildSite_files (rs : roles) (e : jsstring * list row) :
  truthyOpt (fileCountKey rs) = false ->
  files (buildSite rs e) = num_of_nat (List.length (rawRows (buildSite rs e))).
Proof.
  intros H. destruct e as [name siteRows]. unfold buildSite.
  cbn [files rawRows]. destruct (fileCountKey rs) as [k|]; [|reflexivity].
  simpl in H. rewrite H. reflexivity.
Qed.

Lemma siteOf_cases (key : jsstring) (r : row) :
  siteOf key r
  = match get_prop key r with
    | Some (c :: v) => Some (trim (c :: v))
    | Some [] => Some (js "(unknown)")
    | None => if protoMember key then None else Some (js "(unknown)")
    end.
Proof.
  unfold siteOf. destruct (get_prop key r) as [[|c v]|]; reflexivity.
Qed.

(** The aggregates of a row list under a truthy site key, when the
    aggregation returns. *)
Lemma siteAgg_sites (rs : roles) (filtered0 : list row) (key : jsstring)
  (ag : siteAggResult) :
  siteKey rs = Some key -> truthy key = true ->
  siteAgg rs filtered0 = Some ag ->
  exists m, groupRows key filtered0 = Some m /\
            Permutation (sites ag) (map (buildSite rs) m).
Proof.
  intros K T A. unfold siteAgg in A. rewrite K, T in A.
  destruct filtered0 as [|r rows0].
  - inversion A; subst ag. exists []. split; reflexivity.
  - destruct (groupRows key (r :: rows0)) as [m|]; [|discriminate].
    inversion A; subst ag. exists m. split; [reflexivity|].
    cbn [sites]. apply sortWith_perm.
Qed.

(** The aggregation returns when no site read throws, and only then. *)
Lemma siteAgg_returns (rs : roles) (filtered0 : list row) (key : jsstring) :
  siteKey rs = Some key -> truthy key = true ->
  ((exists ag, siteAgg rs filtered0 = Some ag)
   <-> Forall (plainRead key) filtered0).
Proof.
  intros K T. unfold siteAgg. rewrite K, T.
  destruct filtered0 as [|r rows0].
  - split; [constructor | eexists; reflexivity].
  - rewrite <- (groupLoop_returns key (r :: rows0) []).
    fold (groupRows key (r :: rows0)).
    destruct (groupRows key (r :: rows0)) as [m|].
    + split; intros _; eexists; reflexivity.
    + split; intros [x X]; discriminate.
Qed.

Lemma Permutation_concat_map (A B : Type) (f : A -> list B) (l l' : list A) :
  Permutation l l' -> Permutation (List.concat (map f l)) (List.concat (map f l')).
Proof.
  intros P. rewrite <- !flat_map_concat_map. apply Permutation_flat_map, P.
Qed.

Lemma NoDup_map_In_eq (A B : Type) (f : A -> B) (l : list A) (x y : A) :
  NoDup (map f l) -> In x l -> In y l -> f x = f y -> x = y.
Proof.
  induction l as [|a l IH]; simpl; intros ND Hx Hy E; [contradiction|].
  inversion ND as [|? ? Hn ND']; subst.
  destruct Hx as [->|Hx], Hy as [->|Hy]; auto.
  - exfalso. apply Hn. rewrite E. apply in_map, Hy.
  - exfalso. apply Hn. rewrite <- E. apply in_map, Hx.
Qed.

End Aggregation.

Section AggregationClaims.
Context {RT : JsRuntime}.

(** The aggregates under a truthy site key: a partition of the rows by
    site name. *)
Lemma siteAgg_partition (rs : roles) (filtered0 : list row) (key : jsstring)
  (ag : siteAggResult) :
  siteKey rs = Some key -> truthy key = true ->
  siteAgg rs filtered0 = Some ag ->
  let ss := sites ag in
  Permutation (List.concat (map rawRows ss)) filtered0 /\
  NoDup (map siteName ss) /\
  (forall s r, In s ss -> In r (rawRows s) ->
               siteOf key r = Some (siteName s)) /\
  (forall r, In r filtered0 -> exists s, In s ss /\ In r (rawRows s)) /\
  (truthyOpt (fileCountKey rs) = false ->
   map files ss = map (fun s => num_of_nat (List.length (rawRows s))) ss).
Proof.
  intros K T A ss.
  destruct (siteAgg_sites rs filtered0 K T A) as (m & G & P). fold ss in P.
  destruct (groupRows_spec key filtered0 G) as (ND & Hmem & Pm).
  assert (Praw : Permutation (List.concat (map rawRows ss)) filtered0).
  { rewrite (Permutation_concat_map rawRows P), map_map.
    rewrite (map_ext _ snd (buildSite_rawRows rs)). exact Pm. }
  split; [exact Praw|]. split; [|split; [|split]].
  - apply (@Permutation_NoDup _ (map fst m)); [|exact ND].
    rewrite (Permutation_map siteName P), map_map.
    rewrite (map_ext _ fst (buildSite_name rs)). reflexivity.
  - intros s r Hs Hr.
    apply (Permutation_in _ P) in Hs. apply in_map_iff in Hs.
    destruct Hs as (e & <- & He).
    rewrite buildSite_name. rewrite buildSite_rawRows in Hr.
    apply (Hmem e r He Hr).
  - intros r Hr.
    apply (Permutation_in _ (Permutation_sym Praw)) in Hr.
    apply in_concat in Hr. destruct Hr as (l & Hl & Hrl).
    apply in_map_iff in Hl. destruct Hl as (s & <- & Hs).
    exists s. split; assumption.
  - intros F. apply map_ext_in. intros s Hs.
    apply (Permutation_in _ P) in Hs. apply in_map_iff in Hs.
    destruct Hs as (e & <- & He). apply buildSite_files, F.
Qed.

(** C1, as the code has it.  With a site key that is a non-empty header
    name and that no row reads from [Object.prototype], the aggregation
    returns and its aggregates partition the filtered rows.  The
    [rawRows] lists together hold every filtered row once each; site
    names are pairwise distinct and a row lies in the aggregate of its
    own site name only, so in exactly one aggregate; the [rawRows]
    lengths sum to the number of filtered rows; and without a file-count
    role every [files] field is the length of its [rawRows], so the
    [files] fields sum to the same number. *)
Theorem C1_aggregates_partition_rows (rs : roles) (filtered0 : list row)
  (key : jsstring) :
  siteKey rs = Some key ->
  truthy key = true ->
  Forall (plainRead key) filtered0 ->
  exists ag,
    siteAgg rs filtered0 = Some ag /\
    let ss := sites ag in
    Permutation (List.concat (map rawRows ss)) filtered0 /\
    NoDup (map siteName ss) /\
    (forall r, In r filtered0 ->
               exists s, In s ss /\ In r (rawRows s) /\
                         forall s', In s' ss -> In r (rawRows s') -> s' = s) /\
    list_sum (map (fun s => List.length (rawRows s)) ss)
    = List.length filtered0 /\
    (truthyOpt (fileCountKey rs) = false ->
     map files ss = map (fun s => num_of_nat (List.length (rawRows s))) ss).
Proof.
  intros K T Plain.
  destruct (proj2 (siteAgg_returns rs filtered0 K T) Plain) as [ag A].
  exists ag. split; [exact A|]. intros ss.
  destruct (siteAgg_partition rs filtered0 K T A)
    as (Praw & NDs & Hkey & Hin & Hf).
  fold ss in Praw, NDs, Hkey, Hin, Hf.
  split; [exact Praw|]. split; [exact NDs|]. split; [|split; [|exact Hf]].
  - intros r Hr. destruct (Hin r Hr) as (s & Hs & Hrs).
    exists s. repeat split; auto.
    intros s' Hs' Hr'. apply (@NoDup_map_In_eq _ _ siteName ss s' s NDs Hs' Hs).
    pose proof (Hkey s' r Hs' Hr') as E1. pose proof (Hkey s r Hs Hrs) as E2.
    congruence.
  - rewrite <- (Permutation_length Praw), length_concat, map_map. reflexivity.
Qed.

End AggregationClaims.

Lemma C1_witness :
  let rs := updateColumnKeys [js "Site"; js "Size"] in
  let rows0 := [[(js "Site", js "A"); (js "Size", js "100")];
                [(js "Site", js "B"); (js "Size", js "7")];
                [(js "Site", js "A"); (js "Size", js "50")]] in
  exists ag,
    siteAgg (RT := Exact.runtime) rs rows0 = Some ag /\
    Permutation (List.concat (map rawRows (sites ag))) rows0 /\
    list_sum (map (fun s => List.length (rawRows s)) (sites ag)) = 3.
Proof.
  intros rs rows0.
  destruct (@C1_aggregates_partition_rows Exact.runtime rs rows0 (js "Site")
              eq_refl eq_refl) as (ag & A & H).
  - repeat constructor; right; reflexivity.
  - exists ag. split; [exact A|]. split; [exact (proj1 H)|].
    exact (proj1 (proj2 (proj2 (proj2 H)))).
Defined.

(** The claim as worded fails where the site role is the header with the
    empty name, the first header of a text without a site-like header:
    the guard of the aggregation reads the empty key as no site column,
    and the filtered row lies in no aggregate. *)
Lemma C1_counterexample :
  exists d,
    loadCSV (RT := Exact.runtime) (js ",Name" ++ [LF] ++ js "x,y")
      {| fileTypeFilter := js "All"; riskFilter := js "All";
         categoryFilter := js "All" |} (js "6months") = Some d /\
    siteKey (colKeys d) = Some [] /\
    filtered d = [[([], js "x"); (js "Name", js "y")]] /\
    List.length (sites (agg d)) = 0 /\
    ~ (forall r, In r (filtered d) ->
                 exists s, In s (sites (agg d)) /\ In r (rawRows s)) /\
    list_sum (map (fun s => List.length (rawRows s)) (sites (agg d)))
    <> List.length (filtered d).
Proof.
  eexists. split; [reflexivity|].
  split; [reflexivity|]. split; [reflexivity|]. split; [reflexivity|].
  split.
  - intros H. destruct (H _ (or_introl eq_refl)) as (s & [] & _).
  - discriminate.
Qed.

(** C2, at a failing input.  The data line holds a space between two
    escaped quotes; the parser reads the site value as one space.  The
    value is truthy, so the fallback does not apply, and it is trimmed
    afterwards: the row is grouped under the empty name and no aggregate
    is named ["(unknown)"]. *)
Theorem C2_blank_site_value_not_unknown :
  let text := js "Site" ++ [LF] ++ [quote; quote; space; quote; quote] in
  exists d,
    loadCSV (RT := Exact.runtime) text
      {| fileTypeFilter := js "All"; riskFilter := js "All";
         categoryFilter := js "All" |} (js "6months") = Some d /\
    rows d = [[(js "Site", [space])]] /\
    trim [space] = [] /\
    map siteName (sites (agg d)) = [[]] /\
    map siteName (sites (agg d)) <> [js "(unknown)"].
Proof.
  eexists. split; [reflexivity|].
  split; [reflexivity|]. split; [reflexivity|]. split; [reflexivity|].
  discriminate.
Qed.

(** ** Site table *)

Section TableFacts.
Context {RT : JsRuntime}.

Lemma tableCompare_last (srt : tableSort) (a b : site) :
  key srt = js "last" ->
  tableCompare srt a b
  = ((if str_eqb (dir srt) (js "asc") then 1 else -1)
     * (timeOf a - timeOf b) ?= 0)%Z.
Proof. intros K. unfold tableCompare. rewrite K. reflexivity. Qed.

Lemma filteredSites_time_sorted (ag : siteAggResult) (flt : tableFilter)
  (srt : tableSort) :
  key srt = js "last" ->
  StronglySorted (timeOrder srt) (filteredSites ag flt srt).
Proof.
  intros K. unfold filteredSites. apply sortWith_sorted.
  - unfold timeOrder. intros x y z. destruct (str_eqb (dir srt) (js "asc")); lia.
  - intros x y. rewrite (tableCompare_last srt x y K). unfold timeOrder.
    destruct (str_eqb (dir srt) (js "asc")); intros H;
      match type of H with
      | ((?e ?= 0)%Z <> Gt) => destruct (Z.compare_spec e 0); try lia; congruence
      end.
  - intros x y. rewrite (tableCompare_last srt x y K). unfold timeOrder.
    destruct (str_eqb (dir srt) (js "asc")); intros H;
      apply Z.compare_gt_iff in H; lia.
Qed.

(** C7, as the code has it.  Sorting the site table by last-modified
    orders a site without a date as if its time value were 0, the epoch,
    which is not the earliest time value.  Ascending, every site is
    followed only by sites of an equal or later time, so a site without a
    date comes before every site dated after the epoch; descending, every
    site is followed only by sites of an equal or earlier time, so a site
    without a date comes after every site dated after the epoch. *)
Theorem C7_missing_date_sorts_as_epoch (ag : siteAggResult)
  (flt : tableFilter) (srt : tableSort) (l1 l2 : list site) (x y : site) :
  key srt = js "last" ->
  filteredSites ag flt srt = l1 ++ x :: l2 ->
  In y l2 ->
  (if str_eqb (dir srt) (js "asc")
   then (timeOf x <= timeOf y)%Z else (timeOf y <= timeOf x)%Z) /\
  (forall t, str_eqb (dir srt) (js "asc") = true ->
             lastModified x = Some t -> lastModified y = None -> (t <= 0)%Z) /\
  (forall t, str_eqb (dir srt) (js "asc") = false ->
             lastModified x = None -> lastModified y = Some t -> (t <= 0)%Z).
Proof.
  intros K E Hy.
  pose proof (filteredSites_time_sorted ag flt srt K) as S. rewrite E in S.
  apply StronglySorted_split in S. rewrite Forall_forall in S.
  specialize (S y Hy). unfold timeOrder in S.
  split; [exact S|]. unfold timeOf in S.
  split; intros t A Hx Hy'; rewrite A, Hx, Hy' in S; exact S.
Qed.

End TableFacts.

Lemma C7_witness :
  let undated :=
    {| siteName := js "B"; displayName := js "B";
       files := @num_of_Z Exact.runtime 1; totalKB := num_of_Z 0;
       totalMB := num_of_Z 0; totalGB := num_of_Z 0; lastModified := None;
       sharingLevel := js "Only Org"; sharingRank := 1;
       visibleEveryone := false; visibleExternal := false; rawRows := [] |} in
  let dated :=
    {| siteName := js "C"; displayName := js "C";
       files := @num_of_Z Exact.runtime 1; totalKB := num_of_Z 0;
       totalMB := num_of_Z 0; totalGB := num_of_Z 0;
       lastModified := Some 1714953600000%Z;
       sharingLevel := js "Only Org"; sharingRank := 1;
       visibleEveryone := false; visibleExternal := false; rawRows := [] |} in
  (timeOf undated <= timeOf dated)%Z.
Proof.
  intros undated dated.
  exact (proj1 (@C7_missing_date_sorts_as_epoch Exact.runtime
                  {| sites := [dated; undated]; byName := [] |}
                  {| search := []; sharingSel := js "all" |}
                  {| key := js "last"; dir := js "asc" |}
                  [] [dated] undated dated eq_refl eq_refl (or_introl eq_refl))).
Defined.

(** The claim as worded fails on a site dated before 1970: ascending, it
    precedes the site without a date; descending, it follows it. *)
Lemma C7_counterexample :
  let text := js "Site,Modified" ++ [LF] ++ js "A,1965-03-01" ++ [LF]
              ++ js "B," ++ [LF] ++ js "C,2024-05-06" in
  exists d,
    loadCSV (RT := Exact.runtime) text
      {| fileTypeFilter := js "All"; riskFilter := js "All";
         categoryFilter := js "All" |} (js "6months") = Some d /\
    let view direction :=
      map (fun s => (siteName s, lastModified s))
          (filteredSites (agg d) {| search := []; sharingSel := js "all" |}
                         {| key := js "last"; dir := direction |}) in
    view (js "asc")
    = [(js "A", Some (-152668800000)%Z); (js "B", None);
       (js "C", Some 1714953600000%Z)] /\
    view (js "desc")
    = [(js "C", Some 1714953600000%Z); (js "B", None);
       (js "A", Some (-152668800000)%Z)].
Proof.
  eexists. split; [reflexivity|]. vm_compute. split; reflexivity.
Qed.

(** ** Export and re-import *)

(** C6, at a failing input.  The site name read from the CSV field
    [a] followed by two escaped quotes is [a] followed by one quote.  The
    exporter writes it between quotes with its quote doubled; the parser
    reads the exported line back as [a]: the escaped quote next to the
    closing delimiter is stripped, and the site name of the exported
    aggregate is not among the names read back. *)
Theorem C6_round_trip_loses_boundary_quote :
  let text := js "Site" ++ [LF] ++ js "a" ++ [quote; quote; quote; quote] in
  exists d,
    loadCSV (RT := Exact.runtime) text
      {| fileTypeFilter := js "All"; riskFilter := js "All";
         categoryFilter := js "All" |} (js "6months") = Some d /\
    let table :=
      filteredSites (agg d) {| search := []; sharingSel := js "all" |}
                    {| key := js "files"; dir := js "desc" |} in
    map siteName table = [js "a" ++ [quote]] /\
    exportSites table
    = Some (js "SiteName,Files,TotalKB,TotalMB,SharingLevel,LastModified"
            ++ [LF]
            ++ join [comma]
                 (map quoteField
                    [js "a" ++ [quote]; js "1"; js "0"; js "0.00";
                     js "Only Org"; []])) /\
    (forall out, exportSites table = Some out ->
       map (fun r => (get_prop (js "SiteName") r, get_prop (js "Files") r,
                      get_prop (js "TotalKB") r,
                      get_prop (js "SharingLevel") r))
           (data (parseCSV out))
       = [(Some (js "a"), Some (js "1"), Some (js "0"),
           Some (js "Only Org"))]).
Proof.
  intros text. eexists. split; [reflexivity|]. intros table.
  assert (E : exportSites table
              = Some (js "SiteName,Files,TotalKB,TotalMB,SharingLevel,LastModified"
                      ++ [LF]
                      ++ join [comma]
                           (map quoteField
                              [js "a" ++ [quote]; js "1"; js "0"; js "0.00";
                               js "Only Org"; []])))
    by (vm_compute; reflexivity).
  split; [vm_compute; reflexivity|]. split; [exact E|].
  intros out H. rewrite E in H. inversion H; subst out.
  vm_compute. reflexivity.
Qed.

(* ================================================================= *)
(** * Further properties of the code *)

(** ** Strings *)

Lemma lower_char_idem (c : ascii) : lower_char (lower_char c) = lower_char c.
Proof. destruct c as [[] [] [] [] [] [] [] []]; reflexivity. Qed.

Lemma toLowerCase_idem (s : jsstring) : toLowerCase (toLowerCase s) = toLowerCase s.
Proof.
  unfold toLowerCase. rewrite map_map. apply map_ext. apply lower_char_idem.
Qed.

Lemma trimStart_incl (s : jsstring) (c : ascii) : In c (trimStart s) -> In c s.
Proof.
  induction s as [|x s IH]; simpl; [tauto|].
  destruct (isWhiteSpace x); [right; auto | tauto].
Qed.

Lemma trim_incl (s : jsstring) (c : ascii) : In c (trim s) -> In c s.
Proof.
  unfold trim, trimEnd. intros H.
  apply in_rev, trimStart_incl in H. apply in_rev in H.
  apply trimStart_incl, H.
Qed.

Lemma trimStart_tight (s : jsstring) :
  match s with c :: _ => isWhiteSpace c = false | [] => True end ->
  trimStart s = s.
Proof. destruct s as [|c s]; simpl; [reflexivity|]. intros ->; reflexivity. Qed.

(** A text with no white space at either end. *)
Lemma trim_tight (s : jsstring) :
  match s with c :: _ => isWhiteSpace c = false | [] => True end ->
  match rev s with c :: _ => isWhiteSpace c = false | [] => True end ->
  trim s = s.
Proof.
  intros H1 H2. unfold trim, trimEnd.
  rewrite (trimStart_tight s H1), (trimStart_tight (rev s) H2).
  apply rev_involutive.
Qed.

Lemma stripLeadingDot_incl (s : jsstring) (c : ascii) :
  In c (stripLeadingDot s) -> In c s.
Proof.
  destruct s as [|x s]; simpl; [tauto|].
  destruct (ch_eqb x "."%char); simpl; tauto.
Qed.

Lemma includes_iff (t sub : jsstring) :
  includes t sub = true <-> exists a b, t = a ++ sub ++ b.
Proof.
  induction t as [|c t IH]; simpl.
  - rewrite orb_false_r, startsWith_app. split.
    + intros [r E]. exists [], r. exact E.
    + intros (a & b & E). destruct a; [exists b; exact E|discriminate].
  - rewrite orb_true_iff, startsWith_app, IH. split.
    + intros [[r E]|(a & b & E)].
      * exists [], r. exact E.
      * exists (c :: a), b. simpl. rewrite E. reflexivity.
    + intros (a & b & E). destruct a as [|x a]; simpl in E.
      * left. exists b. exact E.
      * right. inversion E; subst. exists a, b. reflexivity.
Qed.

Lemma includes_context (pre t suf sub : jsstring) :
  includes t sub = true -> includes (pre ++ t ++ suf) sub = true.
Proof.
  rewrite !includes_iff. intros (a & b & ->).
  exists (pre ++ a), (b ++ suf). rewrite <- !app_assoc. reflexivity.
Qed.

(** ** Column inference: the site column *)

Lemma filter_first (A : Type) (p : A -> bool) (l : list A) (x : A) (l' : list A) :
  filter p l = x :: l' ->
  exists l1 l2, l = l1 ++ x :: l2 /\ p x = true /\
                forall y, In y l1 -> p y = false.
Proof.
  induction l as [|a l IH]; simpl; [discriminate|].
  destruct (p a) eqn:Pa.
  - intros E. inversion E; subst. exists [], l. repeat split; auto.
    intros y [].
  - intros E. destruct (IH E) as (l1 & l2 & -> & Px & Hl1).
    exists (a :: l1), l2. repeat split; auto.
    intros y [<-|Hy]; auto.
Qed.

(** X1.  [guessSiteColumn] returns [undefined] only for an empty header
    sequence.  Otherwise it returns a header of the sequence: the first
    one that looks like a site column when there is one, and the first
    header of the sequence when none does. *)
Theorem guessSiteColumn_first_site_like (headers : list jsstring) :
  match guessSiteColumn headers with
  | None => headers = []
  | Some h =>
      In h headers /\
      ((exists l1 l2, headers = l1 ++ h :: l2 /\ siteLike h = true /\
                      forall x, In x l1 -> siteLike x = false)
       \/ (hd_error headers = Some h /\
           forall x, In x headers -> siteLike x = false))
  end.
Proof.
  unfold guessSiteColumn.
  destruct (filter siteLike headers) as [|c cs] eqn:F.
  - assert (N : forall x, In x headers -> siteLike x = false).
    { intros x Hx. destruct (siteLike x) eqn:S; [|reflexivity].
      assert (Hin : In x (filter siteLike headers)) by (apply filter_In; auto).
      rewrite F in Hin. destruct Hin. }
    destruct headers as [|h hs]; simpl; [reflexivity|].
    split; [left; reflexivity|]. right. split; [reflexivity | exact N].
  - destruct (filter_first _ _ F) as (l1 & l2 & E & S & Hl1).
    split.
    + rewrite E. apply in_or_app. right. left. reflexivity.
    + left. exists l1, l2. auto.
Qed.

(** ** Filter engine *)

Lemma filteredRows_filter (rs : roles) (f : filters) (rows0 : list row) :
  filteredRows rs f rows0 = filter (keepRow rs f) rows0.
Proof. destruct rows0; reflexivity. Qed.

Lemma filter_filter_comm (A : Type) (p q : A -> bool) (l : list A) :
  filter p (filter q l) = filter q (filter p l).
Proof.
  induction l as [|x l IH]; simpl; [reflexivity|].
  destruct (p x) eqn:P, (q x) eqn:Q; simpl; rewrite ?P, ?Q, IH; reflexivity.
Qed.

Lemma filter_idem (A : Type) (p : A -> bool) (l : list A) :
  filter p (filter p l) = filter p l.
Proof.
  induction l as [|x l IH]; simpl; [reflexivity|].
  destruct (p x) eqn:P; simpl; rewrite ?P, IH; reflexivity.
Qed.

(** X2.  The filter engine: with the three filters at "All" every row is
    kept; filtering keeps the rows' order and number of occurrences and
    drops the rest (the result is the sub-sequence of the rows the
    callback accepts); filtering twice with the same selections changes
    nothing more; and two selections applied one after the other give
    the same rows in either order. *)
Theorem filteredRows_algebra (rs : roles) (f g : filters) (rows0 : list row) :
  filteredRows rs {| fileTypeFilter := js "All"; riskFilter := js "All";
                     categoryFilter := js "All" |} rows0 = rows0 /\
  (forall r, In r (filteredRows rs f rows0)
             <-> In r rows0 /\ passesFileType rs f r = true
                 /\ passesRisk f r = true /\ passesCategory rs f r = true) /\
  List.length (filteredRows rs f rows0) <= List.length rows0 /\
  filteredRows rs f (filteredRows rs f rows0) = filteredRows rs f rows0 /\
  filteredRows rs f (filteredRows rs g rows0)
  = filteredRows rs g (filteredRows rs f rows0).
Proof.
  rewrite !filteredRows_filter. repeat split.
  - assert (K : forall r, keepRow rs {| fileTypeFilter := js "All";
                                         riskFilter := js "All";
                                         categoryFilter := js "All" |} r = true)
      by reflexivity.
    induction rows0 as [|r l IH]; cbn [filter]; [reflexivity|].
    rewrite K, IH. reflexivity.
  - apply filter_In in H. tauto.
  - apply filter_In in H. destruct H as [_ K]. rewrite keepRow_conj in K.
    apply andb_true_iff in K. destruct K as [K _].
    apply andb_true_iff in K. tauto.
  - apply filter_In in H. destruct H as [_ K]. rewrite keepRow_conj in K.
    apply andb_true_iff in K. destruct K as [K _].
    apply andb_true_iff in K. tauto.
  - apply filter_In in H. destruct H as [_ K]. rewrite keepRow_conj in K.
    apply andb_true_iff in K. tauto.
  - intros (Hin & A & B & C). apply filter_In. split; [exact Hin|].
    rewrite keepRow_conj, A, B, C. reflexivity.
  - apply filter_length_le.
  - apply filter_idem.
  - apply filter_filter_comm.
Qed.

(** ** Extensions and content categories *)

Lemma getFileExtension_cases (rs : roles) (r : row) :
  getFileExtension rs r = js "unknown" \/
  exists val, getFileExtension rs r = stripLeadingDot (trim (toLowerCase val))
              /\ 0 < List.length (getFileExtension rs r) < 10.
Proof.
  unfold getFileExtension.
  match goal with
  | |- context [if negb (truthy ?v) then _ else _] => generalize v
  end.
  intros val. destruct (negb (truthy val)); [left; reflexivity|].
  destruct ((0 <? List.length (stripLeadingDot (trim (toLowerCase val))))
            && (List.length (stripLeadingDot (trim (toLowerCase val))) <? 10))
    eqn:B; [|left; reflexivity].
  right. exists val. split; [reflexivity|].
  apply andb_true_iff in B. destruct B as [B1 B2].
  apply Nat.ltb_lt in B1. apply Nat.ltb_lt in B2. lia.
Qed.

(** X3.  The extension of a row is never empty and never ten code units
    or longer, and it is in lower case; a row without a truthy file-type
    value and without a truthy file-name value has the extension
    "unknown", whose content category is System. *)
Theorem getFileExtension_shape (rs : roles) (r : row) :
  1 <= List.length (getFileExtension rs r) <= 9 /\
  toLowerCase (getFileExtension rs r) = getFileExtension rs r /\
  (truthyField (fileTypeKey rs) r = None ->
   truthyField (fileNameKey rs) r = None ->
   getFileExtension rs r = js "unknown" /\
   getContentCategory (getFileExtension rs r) = js "System").
Proof.
  split; [|split].
  - destruct (getFileExtension_cases rs r) as [->|(val & _ & H)];
      [simpl; lia | lia].
  - destruct (getFileExtension_cases rs r) as [->|(val & -> & _)];
      [reflexivity|].
    unfold toLowerCase at 1. rewrite <- (map_id (stripLeadingDot _)) at 2.
    apply map_ext_in. intros c Hc.
    apply stripLeadingDot_incl, trim_incl in Hc.
    unfold toLowerCase in Hc. apply in_map_iff in Hc.
    destruct Hc as (x & <- & _). apply lower_char_idem.
  - intros T N. unfold getFileExtension. rewrite T, N. split; reflexivity.
Qed.

(** ** Classification of joined text *)

Lemma testWords_nil (alts : list jsstring) : testWords alts [] = false.
Proof.
  unfold testWords. simpl. rewrite orb_false_r.
  induction alts as [|w alts IH]; [reflexivity|]. simpl. exact IH.
Qed.

Lemma foldCase_join (l : list jsstring) :
  foldCase (join [space] l) = join [space] (map foldCase l).
Proof.
  induction l as [|x l IH]; [reflexivity|].
  destruct l as [|y l]; [reflexivity|].
  change (join [space] (x :: y :: l)) with (x ++ [space] ++ join [space] (y :: l)).
  unfold foldCase in *. rewrite !map_app, IH. reflexivity.
Qed.

Lemma includes_join (v sub : jsstring) (l : list jsstring) :
  In v l -> includes v sub = true -> includes (join [space] l) sub = true.
Proof.
  intros Hin H.
  destruct (join_In v l Hin) as [(suf & _ & E)|(pre & suf & _ & E)]; rewrite E.
  - apply (includes_context [] v suf sub H).
  - change (pre ++ space :: v ++ suf) with (pre ++ [space] ++ v ++ suf).
    rewrite app_assoc. apply (includes_context (pre ++ [space]) v suf sub H).
Qed.

Lemma includesAny_join (v : jsstring) (l : list jsstring) (phrases : list string) :
  In v l -> includesAny v phrases = true ->
  includesAny (join [space] l) phrases = true.
Proof.
  intros Hin H. unfold includesAny in *.
  apply existsb_exists in H. destruct H as (x & Hx & Hinc).
  apply existsb_exists. exists x. split; [exact Hx|].
  eapply includes_join; eauto.
Qed.

Lemma classifySharing_rank (text : jsstring) :
  let t := toLowerCase text in
  rank (classifySharing text)
  = if negb (truthy t) then 1%Z
    else if testWords anonymousWords t then 4%Z
    else if testWords externalWords t then 3%Z
    else if testWords [js "everyone"] t then 2%Z
    else 1%Z.
Proof.
  intros t. unfold classifySharing. fold t.
  change (map js ["anyone"; "anyonewithlink"; "anyone with the link";
                  "anonymous"; "public"]%string) with anonymousWords.
  change (map js ["guest"; "external"; "new external"; "new & existing";
                  "new and existing"; "newexisting"]%string) with externalWords.
  destruct (negb (truthy t)); [reflexivity|].
  destruct (testWords anonymousWords t); [reflexivity|].
  destruct (testWords externalWords t); [reflexivity|].
  destruct (testWords [js "everyone"] t); reflexivity.
Qed.

Lemma classifySharing_rank_join (v : jsstring) (l : list jsstring) :
  In v l ->
  (rank (classifySharing v) <= rank (classifySharing (join [space] l)))%Z.
Proof.
  intros Hin.
  rewrite !classifySharing_rank. cbv zeta. rewrite toLowerCase_join.
  set (t := toLowerCase v). set (T := join [space] (map toLowerCase l)).
  assert (M : forall alts, testWords alts t = true -> testWords alts T = true).
  { intros alts H. apply testWords_join with (v := t); [|exact H].
    apply in_map, Hin. }
  assert (E : forall alts, testWords alts T = true -> truthy T = true).
  { intros alts H. destruct T; [rewrite testWords_nil in H; discriminate|].
    reflexivity. }
  destruct (truthy t) eqn:Nt; simpl negb; cbv iota.
  - destruct (testWords anonymousWords t) eqn:A.
    { rewrite (E _ (M _ A)), (M _ A). simpl. lia. }
    destruct (testWords externalWords t) eqn:B.
    { rewrite (E _ (M _ B)), (M _ B). simpl.
      destruct (testWords anonymousWords T); lia. }
    destruct (testWords [js "everyone"] t) eqn:C.
    { rewrite (E _ (M _ C)), (M _ C). simpl.
      destruct (testWords anonymousWords T); [lia|].
      destruct (testWords externalWords T); lia. }
    destruct (negb (truthy T)); [lia|].
    destruct (testWords anonymousWords T); [lia|].
    destruct (testWords externalWords T); [lia|].
    destruct (testWords [js "everyone"] T); lia.
  - destruct (negb (truthy T)); [lia|].
    destruct (testWords anonymousWords T); [lia|].
    destruct (testWords externalWords T); [lia|].
    destruct (testWords [js "everyone"] T); lia.
Qed.

(** X4.  [classifySharing] yields one of four pairs, rank 1 with Only
    Org, 2 with Everyone, 3 with External (New & Existing) and 4 with
    External (Anonymous); it depends on the text only up to letter case;
    and joining a text with others by spaces never lowers its rank. *)
Theorem classifySharing_monotone (v : jsstring) (l : list jsstring) :
  In v l ->
  (classifySharing v = {| level := js "Only Org"; rank := 1 |} \/
   classifySharing v = {| level := js "Everyone"; rank := 2 |} \/
   classifySharing v = {| level := js "External (New & Existing)"; rank := 3 |} \/
   classifySharing v = {| level := js "External (Anonymous)"; rank := 4 |}) /\
  classifySharing (toLowerCase v) = classifySharing v /\
  (rank (classifySharing v) <= rank (classifySharing (join [space] l)))%Z.
Proof.
  intros Hin. split; [|split].
  - unfold classifySharing.
    destruct (negb (truthy (toLowerCase v))); [auto|].
    repeat match goal with
           | |- context [if testWords ?a ?t then _ else _] =>
               destruct (testWords a t); [auto|]
           end.
    auto.
  - unfold classifySharing. rewrite toLowerCase_idem. reflexivity.
  - apply classifySharing_rank_join, Hin.
Qed.

Lemma classifySharing_monotone_witness :
  (rank (classifySharing (js "Guest users"))
   <= rank (classifySharing
              (join [space] [js "Team site"; js "Guest users"; js "Anyone"])))%Z.
Proof.
  exact (proj2 (proj2 (@classifySharing_monotone (js "Guest users")
                         [js "Team site"; js "Guest users"; js "Anyone"]
                         (or_intror (or_introl eq_refl))))).
Defined.

Lemma getRiskProfile_level (text : jsstring) :
  let t := toLowerCase text in
  riskLevel (getRiskProfile text)
  = if testWords [js "everyone"] t
       || includes t (js "everyone except external users") then 3
    else if includesAny t mediumPhrases then 2
    else if includesAny t lowPhrases then 1
    else 0.
Proof.
  intros t. unfold getRiskProfile. fold t.
  change ["visitor"; "excel services viewers"; "portfolio viewers"]%string
    with mediumPhrases.
  change ["owner"; "member"; "administrator"; "project manager"; "team lead";
          "resource manager"]%string with lowPhrases.
  destruct (testWords [js "everyone"] t
            || includes t (js "everyone except external users"));
    [reflexivity|].
  destruct (includesAny t mediumPhrases); [reflexivity|].
  destruct (includesAny t lowPhrases); reflexivity.
Qed.

(** X5.  The risk profile of a row is at least the risk profile of each
    of its field values taken alone, in the order Critical, Medium, Low,
    Unknown: the space-joined row text matches whatever a single value
    matches.  So a row with a value that is Critical on its own passes
    the Critical risk filter. *)
Theorem getRiskProfile_row_dominates (r : row) (column v : jsstring) :
  get_prop column r = Some v ->
  riskLevel (getRiskProfile v) <= riskLevel (getRiskProfile (rowText r)) /\
  (getRiskProfile v = js "Critical" ->
   passesRisk {| fileTypeFilter := js "All"; riskFilter := js "Critical";
                 categoryFilter := js "All" |} r = true).
Proof.
  intros Hget.
  pose proof (get_prop_Object_values _ _ Hget) as Hin.
  assert (L : riskLevel (getRiskProfile v)
              <= riskLevel (getRiskProfile (rowText r))).
  { rewrite !getRiskProfile_level. cbv zeta. unfold rowText.
    rewrite toLowerCase_join.
    set (t := toLowerCase v).
    set (T := join [space] (map toLowerCase (Object_values r))).
    assert (Hin' : In t (map toLowerCase (Object_values r)))
      by (apply in_map, Hin).
    assert (MA : forall ph, includesAny t ph = true -> includesAny T ph = true).
    { intros ph H. apply includesAny_join with (v := t); assumption. }
    destruct (testWords [js "everyone"] t
              || includes t (js "everyone except external users")) eqn:C.
    { apply orb_true_iff in C.
      assert (C' : testWords [js "everyone"] T
                   || includes T (js "everyone except external users") = true).
      { apply orb_true_iff. destruct C as [C|C].
        - left. eapply testWords_join; eauto.
        - right. eapply includes_join; eauto. }
      rewrite C'. lia. }
    destruct (testWords [js "everyone"] T
              || includes T (js "everyone except external users")).
    { destruct (includesAny t mediumPhrases); [lia|].
      destruct (includesAny t lowPhrases); lia. }
    destruct (includesAny t mediumPhrases) eqn:M.
    { rewrite (MA _ M). lia. }
    destruct (includesAny T mediumPhrases).
    { destruct (includesAny t lowPhrases); lia. }
    destruct (includesAny t lowPhrases) eqn:Lo.
    { rewrite (MA _ Lo). lia. }
    lia. }
  split; [exact L|].
  intros Crit. rewrite Crit in L. change (riskLevel (js "Critical")) with 3 in L.
  unfold passesRisk. cbn [riskFilter].
  change (negb (str_eqb (js "Critical") (js "All"))) with true. cbv iota.
  change (str_eqb (js "Critical") (js "Critical")) with true.
  destruct (str_eqb (getRiskProfile (rowText r)) (js "Critical")) eqn:E;
    [reflexivity|].
  exfalso. unfold riskLevel in L. rewrite E in L.
  destruct (str_eqb (getRiskProfile (rowText r)) (js "Medium"));
    [lia|].
  destruct (str_eqb (getRiskProfile (rowText r)) (js "Low")); lia.
Qed.

Lemma getRiskProfile_row_dominates_witness :
  riskLevel (getRiskProfile (js "Site Visitors"))
  <= riskLevel (getRiskProfile
                  (rowText [(js "Site", js "A"); (js "Group", js "Site Visitors");
                            (js "Note", js "Everyone")])).
Proof.
  exact (proj1 (@getRiskProfile_row_dominates
                  [(js "Site", js "A"); (js "Group", js "Site Visitors");
                   (js "Note", js "Everyone")]
                  (js "Group") (js "Site Visitors") eq_refl)).
Defined.

(** ** Site aggregates *)

Section AggregateFacts.
Context {RT : JsRuntime}.



Lemma siteAgg_built (rs : roles) (filtered0 : list row) (ag : siteAggResult)
  (s : site) :
  siteAgg rs filtered0 = Some ag ->
  In s (sites ag) ->
  exists key e m, siteKey rs = Some key /\ truthy key = true /\
                  groupRows key filtered0 = Some m /\
                  In e m /\ s = buildSite rs e.
Proof.
  intros A Hs. destruct (siteKey rs) as [key|] eqn:K.
  - destruct (truthy key) eqn:T.
    + destruct (siteAgg_sites rs filtered0 K T A) as (m & G & P).
      apply (Permutation_in _ P) in Hs.
      apply in_map_iff in Hs. destruct Hs as (e & <- & He).
      exists key, e, m. auto.
    + unfold siteAgg in A. rewrite K, T in A.
      destruct filtered0; inversion A; subst ag; destruct Hs.
  - unfold siteAgg in A. rewrite K in A.
    destruct filtered0; inversion A; subst ag; destruct Hs.
Qed.



(** X22.  The aggregation fails on a site key that a row reads from
    [Object.prototype].  Under a truthy site key it throws a TypeError
    exactly when some filtered row does not own the key and the key
    names a member of [Object.prototype], as [__proto__] does for every
    parsed row; otherwise it returns. *)
Theorem siteAgg_throws_on_inherited_site_key (rs : roles)
  (filtered0 : list row) (key : jsstring) :
  siteKey rs = Some key -> truthy key = true ->
  (siteAgg rs filtered0 = None
   <-> exists r, In r filtered0 /\ get_prop key r = None
                 /\ protoMember key = true) /\
  (protoMember key = false -> siteAgg rs filtered0 <> None).
Proof.
  intros K T.
  assert (R := siteAgg_returns rs filtered0 K T).
  assert (E : siteAgg rs filtered0 = None
              <-> exists r, In r filtered0 /\ get_prop key r = None
                            /\ protoMember key = true).
  { split.
    - intros N.
      assert (X : ~ Forall (plainRead key) filtered0).
      { intros F. destruct (proj2 R F) as [ag A]. congruence. }
      clear - X. induction filtered0 as [|r rows0 IH].
      + exfalso. apply X. constructor.
      + destruct (siteOf key r) as [s|] eqn:S.
        * destruct IH as (r' & Hr' & G).
          { intros F. apply X. constructor; [|exact F].
            apply siteOf_plainRead. congruence. }
          exists r'. split; [right; exact Hr' | exact G].
        * exists r. split; [left; reflexivity | apply siteOf_None, S].
    - intros (r & Hr & G).
      destruct (siteAgg rs filtered0) as [ag|] eqn:A; [|reflexivity].
      exfalso.
      assert (F : Forall (plainRead key) filtered0)
        by (apply R; exists ag; reflexivity).
      rewrite Forall_forall in F. specialize (F r Hr).
      apply siteOf_plainRead in F. apply F. apply siteOf_None, G. }
  split; [exact E|].
  intros P N. apply E in N. destruct N as (r & _ & _ & X). congruence.
Qed.

Lemma buildSite_sharingRank (rs : roles) (e : jsstring * list row) :
  sharingRank (buildSite rs e)
  = rank (classifySharing (join [space] (map rowText (snd e)))).
Proof. destruct e; reflexivity. Qed.

Lemma buildSite_visibleEveryone (rs : roles) (e : jsstring * list row) :
  visibleEveryone (buildSite rs e)
  = testWords [js "everyone"] (foldCase (join [space] (map rowText (snd e)))).
Proof. destruct e; reflexivity. Qed.

(** X7.  The sharing classification of a site covers every field of every
    row of the site: the site's rank is at least the rank of each field
    value classified alone and of each row's text, and a field with the
    whole word "everyone", in any letter case, makes the site visible to
    everyone. *)
Theorem site_sharing_covers_fields (rs : roles) (filtered0 : list row)
  (ag : siteAggResult) (s : site) (r : row) (column v : jsstring) :
  siteAgg rs filtered0 = Some ag ->
  In s (sites ag) ->
  In r (rawRows s) ->
  get_prop column r = Some v ->
  (rank (classifySharing v) <= sharingRank s)%Z /\
  (rank (classifySharing (rowText r)) <= sharingRank s)%Z /\
  (testWords [js "everyone"] (foldCase v) = true -> visibleEveryone s = true).
Proof.
  intros A Hs Hr Hget.
  destruct (siteAgg_built rs filtered0 s A Hs)
    as (key & e & m & _ & _ & _ & _ & ->).
  rewrite buildSite_rawRows in Hr.
  rewrite buildSite_sharingRank, buildSite_visibleEveryone.
  pose proof (get_prop_Object_values _ _ Hget) as Hv.
  assert (R : (rank (classifySharing (rowText r))
               <= rank (classifySharing (join [space] (map rowText (snd e)))))%Z).
  { apply classifySharing_rank_join. apply in_map, Hr. }
  assert (V : (rank (classifySharing v) <= rank (classifySharing (rowText r)))%Z).
  { apply classifySharing_rank_join, Hv. }
  split; [lia|]. split; [exact R|].
  intros W. rewrite foldCase_join.
  apply testWords_join with (v := foldCase (rowText r)).
  - rewrite map_map. apply in_map_iff. exists r. split; [reflexivity | exact Hr].
  - unfold rowText. rewrite foldCase_join.
    apply testWords_join with (v := foldCase v); [apply in_map, Hv | exact W].
Qed.

Lemma lastDates_rowDate (rs : roles) (siteRows : list row) :
  lastDates rs siteRows
  = flat_map (fun r => match rowDate rs r with Some d => [d] | None => [] end)
             siteRows.
Proof.
  unfold lastDates. apply flat_map_ext. intros r. unfold rowDate.
  destruct (get_prop (propName (lastModKey rs)) r) as [v|]; [|reflexivity].
  destruct (truthy v); [|reflexivity].
  destruct (Date_parse v); reflexivity.
Qed.

Lemma maxTime_spec (l : list Z) :
  forall d, (d <= maxTime d l)%Z /\
            (forall x, In x l -> (x <= maxTime d l)%Z) /\
            (maxTime d l = d \/ In (maxTime d l) l).
Proof.
  unfold maxTime. induction l as [|y l IH]; intros d; simpl.
  - split; [lia|]. split; [intros x []|]. left; reflexivity.
  - destruct (IH (Z.max d y)) as (A & B & C). split; [lia|]. split.
    + intros x [<-|Hx]; [lia | auto].
    + destruct C as [C|C]; [|right; right; exact C].
      rewrite C. destruct (Z.max_spec d y) as [[_ ->]|[_ ->]]; auto.
Qed.

Lemma buildSite_lastModified (rs : roles) (e : jsstring * list row) :
  lastModified (buildSite rs e)
  = match lastDates rs (snd e) with
    | d :: l => Some (maxTime d l)
    | [] => None
    end.
Proof. destruct e; reflexivity. Qed.

(** X8.  The last-modified date of a site is the latest valid date of its
    rows in the last-modified column: it is the date of one of the rows
    and no row has a later one; it is [null] exactly when no row of the
    site has a valid date there. *)
Theorem site_lastModified_is_latest (rs : roles) (filtered0 : list row)
  (ag : siteAggResult) (s : site) :
  siteAgg rs filtered0 = Some ag ->
  In s (sites ag) ->
  match lastModified s with
  | None => forall r, In r (rawRows s) -> rowDate rs r = None
  | Some t =>
      (exists r, In r (rawRows s) /\ rowDate rs r = Some t) /\
      (forall r d, In r (rawRows s) -> rowDate rs r = Some d -> (d <= t)%Z)
  end.
Proof.
  intros Ag Hs.
  destruct (siteAgg_built rs filtered0 s Ag Hs)
    as (key & e & m & _ & _ & _ & _ & ->).
  rewrite buildSite_lastModified, buildSite_rawRows, lastDates_rowDate.
  set (dates := flat_map (fun r => match rowDate rs r with
                                   | Some d => [d] | None => [] end) (snd e)).
  assert (In_dates : forall d, In d dates
                               <-> exists r, In r (snd e) /\ rowDate rs r = Some d).
  { intros d. unfold dates. rewrite in_flat_map. split.
    - intros (r & Hr & Hd). exists r. split; [exact Hr|].
      destruct (rowDate rs r) as [d'|]; [|destruct Hd].
      destruct Hd as [<-|[]]. reflexivity.
    - intros (r & Hr & E). exists r. split; [exact Hr|].
      rewrite E. left; reflexivity. }
  destruct dates as [|d l] eqn:D.
  - intros r Hr. destruct (rowDate rs r) as [d|] eqn:E; [|reflexivity].
    exfalso. apply (proj2 (In_dates d)). exists r. auto.
  - destruct (maxTime_spec l d) as (A & B & C). split.
    + apply In_dates. destruct C as [->|C]; [left; reflexivity | right; exact C].
    + intros r x Hr E.
      assert (Hx : In x (d :: l)) by (apply In_dates; exists r; auto).
      destruct Hx as [<-|Hx]; [exact A | apply B, Hx].
Qed.

End AggregateFacts.


Lemma siteAgg_throws_on_inherited_site_key_witness :
  let text := js "__proto__,Name" ++ [LF] ++ js "x,y" in
  siteKey (updateColumnKeys (fields (parseCSV text))) = Some (js "__proto__") /\
  data (parseCSV text) = [[(js "Name", js "y")]] /\
  siteAgg (RT := Exact.runtime) (updateColumnKeys (fields (parseCSV text)))
    (data (parseCSV text)) = None /\
  loadCSV (RT := Exact.runtime) text
    {| fileTypeFilter := js "All"; riskFilter := js "All";
       categoryFilter := js "All" |} (js "6months") = None.
Proof.
  intros text.
  assert (N : siteAgg (RT := Exact.runtime)
                (updateColumnKeys (fields (parseCSV text)))
                (data (parseCSV text)) = None).
  { apply (proj1 (@siteAgg_throws_on_inherited_site_key Exact.runtime
                    (updateColumnKeys (fields (parseCSV text)))
                    (data (parseCSV text)) (js "__proto__")
                    eq_refl eq_refl)).
    exists [(js "Name", js "y")].
    split; [left; reflexivity | split; reflexivity]. }
  split; [reflexivity|]. split; [reflexivity|]. split; [exact N|].
  reflexivity.
Defined.

Lemma site_sharing_covers_fields_witness :
  let rs := updateColumnKeys [js "Site"; js "Note"] in
  let r1 := [(js "Site", js "A"); (js "Note", js "internal")] in
  let r2 := [(js "Site", js "A"); (js "Note", js "Shared with guest users")] in
  let s := buildSite (RT := Exact.runtime) rs (js "A", [r1; r2]) in
  (rank (classifySharing (js "Shared with guest users")) <= sharingRank s)%Z.
Proof.
  intros rs r1 r2 s.
  assert (A : exists ag, siteAgg (RT := Exact.runtime) rs [r1; r2] = Some ag
                         /\ In s (sites ag)).
  { eexists. split; [reflexivity | left; reflexivity]. }
  destruct A as (ag & A & Hs).
  exact (proj1 (@site_sharing_covers_fields Exact.runtime rs [r1; r2] ag s r2
                  (js "Note") (js "Shared with guest users") A Hs
                  (or_intror (or_introl eq_refl)) eq_refl)).
Defined.

Lemma site_lastModified_is_latest_witness :
  let rs := updateColumnKeys [js "Site"; js "Modified"] in
  let r1 := [(js "Site", js "A"); (js "Modified", js "2020-01-01")] in
  let r2 := [(js "Site", js "A"); (js "Modified", js "2023-06-01")] in
  let s := buildSite (RT := Exact.runtime) rs (js "A", [r1; r2]) in
  match lastModified s with
  | None => forall r, In r (rawRows s) -> rowDate (RT := Exact.runtime) rs r = None
  | Some t =>
      (exists r, In r (rawRows s) /\ rowDate (RT := Exact.runtime) rs r = Some t) /\
      (forall r d, In r (rawRows s) -> rowDate (RT := Exact.runtime) rs r = Some d -> (d <= t)%Z)
  end.
Proof.
  intros rs r1 r2 s.
  assert (A : exists ag, siteAgg (RT := Exact.runtime) rs [r1; r2] = Some ag
                         /\ In s (sites ag)).
  { eexists. split; [reflexivity | left; reflexivity]. }
  destruct A as (ag & A & Hs).
  exact (@site_lastModified_is_latest Exact.runtime rs [r1; r2] ag s A Hs).
Defined.

(** ** Stale sites *)

Section StaleFacts.
Context {RT : JsRuntime}.

Lemma isStale_date (rs : roles) (threshold : Z) (r : row) :
  isStale rs threshold r = true ->
  exists d, rowDate rs r = Some d /\ (d < threshold)%Z.
Proof.
  unfold isStale. destruct (rowDate rs r) as [d|]; [|discriminate].
  intros H. exists d. split; [reflexivity | apply Z.ltb_lt, H].
Qed.

Lemma olderOf_min (rs : roles) (m : Z) (r : row) (d : Z) :
  rowDate rs r = Some d -> olderOf rs m r = Z.min d m.
Proof.
  unfold rowDate, olderOf.
  destruct (get_prop (propName (lastModKey rs)) r) as [v|]; [|discriminate].
  destruct (truthy v); [|discriminate]. intros ->.
  destruct (d <? m)%Z eqn:L.
  - apply Z.ltb_lt in L. lia.
  - apply Z.ltb_ge in L. lia.
Qed.

Lemma fold_olderOf (rs : roles) (threshold : Z) (stale : list row) :
  Forall (fun r => isStale rs threshold r = true) stale ->
  forall m0,
    let m := fold_left (olderOf rs) stale m0 in
    (m <= m0)%Z /\
    (forall r d, In r stale -> rowDate rs r = Some d -> (m <= d)%Z) /\
    (m = m0 \/ exists r, In r stale /\ rowDate rs r = Some m).
Proof.
  induction 1 as [|r stale Hr Hall IH]; intros m0; simpl.
  - split; [lia|]. split; [intros r d []|]. left; reflexivity.
  - destruct (isStale_date rs threshold r Hr) as (d & Ed & _).
    rewrite (olderOf_min rs m0 r Ed).
    destruct (IH (Z.min d m0)) as (A & B & C). split; [lia|]. split.
    + intros r' d' [<-|Hin] E; [|eauto].
      rewrite Ed in E. inversion E; subst. lia.
    + destruct C as [C|(r' & Hin & E)].
      * rewrite C. destruct (Z.min_spec d m0) as [[_ ->]|[_ ->]].
        -- right. exists r. split; [left; reflexivity | exact Ed].
        -- left. reflexivity.
      * right. exists r'. split; [right; exact Hin | exact E].
Qed.

Lemma staleEntry_Some (rs : roles) (threshold now : Z) (s : site)
  (e : staleSite) :
  staleEntry rs threshold now s = Some e ->
  staleOf e = s /\
  staleFiles e = filter (isStale rs threshold) (rawRows s) /\
  staleFiles e <> [] /\
  staleFileCount e = List.length (staleFiles e) /\
  oldestModified e = fold_left (olderOf rs) (staleFiles e) now.
Proof.
  unfold staleEntry.
  destruct (filter (isStale rs threshold) (rawRows s)) as [|r l] eqn:F;
    [discriminate|].
  intros E. inversion E; subst e. cbn. repeat split; auto. discriminate.
Qed.

Lemma staleSitesList_In (rs : roles) (ss : list site) (threshold now : Z)
  (e : staleSite) :
  In e (staleSitesList rs ss threshold now) <->
  truthyOpt (lastModKey rs) = true /\
  exists s, In s ss /\ staleEntry rs threshold now s = Some e.
Proof.
  unfold staleSitesList. destruct (truthyOpt (lastModKey rs)).
  - split.
    + intros H. apply (Permutation_in _ (sortWith_perm byOldest _)) in H.
      apply in_flat_map in H. destruct H as (s & Hs & He).
      split; [reflexivity|]. exists s. split; [exact Hs|].
      destruct (staleEntry rs threshold now s) as [e'|]; [|destruct He].
      destruct He as [->|[]]. reflexivity.
    + intros (_ & s & Hs & E).
      apply (Permutation_in _ (Permutation_sym (sortWith_perm byOldest _))).
      apply in_flat_map. exists s. split; [exact Hs|]. rewrite E. left; reflexivity.
  - split; [intros [] | intros [H _]; discriminate].
Qed.

(** X9.  Every entry of the stale list belongs to a site of the
    aggregation and holds exactly that site's rows whose last-modified
    value is a valid date strictly before the threshold, of which there
    is at least one; [staleFileCount] is their number; [oldestModified]
    is before the threshold and no later than the date of any stale row,
    and when the threshold is not after the instant of evaluation it is
    the date of one of the stale rows. *)
Theorem staleSitesList_entries (rs : roles) (ss : list site)
  (threshold now : Z) (e : staleSite) :
  In e (staleSitesList rs ss threshold now) ->
  In (staleOf e) ss /\
  staleFiles e = filter (isStale rs threshold) (rawRows (staleOf e)) /\
  staleFiles e <> [] /\
  staleFileCount e = List.length (staleFiles e) /\
  (oldestModified e < threshold)%Z /\
  (forall r d, In r (staleFiles e) -> rowDate rs r = Some d ->
               (oldestModified e <= d)%Z) /\
  ((threshold <= now)%Z ->
   exists r, In r (staleFiles e) /\ rowDate rs r = Some (oldestModified e)).
Proof.
  intros H. apply staleSitesList_In in H. destruct H as (_ & s & Hs & E).
  destruct (staleEntry_Some rs threshold now s E) as (Eo & Ef & Ne & Ec & Em).
  subst s.
  assert (All : Forall (fun r => isStale rs threshold r = true) (staleFiles e)).
  { rewrite Ef. apply Forall_forall. intros r Hr.
    apply filter_In in Hr. tauto. }
  destruct (fold_olderOf rs threshold All now) as (A & B & C).
  rewrite <- Em in A, B, C.
  assert (Lt : (oldestModified e < threshold)%Z).
  { destruct (staleFiles e) as [|r l] eqn:S; [contradiction|].
    inversion All as [|? ? Hr _]; subst.
    destruct (isStale_date rs threshold r Hr) as (d & Ed & Ld).
    specialize (B r d (or_introl eq_refl) Ed). lia. }
  repeat split; auto.
  intros Le. destruct C as [C|C]; [lia | exact C].
Qed.

(** X10.  The stale list is ordered by [oldestModified], oldest first; it
    is empty when there is no last-modified column; otherwise a site of
    the aggregation has an entry exactly when one of its rows is stale,
    so there are at most as many entries as sites. *)
Theorem staleSitesList_order (rs : roles) (ss : list site) (threshold now : Z) :
  let res := staleSitesList rs ss threshold now in
  StronglySorted (fun a b => (oldestModified a <= oldestModified b)%Z) res /\
  (truthyOpt (lastModKey rs) = false -> res = []) /\
  (truthyOpt (lastModKey rs) = true ->
   forall s, In s ss ->
             ((exists r, In r (rawRows s) /\ isStale rs threshold r = true)
              <-> exists e, In e res /\ staleOf e = s)) /\
  List.length res <= List.length ss.
Proof.
  intros res. split; [|split; [|split]].
  - unfold res, staleSitesList.
    destruct (truthyOpt (lastModKey rs)); [|constructor].
    apply sortWith_sorted.
    + intros x y z. cbv beta. lia.
    + intros x y. unfold byOldest. intros H.
      destruct (Z.compare_spec (oldestModified x - oldestModified y) 0);
        try lia; congruence.
    + intros x y. unfold byOldest. intros H.
      apply Z.compare_gt_iff in H. lia.
  - intros F. unfold res, staleSitesList. rewrite F. reflexivity.
  - intros T s Hs. split.
    + intros (r & Hr & St).
      destruct (staleEntry rs threshold now s) as [e|] eqn:E.
      * exists e. split; [apply staleSitesList_In; eauto|].
        apply (staleEntry_Some rs threshold now s E).
      * exfalso. unfold staleEntry in E.
        destruct (filter (isStale rs threshold) (rawRows s)) eqn:F;
          [|discriminate].
        assert (Hin : In r (filter (isStale rs threshold) (rawRows s)))
          by (apply filter_In; auto).
        rewrite F in Hin. destruct Hin.
    + intros (e & He & <-).
      apply staleSitesList_In in He. destruct He as (_ & s' & _ & E).
      destruct (staleEntry_Some rs threshold now s' E) as (Eo & Ef & Ne & _).
      subst s'.
      destruct (staleFiles e) as [|r l] eqn:S; [contradiction|].
      assert (Hin : In r (filter (isStale rs threshold) (rawRows (staleOf e))))
        by (rewrite <- Ef; left; reflexivity).
      apply filter_In in Hin. exists r. exact Hin.
  - subst res. unfold staleSitesList.
    destruct (truthyOpt (lastModKey rs)); [|simpl; lia].
    rewrite (Permutation_length (sortWith_perm byOldest _)).
    induction ss as [|s ss IH]; simpl; [lia|].
    rewrite length_app.
    destruct (staleEntry rs threshold now s); simpl; lia.
Qed.

End StaleFacts.

Lemma staleSitesList_entries_witness :
  let rs := updateColumnKeys [js "Site"; js "Modified"] in
  let rows0 := [[(js "Site", js "A"); (js "Modified", js "2020-01-01")];
                [(js "Site", js "B"); (js "Modified", js "2025-12-01")];
                [(js "Site", js "A"); (js "Modified", js "2023-06-01")]] in
  let threshold := getStaleThreshold (JsRuntime := Exact.runtime) (js "6months") in
  exists ag,
    siteAgg (RT := Exact.runtime) rs rows0 = Some ag /\
    match staleSitesList (RT := Exact.runtime) rs
            (sites ag) threshold 1767225600000%Z with
    | e :: _ => (oldestModified e < threshold)%Z
    | [] => True
    end.
Proof.
  intros rs rows0 threshold. eexists. split; [reflexivity|].
  match goal with
  | |- match staleSitesList rs ?ss _ _ with _ => _ end =>
      destruct (staleSitesList (RT := Exact.runtime) rs ss threshold
                  1767225600000%Z) as [|e l] eqn:E; [exact I|];
      refine (proj1 (proj2 (proj2 (proj2 (proj2
                (@staleSitesList_entries Exact.runtime rs ss threshold
                   1767225600000%Z e _))))));
      rewrite E; left; reflexivity
  end.
Defined.

(** ** Site table *)

Lemma sortWith_keeps_order (A : Type) (cmp : A -> A -> comparison) (l : list A) :
  (forall x y, cmp x y <> Gt) -> sortWith cmp l = l.
Proof.
  intros H. induction l as [|x l IH]; simpl; [reflexivity|].
  rewrite IH. destruct l as [|y l]; simpl; [reflexivity|].
  destruct (cmp x y) eqn:C; try reflexivity. exfalso. apply (H x y C).
Qed.

Lemma filter_filter_andb (A : Type) (p q : A -> bool) (l : list A) :
  filter q (filter p l) = filter (fun x => p x && q x) l.
Proof.
  induction l as [|x l IH]; simpl; [reflexivity|].
  destruct (p x); simpl; [destruct (q x)|]; rewrite IH; reflexivity.
Qed.

Section TableSelection.
Context {RT : JsRuntime}.

(** X11.  The site table holds each site of the aggregation that passes
    the sharing-level selection and the search, as often as the
    aggregation does, and no other: sorting only reorders.  The sharing
    selection passes every site when it is empty or "all", and otherwise
    the sites of exactly that level; the search passes every site when
    it is blank, and otherwise the sites whose lowercased name contains
    the lowercased, trimmed search text.  With a sort key other than
    name, files, kb and last the sites keep the aggregation's order. *)
Theorem filteredSites_selection (ag : siteAggResult) (flt : tableFilter)
  (srt : tableSort) :
  let q := trim (toLowerCase (search flt)) in
  let bySharing (s : site) :=
    if truthy (sharingSel flt) && negb (str_eqb (sharingSel flt) (js "all"))
    then str_eqb (sharingLevel s) (sharingSel flt) else true in
  let bySearch (s : site) :=
    if truthy q then includes (toLowerCase (siteName s)) q else true in
  Permutation (filteredSites ag flt srt)
              (filter (fun s => bySharing s && bySearch s) (sites ag)) /\
  (str_eqb (key srt) (js "name") = false ->
   str_eqb (key srt) (js "files") = false ->
   str_eqb (key srt) (js "kb") = false ->
   str_eqb (key srt) (js "last") = false ->
   filteredSites ag flt srt
   = filter (fun s => bySharing s && bySearch s) (sites ag)).
Proof.
  intros q bySharing bySearch.
  assert (E : filteredSites ag flt srt
              = sortWith (tableCompare srt)
                  (filter (fun s => bySharing s && bySearch s) (sites ag))).
  { unfold filteredSites. fold q. f_equal. unfold bySharing, bySearch.
    destruct (truthy (sharingSel flt) && negb (str_eqb (sharingSel flt) (js "all")));
      destruct (truthy q).
    - apply filter_filter_andb.
    - apply filter_ext. intros s. rewrite andb_true_r. reflexivity.
    - apply filter_ext. intros s. reflexivity.
    - induction (sites ag) as [|s l IH]; [reflexivity|].
      cbn [filter andb]. f_equal. exact IH. }
  rewrite E. split; [apply sortWith_perm|].
  intros N1 N2 N3 N4. apply sortWith_keeps_order.
  intros x y. unfold tableCompare. rewrite N1, N2, N3, N4. discriminate.
Qed.

End TableSelection.

(** X12.  A click on a column header selects that column's sort key and
    sets the direction to "asc" or "desc": a column that was not the
    sort key starts ascending for the name and descending for files,
    storage and last-modified; a second click on the same header
    reverses the direction, and a third restores the state of the
    first. *)
Theorem clickHeader_toggles (c : column) (srt : tableSort) :
  let s1 := clickHeader c srt in
  let s2 := clickHeader c s1 in
  key s1 = columnKey c /\
  (dir s1 = js "asc" \/ dir s1 = js "desc") /\
  (str_eqb (key srt) (columnKey c) = false ->
   dir s1 = match c with ColName => js "asc" | _ => js "desc" end) /\
  key s2 = columnKey c /\
  dir s2 <> dir s1 /\
  (dir s2 = js "asc" \/ dir s2 = js "desc") /\
  clickHeader c s2 = s1.
Proof.
  intros s1 s2. subst s1 s2.
  destruct c; unfold clickHeader, columnKey; cbn [key dir];
    destruct (str_eqb (key srt) _) eqn:K;
    destruct (str_eqb (dir srt) _) eqn:D;
    cbn; repeat split; auto; try discriminate.
Qed.

(** ** File-type statistics *)

Section OwnPropsFacts.
Variable V : Type.

Lemma insertIndexed_perm (e : N * (jsstring * V)) (l : list (N * (jsstring * V))) :
  Permutation (insertIndexed e l) (e :: l).
Proof.
  induction l as [|e' l IH]; simpl; [reflexivity|].
  destruct (fst e <=? fst e')%N; [reflexivity|].
  rewrite IH. apply perm_swap.
Qed.

Lemma ownProps_perm (o : obj V) : Permutation (ownProps o) o.
Proof.
  unfold ownProps, namedProps.
  induction o as [|[k v] o IH]; simpl; [reflexivity|].
  destruct (arrayIndex k) as [n|]; simpl.
  - rewrite (Permutation_map snd (insertIndexed_perm (n, (k, v)) (indexedProps o))).
    simpl. apply perm_skip, IH.
  - rewrite <- Permutation_middle. apply perm_skip, IH.
Qed.

Lemma get_prop_of_In (k : jsstring) (v : V) (o : obj V) :
  NoDup (map fst o) -> In (k, v) o -> get_prop k o = Some v.
Proof.
  induction o as [|[k' v'] o IH]; simpl; intros ND Hin; [contradiction|].
  inversion ND as [|? ? Hn ND']; subst.
  destruct Hin as [E|Hin].
  - inversion E; subst. rewrite str_eqb_refl. reflexivity.
  - destruct (str_eqb k k') eqn:Q; [|auto].
    apply str_eqb_eq in Q; subst k'. exfalso. apply Hn.
    apply in_map_iff. exists (k, v). auto.
Qed.

End OwnPropsFacts.

Lemma list_sum_perm (l l' : list nat) :
  Permutation l l' -> list_sum l = list_sum l'.
Proof. induction 1; simpl; lia. Qed.

Lemma set_prop_sum (k : jsstring) (d : obj nat) :
  list_sum (map snd
              (set_prop k (match get_prop k d with Some n => n | None => 0 end + 1) d))
  = list_sum (map snd d) + 1.
Proof.
  induction d as [|[k' n'] d IH]; simpl; [reflexivity|].
  destruct (str_eqb k k'); simpl; [lia|]. rewrite IH. lia.
Qed.

(** The number of rows with a given extension. *)
Lemma countExtension_get (ext e : jsstring) (d : obj nat) :
  e <> js "__proto__" ->
  match get_prop e (countExtension ext d) with Some n => n | None => 0 end
  = match get_prop e d with Some n => n | None => 0 end
    + (if str_eqb ext e then 1 else 0).
Proof.
  intros Ne. unfold countExtension.
  destruct (str_eqb ext (js "__proto__")) eqn:P.
  - apply str_eqb_eq in P. subst ext.
    destruct (str_eqb (js "__proto__") e) eqn:Q; [|lia].
    apply str_eqb_eq in Q. congruence.
  - destruct (str_eqb ext e) eqn:Q.
    + apply str_eqb_eq in Q. subst e. rewrite get_set_same. reflexivity.
    + rewrite get_set_other; [lia|]. apply str_eqb_neq in Q. congruence.
Qed.

Lemma countExtension_NoDup (ext : jsstring) (d : obj nat) :
  NoDup (map fst d) -> NoDup (map fst (countExtension ext d)).
Proof.
  intros ND. unfold countExtension.
  destruct (str_eqb ext (js "__proto__")); [exact ND|].
  apply NoDup_keys_set_prop, ND.
Qed.

Lemma countExtension_positive (ext : jsstring) (d : obj nat) :
  (forall e, In e d -> 0 < snd e) ->
  forall e, In e (countExtension ext d) -> 0 < snd e.
Proof.
  unfold countExtension. destruct (str_eqb ext (js "__proto__")); [auto|].
  generalize (match get_prop ext d with Some n => n | None => 0 end).
  intros n. induction d as [|[k v] d IH]; simpl; intros Hd e He.
  - destruct He as [<-|[]]. simpl. lia.
  - destruct (str_eqb ext k).
    + destruct He as [<-|He]; [simpl; lia | apply Hd; auto].
    + destruct He as [<-|He]; [apply (Hd (k, v)); auto | apply IH; auto].
Qed.

Section Distribution.
Variable rs : roles.

Lemma distribution_invariant (l : list row) :
  forall d,
    NoDup (map fst d) -> (forall e, In e d -> 0 < snd e) ->
    let d' := fold_left (fun d r => countExtension (getFileExtension rs r) d) l d in
    NoDup (map fst d') /\
    (forall e, In e d' -> 0 < snd e) /\
    list_sum (map snd d') = list_sum (map snd d) + List.length (filter (counted rs) l) /\
    (forall e, e <> js "__proto__" ->
       match get_prop e d' with Some n => n | None => 0 end
       = match get_prop e d with Some n => n | None => 0 end
         + List.length (filter (fun r => str_eqb (getFileExtension rs r) e) l)).
Proof.
  induction l as [|r l IH]; intros d ND Pos; simpl.
  - repeat split; auto; intros; lia.
  - destruct (IH (countExtension (getFileExtension rs r) d)) as (A & B & C & D);
      [apply countExtension_NoDup; exact ND
      | apply countExtension_positive; exact Pos |].
    repeat split; auto.
    + rewrite C. unfold counted at 2, countExtension.
      destruct (str_eqb (getFileExtension rs r) (js "__proto__")); simpl.
      * lia.
      * rewrite set_prop_sum. lia.
    + intros e Ne. rewrite (D e Ne), (@countExtension_get (getFileExtension rs r) e d Ne).
      destruct (str_eqb (getFileExtension rs r) e); simpl; lia.
Qed.

End Distribution.

Lemma firstn_In (A : Type) (n : nat) (l : list A) (x : A) :
  In x (firstn n l) -> In x l.
Proof.
  revert l. induction n as [|n IH]; intros [|y l]; simpl; try tauto.
  intros [->|H]; auto.
Qed.

Lemma firstn_skipn_sum (n : nat) (l : list nat) :
  list_sum (firstn n l) + list_sum (skipn n l) = list_sum l.
Proof.
  rewrite <- list_sum_app, firstn_skipn. reflexivity.
Qed.

(** X13.  The slices of the file-type chart account for every filtered
    row once: their values add up to the number of filtered rows (rows
    whose extension is [__proto__] are never counted).  There are at most
    nine slices, each with a positive value; a slice before the ninth is
    named by an extension and its value is the number of filtered rows
    with that extension, and a ninth slice is "Other". *)
Theorem fileTypeStats_account_for_rows (rs : roles) (f : filters)
  (rows0 : list row) :
  let stats := fileTypeStats (fileTypes rs f rows0) in
  list_sum (map sliceValue stats)
  = List.length (filter (counted rs) (filteredRows rs f rows0)) /\
  List.length stats <= 9 /\
  (forall s, In s stats -> 0 < sliceValue s) /\
  (forall s, In s (firstn 8 stats) ->
     sliceName s <> js "__proto__" /\
     sliceValue s
     = List.length (filter (fun r => str_eqb (getFileExtension rs r) (sliceName s))
                           (filteredRows rs f rows0))) /\
  (forall s, In s (skipn 8 stats) -> sliceName s = js "Other").
Proof.
  intros stats. subst stats. unfold fileTypes.
  destruct rows0 as [|r0 rows'] eqn:R.
  { simpl. repeat split; try lia; intros s Hs;
      try (rewrite firstn_nil in Hs); try (rewrite skipn_nil in Hs); destruct Hs. }
  rewrite <- R. clear R r0 rows'. cbn [fileTypeStats].
  set (fr := filteredRows rs f rows0).
  fold (distributionOf rs fr).
  destruct (@distribution_invariant rs fr [] (NoDup_nil _)
              (fun e (H : In e []) => match H with end)) as (ND & Pos & Sum & Get).
  fold (distributionOf rs fr) in ND, Pos, Sum, Get.
  assert (Proto : get_prop (js "__proto__") (distributionOf rs fr) = None).
  { unfold distributionOf.
    assert (Z0 : forall l d0, get_prop (js "__proto__") d0 = None ->
                   get_prop (js "__proto__")
                     (fold_left (fun d r => countExtension (getFileExtension rs r) d)
                                l d0) = None).
    { induction l as [|r l IHl]; intros d0 H0; simpl; [exact H0|].
      apply IHl. unfold countExtension.
      destruct (str_eqb (getFileExtension rs r) (js "__proto__")) eqn:Q;
        [exact H0|].
      rewrite get_set_other; [exact H0|].
      apply str_eqb_neq in Q. congruence. }
    apply Z0. reflexivity. }
  set (d := distributionOf rs fr) in *.
  set (sorted := sortWith byValueDesc
                   (map (fun e => {| sliceName := fst e; sliceValue := snd e |})
                        (ownProps d))).
  assert (P : Permutation sorted
                (map (fun e => {| sliceName := fst e; sliceValue := snd e |}) d)).
  { unfold sorted. rewrite sortWith_perm. apply Permutation_map, ownProps_perm. }
  assert (Total : list_sum (map sliceValue sorted)
                  = List.length (filter (counted rs) fr)).
  { rewrite (list_sum_perm (Permutation_map sliceValue P)), map_map.
    simpl in Sum. rewrite <- Sum. f_equal. }
  assert (InS : forall s, In s sorted -> In (sliceName s, sliceValue s) d).
  { intros s Hs. apply (Permutation_in _ P) in Hs. apply in_map_iff in Hs.
    destruct Hs as ([k v] & <- & He). exact He. }
  assert (Named : forall s, In s sorted ->
            0 < sliceValue s /\ sliceName s <> js "__proto__" /\
            sliceValue s
            = List.length (filter (fun r => str_eqb (getFileExtension rs r)
                                                    (sliceName s)) fr)).
  { intros s Hs. pose proof (InS s Hs) as Hd.
    pose proof (get_prop_of_In _ _ _ ND Hd) as G.
    assert (Ne : sliceName s <> js "__proto__")
      by (intros E; rewrite E, Proto in G; discriminate).
    split; [apply (Pos _ Hd)|]. split; [exact Ne|].
    specialize (Get (sliceName s) Ne). rewrite G in Get. simpl in Get. exact Get. }
  set (others := list_sum (map sliceValue (skipn 8 sorted))).
  assert (Split : list_sum (map sliceValue (firstn 8 sorted)) + others
                  = List.length (filter (counted rs) fr)).
  { unfold others. rewrite <- Total, <- !firstn_map, <- !skipn_map.
    apply firstn_skipn_sum. }
  assert (Short : List.length sorted < 8 -> others = 0).
  { intros L. unfold others. rewrite skipn_all2 by lia. reflexivity. }
  assert (F8 : List.length (firstn 8 sorted) = Nat.min 8 (List.length sorted))
    by apply length_firstn.
  clearbody others sorted d fr.
  destruct (0 <? others) eqn:O.
  - apply Nat.ltb_lt in O.
    assert (L8 : List.length (firstn 8 sorted) = 8).
    { destruct (Nat.le_gt_cases 8 (List.length sorted)); [lia|].
      rewrite Short in O by assumption. lia. }
    split; [|split; [|split; [|split]]].
    + rewrite map_app, list_sum_app.
      change (list_sum (map sliceValue
                          [{| sliceName := js "Other"; sliceValue := others |}]))
        with (others + 0).
      lia.
    + rewrite length_app, L8. simpl. lia.
    + intros s Hs. apply in_app_or in Hs. destruct Hs as [Hs|[<-|[]]].
      * apply Named. eapply firstn_In, Hs.
      * exact O.
    + intros s Hs.
      rewrite firstn_app, L8, Nat.sub_diag, firstn_firstn in Hs.
      change (firstn 0 _) with (@nil slice) in Hs.
      rewrite app_nil_r in Hs. apply Named. eapply firstn_In, Hs.
    + intros s Hs.
      rewrite skipn_app, L8, Nat.sub_diag in Hs.
      rewrite skipn_all2 in Hs by (rewrite L8; lia).
      destruct Hs as [<-|[]]. reflexivity.
  - apply Nat.ltb_ge in O. assert (O0 : others = 0) by lia.
    rewrite app_nil_r.
    split; [|split; [|split; [|split]]].
    + lia.
    + lia.
    + intros s Hs. apply Named. eapply firstn_In, Hs.
    + intros s Hs. rewrite firstn_firstn in Hs.
      apply Named. eapply firstn_In, Hs.
    + intros s Hs. rewrite skipn_all2 in Hs by lia.
      destruct Hs.
Qed.

Lemma strCompare_opp (a : jsstring) :
  forall b, strCompare b a = CompOpp (strCompare a b).
Proof.
  induction a as [|x a IH]; intros [|y b]; simpl; try reflexivity.
  rewrite (N.compare_antisym (code x) (code y)).
  destruct (N.compare (code x) (code y)); simpl; auto.
Qed.

Lemma strCompare_trans (a : jsstring) :
  forall b c, strCompare a b <> Gt -> strCompare b c <> Gt ->
              strCompare a c <> Gt.
Proof.
  induction a as [|x a IH]; intros [|y b] [|z c]; simpl; try congruence.
  intros H1 H2.
  destruct (N.compare (code x) (code y)) eqn:XY; try congruence;
    destruct (N.compare (code y) (code z)) eqn:YZ; try congruence.
  - apply N.compare_eq_iff in XY. rewrite XY, YZ. eauto.
  - apply N.compare_eq_iff in XY. rewrite XY, YZ. congruence.
  - apply N.compare_eq_iff in YZ. rewrite <- YZ, XY. congruence.
  - apply N.compare_lt_iff in XY. apply N.compare_lt_iff in YZ.
    assert (L : (code x < code z)%N) by (eapply N.lt_trans; eassumption).
    apply N.compare_lt_iff in L. rewrite L. congruence.
Qed.

Lemma setAdd_fold (ext : row -> jsstring) (l : list row) :
  forall t, NoDup t ->
    let t' := fold_left (fun t r => setAdd (ext r) t) l t in
    NoDup t' /\
    forall e, In e t' <-> In e t \/ exists r, In r l /\ ext r = e.
Proof.
  induction l as [|r l IH]; intros t ND; simpl.
  - split; [exact ND|]. intros e. split; [tauto | intros [H|(r & [] & _)]; exact H].
  - assert (ND' : NoDup (setAdd (ext r) t)).
    { unfold setAdd. destruct (existsb (str_eqb (ext r)) t) eqn:E; [exact ND|].
      apply NoDup_app; [exact ND | constructor; [intros [] | constructor] |].
      intros x Hx [Ex|[]]. rewrite <- Ex in Hx.
      assert (T : existsb (str_eqb (ext r)) t = true)
        by (apply existsb_exists; exists (ext r);
            split; [exact Hx | apply str_eqb_refl]).
      congruence. }
    destruct (IH (setAdd (ext r) t) ND') as [A B]. split; [exact A|].
    intros e. rewrite B. unfold setAdd.
    destruct (existsb (str_eqb (ext r)) t) eqn:E.
    + apply existsb_exists in E. destruct E as (x & Hx & Ex).
      apply str_eqb_eq in Ex. subst x. split.
      * intros [H|(r' & Hr' & E')]; [tauto | right; eauto].
      * intros [H|(r' & [<-|Hr'] & E')]; [tauto | subst e; tauto | right; eauto].
    + rewrite in_app_iff. simpl. split.
      * intros [[H|[<-|[]]]|(r' & Hr' & E')]; [tauto | right; eauto | right; eauto].
      * intros [H|(r' & [<-|Hr'] & E')]; [tauto | subst e; tauto | right; eauto].
Qed.

(** X14.  The selectable file types are the extensions of all the rows,
    filtered or not: each extension once, in ascending order of code
    units, and the same whatever the filters are. *)
Theorem allFileTypes_sorted_distinct (rs : roles) (f g : filters)
  (rows0 : list row) :
  let types := allFileTypes (fileTypes rs f rows0) in
  NoDup types /\
  StronglySorted (fun a b => strCompare a b <> Gt) types /\
  (forall e, In e types <-> exists r, In r rows0 /\ getFileExtension rs r = e) /\
  allFileTypes (fileTypes rs g rows0) = types.
Proof.
  intros types. subst types. unfold fileTypes.
  destruct rows0 as [|r0 rows'] eqn:R.
  { simpl. repeat split; try constructor.
    - intros [].
    - intros (r & [] & _). }
  rewrite <- R. clear R r0 rows'. cbn [allFileTypes].
  destruct (setAdd_fold (getFileExtension rs) rows0 (t := []) (NoDup_nil _))
    as [ND Hin].
  set (t := fold_left (fun t r => setAdd (getFileExtension rs r) t) rows0 []) in *.
  pose proof (sortWith_perm strCompare t) as P.
  repeat split.
  - apply (Permutation_NoDup (Permutation_sym P) ND).
  - apply sortWith_sorted.
    + intros x y z. apply strCompare_trans.
    + intros x y H. exact H.
    + intros x y H. rewrite strCompare_opp, H. discriminate.
  - intros H. apply (Permutation_in _ P) in H. apply Hin in H.
    destruct H as [[]|H]. exact H.
  - intros H. apply (Permutation_in _ (Permutation_sym P)). apply Hin. right. exact H.
Qed.

(** ** More on the CSV parser *)

Lemma splitLine_nonempty (line : jsstring) : splitLine line <> [].
Proof.
  intros E. pose proof (splitLine_length line) as L. rewrite E in L.
  discriminate.
Qed.

Lemma NoDup_incl_le (l l' : list jsstring) :
  NoDup l -> (forall x, In x l -> In x l') -> List.length l <= List.length l'.
Proof. intros ND I. apply NoDup_incl_length; assumption. Qed.

(** X15.  The parser reads one row per non-blank line after the first
    non-blank line, wherever the blank lines are; it returns no header
    exactly when every line is blank, and then no row either.  Every row
    has at most as many entries as there are headers, whatever the
    number of fields of its line, and it has no entry at all exactly
    when every header is [__proto__], the one name that a row does not
    store. *)
Theorem parseCSV_counts (text : jsstring) :
  List.length (data (parseCSV text)) = pred (List.length (nonBlankLines text)) /\
  (fields (parseCSV text) = [] <-> nonBlankLines text = []) /\
  (nonBlankLines text = [] -> data (parseCSV text) = []) /\
  Forall (fun r =>
            List.length r <= List.length (fields (parseCSV text)) /\
            (List.length r = 0
             <-> forall h, In h (fields (parseCSV text)) -> h = js "__proto__"))
         (data (parseCSV text)).
Proof.
  rewrite parseCSV_spec.
  destruct (nonBlankLines text) as [|h ls]; cbn [data fields].
  - repeat split; auto.
  - split; [simpl; rewrite length_map; reflexivity|]. split; [|split].
    + split; [intros E; exfalso; apply (splitLine_nonempty h E) | discriminate].
    + discriminate.
    + apply Forall_forall. intros r Hr. apply in_map_iff in Hr.
      destruct Hr as (l & <- & _). unfold rowOf.
      destruct (@fillRow_keys (splitLine l) (splitLine h) 0 [] (NoDup_nil _))
        as [ND Hin].
      rewrite <- (length_map fst (fillRow _ _ _ _)). split.
      * apply NoDup_incl_le; [exact ND|].
        intros x Hx. apply Hin in Hx. destruct Hx as [[Hx _]|[]]. exact Hx.
      * split.
        -- intros L k Hk.
           destruct (str_eqb k (js "__proto__")) eqn:Q;
             [apply str_eqb_eq, Q|].
           apply str_eqb_neq in Q.
           assert (X : In k (map fst (fillRow (splitLine l) 0 (splitLine h) [])))
             by (apply Hin; left; split; assumption).
           destruct (map fst (fillRow (splitLine l) 0 (splitLine h) []));
             [destruct X | discriminate L].
        -- intros A.
           destruct (map fst (fillRow (splitLine l) 0 (splitLine h) []))
             as [|k ks] eqn:M; [reflexivity|].
           exfalso.
           assert (X : In k (k :: ks)) by (left; reflexivity).
           apply Hin in X. destruct X as [[X N]|[]]. apply N, A, X.
Qed.

Lemma trimStart_app_ws (s : jsstring) (c : ascii) :
  isWhiteSpace c = true ->
  trimStart (s ++ [c]) = match trimStart s with
                         | [] => []
                         | t => t ++ [c]
                         end.
Proof.
  intros W. induction s as [|x s IH]; simpl.
  - rewrite W. reflexivity.
  - destruct (isWhiteSpace x); [exact IH | reflexivity].
Qed.

Lemma trim_snoc_ws (s : jsstring) (c : ascii) :
  isWhiteSpace c = true -> trim (s ++ [c]) = trim s.
Proof.
  intros W. unfold trim. rewrite (@trimStart_app_ws s c W).
  destruct (trimStart s) as [|x t]; [reflexivity|].
  unfold trimEnd. rewrite rev_app_distr. simpl rev at 1. simpl app.
  cbn [trimStart]. rewrite W. reflexivity.
Qed.

Lemma splitLines_trailing_LF (s : jsstring) :
  forall cur,
    map trim (splitLines cur (s ++ [LF]))
    = map trim (splitLines cur s) ++ [[]].
Proof.
  assert (H : (forall cur, map trim (splitLines cur (s ++ [LF]))
                           = map trim (splitLines cur s) ++ [[]]) /\
              (forall cur, map trim (splitLines cur (tl s ++ [LF]))
                           = map trim (splitLines cur (tl s)) ++ [[]])).
  { induction s as [|c s [IH1 IH2]].
    - split; intros cur; reflexivity.
    - split; [|exact IH1]. intros cur.
      change ((c :: s) ++ [LF]) with (c :: (s ++ [LF])).
      cbn [splitLines].
      destruct (ch_eqb c LF); [cbn [map app]; rewrite IH1; reflexivity|].
      destruct (ch_eqb c CR) eqn:C; [|apply IH1].
      apply ch_eqb_eq in C. subst c.
      destruct s as [|d s'].
      + cbn [app]. change (ch_eqb LF LF) with true. cbn [map app splitLines].
        rewrite (@trim_snoc_ws cur CR eq_refl). reflexivity.
      + cbn [app]. cbn iota. destruct (ch_eqb d LF) eqn:D.
        * cbn [map app]. cbn [tl] in IH2. rewrite IH2. reflexivity.
        * change (d :: s' ++ [LF]) with ((d :: s') ++ [LF]). apply IH1. }
  exact (proj1 H).
Qed.

(** X16.  A line feed at the end of the text changes nothing: the parser
    returns the same headers and the same rows with and without it. *)
Theorem parseCSV_trailing_newline (text : jsstring) :
  parseCSV (text ++ [LF]) = parseCSV text.
Proof.
  rewrite !parseCSV_spec.
  assert (E : nonBlankLines (text ++ [LF]) = nonBlankLines text).
  { unfold nonBlankLines. rewrite splitLines_trailing_LF, filter_app.
    simpl. apply app_nil_r. }
  rewrite E. reflexivity.
Qed.

Lemma splitLines_toCRLF (s : jsstring) :
  forall cur,
    map trim (splitLines cur (toCRLF s)) = map trim (splitLines cur s).
Proof.
  assert (H : (forall cur, map trim (splitLines cur (toCRLF s))
                           = map trim (splitLines cur s)) /\
              (forall cur, map trim (splitLines cur (toCRLF (tl s)))
                           = map trim (splitLines cur (tl s)))).
  { induction s as [|c s [IH1 IH2]].
    - split; intros cur; reflexivity.
    - split; [|exact IH1]. intros cur.
      unfold toCRLF. cbn [flat_map]. fold (toCRLF s).
      destruct (ch_eqb c LF) eqn:L.
      + apply ch_eqb_eq in L. subst c.
        change ([CR; LF] ++ toCRLF s) with (CR :: LF :: toCRLF s).
        cbn [splitLines].
        change (ch_eqb CR LF) with false. change (ch_eqb CR CR) with true.
        change (ch_eqb LF LF) with true. cbn iota.
        cbn [map]. rewrite IH1. reflexivity.
      + change ([c] ++ toCRLF s) with (c :: toCRLF s).
        cbn [splitLines]. rewrite L.
        destruct (ch_eqb c CR) eqn:C; [|apply IH1].
        apply ch_eqb_eq in C. subst c.
        destruct s as [|d s'].
        * reflexivity.
        * unfold toCRLF at 1. cbn [flat_map]. fold (toCRLF s').
          destruct (ch_eqb d LF) eqn:D.
          -- apply ch_eqb_eq in D. subst d.
             change ([CR; LF] ++ toCRLF s') with (CR :: LF :: toCRLF s').
             cbn iota. change (ch_eqb CR LF) with false. cbn iota.
             cbn [splitLines].
             change (ch_eqb CR LF) with false. change (ch_eqb CR CR) with true.
             change (ch_eqb LF LF) with true. cbn iota.
             rewrite IH1. cbn [splitLines]. change (ch_eqb LF LF) with true.
             cbn iota. cbn [map].
             rewrite (@trim_snoc_ws cur CR eq_refl). reflexivity.
          -- change ([d] ++ toCRLF s') with (d :: toCRLF s').
             cbn iota. rewrite D. apply IH1. }
  exact (proj1 H).
Qed.

(** X17.  Line feeds and carriage-return line-feed pairs end lines alike:
    the parser returns the same headers and rows for a text and for the
    text with a carriage return put before every line feed. *)
Theorem parseCSV_line_endings (text : jsstring) :
  parseCSV (toCRLF text) = parseCSV text.
Proof.
  rewrite !parseCSV_spec.
  assert (E : nonBlankLines (toCRLF text) = nonBlankLines text).
  { unfold nonBlankLines. rewrite splitLines_toCRLF. reflexivity. }
  rewrite E. reflexivity.
Qed.

(** ** Unquoted fields and unterminated quotes *)

Lemma splitLoop_bare (f : jsstring) :
  bare f ->
  forall values current rest,
    splitLoop values current false (f ++ rest)
    = splitLoop values (current ++ f) false rest.
Proof.
  intros [Nq Nc]. induction f as [|c f IH]; intros values current rest.
  - rewrite app_nil_r. reflexivity.
  - assert (Q : ch_eqb c quote = false)
      by (apply ch_eqb_neq; intros ->; apply Nq; left; reflexivity).
    assert (C : ch_eqb c comma = false)
      by (apply ch_eqb_neq; intros ->; apply Nc; left; reflexivity).
    change ((c :: f) ++ rest) with (c :: (f ++ rest)).
    cbn [splitLoop]. rewrite Q, C. cbn [andb].
    rewrite IH.
    + rewrite <- app_assoc. reflexivity.
    + intros H. apply Nq. right. exact H.
    + intros H. apply Nc. right. exact H.
Qed.

Lemma splitLoop_open_quote (rest : jsstring) :
  ~ In quote rest ->
  forall values current,
    splitLoop values current true rest = values ++ [trim (current ++ rest)].
Proof.
  intros Nq. induction rest as [|c rest IH]; intros values current.
  - rewrite app_nil_r. reflexivity.
  - assert (Q : ch_eqb c quote = false)
      by (apply ch_eqb_neq; intros ->; apply Nq; left; reflexivity).
    cbn [splitLoop]. rewrite Q, andb_false_r.
    rewrite IH by (intros H; apply Nq; right; exact H).
    rewrite <- app_assoc. reflexivity.
Qed.

Lemma stripQuotes_no_quote (s : jsstring) :
  ~ In quote (trim s) -> stripQuotes (trim s) = trim s.
Proof.
  intros N. apply stripQuotes_plain.
  - destruct (trim s) as [|c t]; [discriminate|].
    simpl. intros E. inversion E; subst. apply N. left; reflexivity.
  - destruct (rev (trim s)) as [|c t] eqn:R; [discriminate|].
    simpl. intros E. inversion E; subst. apply N.
    apply in_rev. rewrite R. left; reflexivity.
Qed.

Lemma splitLoop_bare_fields (fs : list jsstring) :
  Forall bare fs ->
  forall values tail,
    splitLoop values [] false (join [comma] (fs ++ [tail]))
    = splitLoop (values ++ map trim fs) [] false tail.
Proof.
  induction 1 as [|f fs Hf Hfs IH]; intros values tail.
  - simpl. rewrite app_nil_r. reflexivity.
  - destruct (fs ++ [tail]) as [|g l] eqn:E.
    { destruct fs; discriminate. }
    change (join [comma] ((f :: fs) ++ [tail]))
      with (join [comma] (f :: (fs ++ [tail]))).
    rewrite E.
    change (join [comma] (f :: g :: l)) with (f ++ comma :: join [comma] (g :: l)).
    rewrite (splitLoop_bare Hf). cbn [app splitLoop].
    change (ch_eqb comma quote) with false. change (ch_eqb comma comma) with true.
    cbn [andb negb]. rewrite <- E, IH.
    cbn [map]. rewrite <- app_assoc. reflexivity.
Qed.

(** X18.  A line of unquoted fields splits at every comma, each field
    trimmed.  A quote that is never closed takes the rest of the line,
    commas included, as the text of one last field. *)
Theorem splitLine_unquoted_and_unterminated (fs : list jsstring)
  (rest : jsstring) :
  Forall bare fs ->
  ~ In quote rest ->
  (fs <> [] -> splitLine (join [comma] fs) = map trim fs) /\
  splitLine (join [comma] (fs ++ [quote :: rest])) = map trim fs ++ [trim rest].
Proof.
  intros Hb Nq.
  assert (Strip : forall f, bare f -> stripQuotes (trim f) = trim f).
  { intros f [N _]. apply stripQuotes_no_quote.
    intros H. apply N. apply trim_incl, H. }
  assert (StripAll : map stripQuotes (map trim fs) = map trim fs).
  { rewrite map_map. apply map_ext_in. intros f Hf. apply Strip.
    rewrite Forall_forall in Hb. auto. }
  split.
  - intros Ne. destruct (exists_last Ne) as (fs0 & f & E). subst fs.
    apply Forall_app in Hb. destruct Hb as [Hb0 Hf].
    inversion Hf as [|? ? Hf' _]; subst.
    unfold splitLine.
    rewrite (splitLoop_bare_fields Hb0 [] f).
    rewrite <- (app_nil_r f) at 1. rewrite (splitLoop_bare Hf').
    cbn [splitLoop app]. rewrite map_app, map_app. cbn [map].
    rewrite map_map.
    f_equal.
    + apply map_ext_in. intros x Hx. apply Strip.
      rewrite Forall_forall in Hb0. auto.
    + rewrite Strip by exact Hf'. reflexivity.
  - unfold splitLine.
    rewrite (splitLoop_bare_fields Hb).
    assert (E : forall vs, splitLoop vs [] false (quote :: rest)
                           = splitLoop vs [] true rest).
    { intros vs. cbn [splitLoop]. change (ch_eqb quote quote) with true.
      cbn iota. destruct rest as [|d rest']; [reflexivity|].
      assert (Q : ch_eqb d quote = false)
        by (apply ch_eqb_neq; intros ->; apply Nq; left; reflexivity).
      rewrite Q. reflexivity. }
    rewrite E, (@splitLoop_open_quote rest Nq). cbn [app].
    rewrite map_app. cbn [map]. rewrite StripAll.
    rewrite stripQuotes_no_quote; [reflexivity|].
    intros H. apply Nq. apply trim_incl, H.
Qed.

Lemma splitLine_unquoted_and_unterminated_witness :
  splitLine (js "a, b ,c") = [js "a"; js "b"; js "c"] /\
  splitLine (js "a, b ," ++ quote :: js "x, y")
  = [js "a"; js "b"; js "x, y"].
Proof.
  destruct (@splitLine_unquoted_and_unterminated
              [js "a"; js " b "] (js "x, y")) as [H1 H2].
  - repeat constructor; vm_compute; intuition discriminate.
  - vm_compute; intuition discriminate.
  - split; [|exact H2].
    destruct (@splitLine_unquoted_and_unterminated
                [js "a"; js " b "; js "c"] []) as [G _].
    + repeat constructor; vm_compute; intuition discriminate.
    + intros [].
    + apply G. discriminate.
Defined.

(** ** Field splitting, line by line *)

Lemma cutFields_nonempty (q : bool) (line : jsstring) : cutFields q line <> [].
Proof.
  destruct line as [|c rest]; simpl; [discriminate|].
  destruct (ch_eqb c quote).
  - destruct (cutFields (negb q) rest); discriminate.
  - destruct (ch_eqb c comma && negb q); [discriminate|].
    destruct (cutFields q rest); discriminate.
Qed.

Lemma join_consHead (c : ascii) (l : list jsstring) :
  l <> [] -> join [comma] (consHead c l) = c :: join [comma] l.
Proof.
  destruct l as [|x [|y l]]; [contradiction | reflexivity | reflexivity].
Qed.

Lemma length_consHead (c : ascii) (l : list jsstring) :
  l <> [] -> List.length (consHead c l) = List.length l.
Proof. destruct l; [contradiction | reflexivity]. Qed.

(** The pieces joined by commas give the line back. *)
Lemma join_cutFields (line : jsstring) :
  forall q, join [comma] (cutFields q line) = line.
Proof.
  induction line as [|c rest IH]; intros q; [reflexivity|].
  cbn [cutFields]. destruct (ch_eqb c quote).
  - rewrite join_consHead by apply cutFields_nonempty. rewrite IH. reflexivity.
  - destruct (ch_eqb c comma && negb q) eqn:C.
    + apply andb_prop in C. destruct C as [C _]. apply ch_eqb_eq in C. subst c.
      pose proof (cutFields_nonempty q rest) as N.
      destruct (cutFields q rest) as [|x xs] eqn:E; [contradiction|].
      change (join [comma] ([] :: x :: xs)) with (comma :: join [comma] (x :: xs)).
      rewrite <- E, IH. reflexivity.
    + rewrite join_consHead by apply cutFields_nonempty. rewrite IH. reflexivity.
Qed.

Lemma length_cutFields (line : jsstring) :
  forall q, List.length (cutFields q line) = S (topCommas q line).
Proof.
  induction line as [|c rest IH]; intros q; [reflexivity|].
  cbn [cutFields topCommas]. destruct (ch_eqb c quote).
  - rewrite length_consHead by apply cutFields_nonempty. apply IH.
  - destruct (ch_eqb c comma && negb q).
    + simpl. rewrite IH. reflexivity.
    + rewrite length_consHead by apply cutFields_nonempty. apply IH.
Qed.

(** A quote before a piece that does not start with a quote is left out. *)
Lemma unquote_lone (q : bool) (d : ascii) (rest : jsstring) :
  ch_eqb d quote = false ->
  exists x xs, cutFields q (d :: rest) = x :: xs /\
               unquote (quote :: x) = unquote x.
Proof.
  intros Q. cbn [cutFields]. rewrite Q.
  destruct (ch_eqb d comma && negb q).
  - exists [], (cutFields q rest). split; reflexivity.
  - pose proof (cutFields_nonempty q rest) as N.
    destruct (cutFields q rest) as [|x xs]; [contradiction|].
    exists (d :: x), xs. split; [reflexivity|].
    cbn [unquote]. rewrite ch_eqb_refl, Q. reflexivity.
Qed.

(** The loop of [splitLine] on a line: the pieces between the commas
    that an even number of quotes precede, each read with its doubled
    quotes as one quote and its other quotes left out, the first piece
    continuing the field being read, every field trimmed. *)
Lemma splitLoop_cutFields (line : jsstring) :
  forall q values current,
    splitLoop values current q line
    = values ++ match map unquote (cutFields q line) with
                | x :: xs => trim (current ++ x) :: map trim xs
                | [] => [trim current]
                end.
Proof.
  assert (H : (forall q values current,
                 splitLoop values current q line
                 = values ++ match map unquote (cutFields q line) with
                             | x :: xs => trim (current ++ x) :: map trim xs
                             | [] => [trim current]
                             end) /\
              (forall q values current,
                 splitLoop values current q (tl line)
                 = values ++ match map unquote (cutFields q (tl line)) with
                             | x :: xs => trim (current ++ x) :: map trim xs
                             | [] => [trim current]
                             end)).
  { induction line as [|c line [IH1 IH2]].
    - split; intros q values current; simpl; rewrite app_nil_r; reflexivity.
    - split; [|exact IH1]. intros q values current.
      cbn [splitLoop cutFields].
      destruct (ch_eqb c quote) eqn:Q.
      + apply ch_eqb_eq in Q. subst c.
        destruct line as [|d rest].
        * simpl. rewrite app_nil_r. reflexivity.
        * destruct (ch_eqb d quote) eqn:Qd.
          -- apply ch_eqb_eq in Qd. subst d.
             cbn [tl] in IH2. rewrite IH2.
             cbn [cutFields]. rewrite ch_eqb_refl, negb_involutive.
             pose proof (cutFields_nonempty q rest) as N.
             destruct (cutFields q rest) as [|x xs]; [contradiction|].
             cbn [consHead map unquote]. rewrite ch_eqb_refl.
             rewrite <- app_assoc. reflexivity.
          -- rewrite IH1.
             destruct (@unquote_lone (negb q) d rest Qd) as (x & xs & E & U).
             rewrite E. cbn [consHead map]. rewrite U. reflexivity.
      + destruct (ch_eqb c comma && negb q) eqn:C.
        * rewrite IH1. cbn [map unquote]. rewrite app_nil_r.
          pose proof (cutFields_nonempty q line) as N.
          destruct (cutFields q line) as [|x xs]; [contradiction|].
          cbn [map app]. rewrite <- app_assoc. reflexivity.
        * rewrite IH1.
          pose proof (cutFields_nonempty q line) as N.
          destruct (cutFields q line) as [|x xs]; [contradiction|].
          cbn [consHead map unquote]. rewrite Q.
          rewrite <- app_assoc. reflexivity. }
  exact (proj1 H).
Qed.

(** The fields of a line of well-written fields, before the final
    replacement: the text of each field, trimmed, an empty quoted field
    reading as one quote. *)
Lemma splitLoop_written_fields (fs : list csvField) :
  fs <> [] ->
  Forall wellWritten fs ->
  forall values,
    splitLoop values [] false (join [comma] (map written fs))
    = values ++ map (fun f => trim match f with
                                   | Quoted [] => [quote]
                                   | _ => fieldText f
                                   end) fs.
Proof.
  induction fs as [|f fs IH]; intros Hne Hall values; [contradiction|].
  inversion Hall as [|? ? Hf Hfs]; subst.
  assert (Step : forall rest,
             hd_error rest <> Some quote ->
             splitLoop values [] false (written f ++ rest)
             = splitLoop values match f with
                                | Quoted [] => [quote]
                                | _ => fieldText f
                                end false rest).
  { intros rest Hrest. destruct f as [t|t]; cbn [written fieldText].
    - rewrite (splitLoop_bare Hf). reflexivity.
    - rewrite splitLoop_quoted_field; [destruct t; reflexivity | | exact Hrest].
      intros E. destruct Hf as [H1 _]. apply H1, trim_head_quote, E. }
  destruct fs as [|g fs].
  - cbn [map join]. rewrite <- (app_nil_r (written f)).
    rewrite Step by discriminate. reflexivity.
  - change (join [comma] (map written (f :: g :: fs)))
      with (written f ++ comma :: join [comma] (map written (g :: fs))).
    rewrite Step by discriminate.
    cbn [splitLoop]. change (ch_eqb comma quote) with false.
    change (ch_eqb comma comma) with true. cbn [andb negb].
    rewrite IH by (assumption || discriminate).
    cbn [map]. rewrite <- app_assoc. reflexivity.
Qed.

(** C5, as the code has it.  Every line is split exactly at the commas
    that an even number of quotes precede, so never at a comma between an
    opening and a closing quote: the pieces joined by commas are the
    line, there is one more piece than such commas, and each value is
    read from its piece, a doubled quote giving one quote and the other
    quotes none.  On a line of fields written as they are or between
    quotes with every embedded quote doubled, the value of each field is
    its text with the surrounding white space trimmed.  This is stated
    for fields whose trimmed text neither starts nor ends with a
    quote. *)
Theorem C5_split_quoted_fields (line : jsstring) (fs : list csvField) :
  fs <> [] ->
  Forall wellWritten fs ->
  join [comma] (cutFields false line) = line /\
  List.length (splitLine line) = S (topCommas false line) /\
  splitLine line
  = map (fun piece => stripQuotes (trim (unquote piece)))
        (cutFields false line) /\
  splitLine (join [comma] (map written fs))
  = map (fun f => trim (fieldText f)) fs.
Proof.
  intros Hne Hall.
  split; [apply join_cutFields|]. split; [apply splitLine_length|]. split.
  - unfold splitLine. rewrite splitLoop_cutFields. cbn [app].
    pose proof (cutFields_nonempty false line) as N.
    destruct (cutFields false line) as [|x xs]; [contradiction|].
    cbn [map app]. rewrite !map_map. reflexivity.
  - unfold splitLine. rewrite (splitLoop_written_fields Hne Hall).
    cbn [app]. rewrite map_map. apply map_ext_in. intros f Hin.
    rewrite Forall_forall in Hall. specialize (Hall f Hin).
    destruct f as [t|t]; cbn [fieldText wellWritten] in *.
    + replace (trim match t with [] | _ => t end) with (trim t)
        by (destruct t; reflexivity).
      apply stripQuotes_no_quote. destruct Hall as [N _].
      intros H. apply N. apply trim_incl, H.
    + apply field_value_plain, Hall.
Qed.

Lemma C5_witness :
  let line := js "x," ++ quoteField (js "a,b") in
  cutFields false line = [js "x"; quoteField (js "a,b")] /\
  splitLine line = [js "x"; js "a,b"] /\
  splitLine (join [comma]
               (map written
                  [Bare (js " x "); Quoted (js "a,b");
                   Quoted (js "c" ++ [quote] ++ js "d"); Quoted (js " e ");
                   Quoted []]))
  = [js "x"; js "a,b"; js "c" ++ [quote] ++ js "d"; js "e"; []].
Proof.
  intros line.
  destruct (@C5_split_quoted_fields line
              [Bare (js " x "); Quoted (js "a,b");
               Quoted (js "c" ++ [quote] ++ js "d"); Quoted (js " e ");
               Quoted []]) as (_ & _ & S & M).
  - discriminate.
  - repeat constructor; vm_compute; intuition discriminate.
  - split; [reflexivity|]. split; [rewrite S; reflexivity | exact M].
Defined.

(** The claim as worded fails on a quoted field with padded text, which is
    trimmed, and on a quoted field that ends with an escaped quote, which
    loses it. *)
Lemma C5_counterexample :
  splitLine (quoteField (js " a ")) = [js "a"] /\
  splitLine (quoteField (js "a" ++ [quote])) = [js "a"] /\
  ~ (forall inner : jsstring, splitLine (quoteField inner) = [inner]).
Proof.
  split; [reflexivity|]. split; [reflexivity|].
  intros H. specialize (H (js " a ")). vm_compute in H. discriminate.
Qed.

(** ** Export and re-import *)

Lemma join_cons_app (sep x : jsstring) (l : list jsstring) :
  exists t, join sep (x :: l) = x ++ t.
Proof.
  destruct l as [|y l].
  - exists []. simpl. rewrite app_nil_r. reflexivity.
  - eexists. reflexivity.
Qed.

Lemma join_snoc_app (sep x : jsstring) (l : list jsstring) :
  exists t, join sep (l ++ [x]) = t ++ x.
Proof.
  induction l as [|y l [t E]].
  - exists []. reflexivity.
  - destruct (l ++ [x]) as [|z l2] eqn:L.
    { destruct l; discriminate. }
    change (join sep ((y :: l) ++ [x])) with (join sep (y :: (l ++ [x]))).
    rewrite L.
    change (join sep (y :: z :: l2)) with (y ++ sep ++ join sep (z :: l2)).
    rewrite E. exists (y ++ sep ++ t). rewrite <- !app_assoc. reflexivity.
Qed.

Lemma In_join (c : ascii) (sep : jsstring) (l : list jsstring) :
  In c (join sep l) -> In c sep \/ exists x, In x l /\ In c x.
Proof.
  induction l as [|x l IH]; [intros []|].
  destruct l as [|y l].
  - simpl. intros H. right. exists x. auto.
  - change (join sep (x :: y :: l)) with (x ++ sep ++ join sep (y :: l)).
    intros H. apply in_app_or in H. destruct H as [H|H].
    + right. exists x. split; [left; reflexivity | exact H].
    + apply in_app_or in H. destruct H as [H|H]; [left; exact H|].
      destruct (IH H) as [S|(z & Hz & Hc)]; [left; exact S|].
      right. exists z. split; [right; exact Hz | exact Hc].
Qed.

Lemma In_doubleQuotes (c : ascii) (v : jsstring) :
  In c (doubleQuotes v) -> c = quote \/ In c v.
Proof.
  unfold doubleQuotes. intros H. apply in_flat_map in H.
  destruct H as (x & Hx & Hc). destruct (ch_eqb x quote).
  - left. destruct Hc as [E|[E|[]]]; symmetry; exact E.
  - destruct Hc as [E|[]]. subst c. right. exact Hx.
Qed.

Lemma trimStart_head (s : jsstring) :
  trimStart s = [] \/ isWhiteSpace (hd space (trimStart s)) = false.
Proof.
  induction s as [|c s IH]; simpl; [left; reflexivity|].
  destruct (isWhiteSpace c) eqn:W; [exact IH | right; exact W].
Qed.

Lemma trim_fixed_tight (k : jsstring) : k <> [] -> trim k = k -> tight k.
Proof.
  intros Ne E. unfold trim, trimEnd in E. split.
  - destruct (trimStart_head k) as [T|T].
    + rewrite T in E. simpl in E. congruence.
    + destruct (trimStart k) as [|c t]; [simpl in E; congruence|].
      simpl in T. simpl rev in E.
      destruct (trimStart_snoc c (rev t) T) as [l' L]. rewrite L in E.
      rewrite rev_app_distr in E. simpl in E. rewrite <- E. exact T.
  - assert (R : rev k = trimStart (rev (trimStart k))).
    { rewrite <- E at 1. apply rev_involutive. }
    destruct (trimStart_head (rev (trimStart k))) as [T|T].
    + rewrite T in R. apply (f_equal (@rev ascii)) in R.
      rewrite rev_involutive in R. simpl in R. congruence.
    + rewrite R. exact T.
Qed.

Lemma tight_trim (s : jsstring) : tight s -> trim s = s.
Proof.
  intros [H1 H2]. apply trim_tight.
  - destruct s; [exact I | exact H1].
  - destruct (rev s); [exact I | exact H2].
Qed.

Lemma tight_truthy (s : jsstring) : tight s -> truthy s = true.
Proof. intros [H1 _]. destruct s; [discriminate H1 | reflexivity]. Qed.

Lemma tight_join (sep : jsstring) (l : list jsstring) :
  l <> [] -> Forall tight l -> tight (join sep l).
Proof.
  intros Ne All. split.
  - destruct l as [|x l]; [contradiction|].
    inversion All as [|? ? [H1 _] _]; subst.
    destruct (join_cons_app sep x l) as [t ->].
    destruct x as [|c x]; [discriminate H1 | exact H1].
  - destruct (exists_last Ne) as (l0 & y & E). subst l.
    apply Forall_app in All. destruct All as [_ Hy].
    inversion Hy as [|? ? [_ H2] _]; subst.
    destruct (join_snoc_app sep y l0) as [t ->].
    rewrite rev_app_distr.
    destruct (rev y) as [|c r]; [discriminate H2 | exact H2].
Qed.

Lemma tight_quoteField (v : jsstring) : tight (quoteField v).
Proof.
  unfold quoteField. split; [reflexivity|].
  rewrite app_assoc, rev_app_distr. reflexivity.
Qed.

Lemma splitLines_last (l : jsstring) :
  ~ In LF l -> forall cur, splitLines cur l = [cur ++ l].
Proof.
  induction l as [|c l IH]; intros N cur.
  - simpl. rewrite app_nil_r. reflexivity.
  - assert (Q : ch_eqb c LF = false)
      by (apply ch_eqb_neq; intros ->; apply N; left; reflexivity).
    assert (N' : ~ In LF l) by (intros H; apply N; right; exact H).
    cbn [splitLines]. rewrite Q.
    destruct (ch_eqb c CR).
    + destruct l as [|d l']; [reflexivity|].
      assert (Qd : ch_eqb d LF = false)
        by (apply ch_eqb_neq; intros ->; apply N'; left; reflexivity).
      rewrite Qd, (IH N'), <- app_assoc. reflexivity.
    + rewrite (IH N'), <- app_assoc. reflexivity.
Qed.

Lemma splitLines_line (l : jsstring) :
  ~ In LF l -> hd_error (rev l) <> Some CR ->
  forall cur rest,
    splitLines cur (l ++ LF :: rest) = (cur ++ l) :: splitLines [] rest.
Proof.
  induction l as [|c l IH]; intros N E cur rest.
  - simpl. rewrite app_nil_r. reflexivity.
  - assert (Q : ch_eqb c LF = false)
      by (apply ch_eqb_neq; intros ->; apply N; left; reflexivity).
    assert (N' : ~ In LF l) by (intros H; apply N; right; exact H).
    assert (E' : hd_error (rev l) <> Some CR).
    { destruct (rev l) as [|x r] eqn:R; [discriminate|].
      simpl in E. rewrite R in E. exact E. }
    change ((c :: l) ++ LF :: rest) with (c :: (l ++ LF :: rest)).
    cbn [splitLines]. rewrite Q.
    destruct (ch_eqb c CR) eqn:C.
    + destruct l as [|d l'].
      { apply ch_eqb_eq in C. subst c. exfalso. apply E. reflexivity. }
      assert (Qd : ch_eqb d LF = false)
        by (apply ch_eqb_neq; intros ->; apply N'; left; reflexivity).
      change ((d :: l') ++ LF :: rest) with (d :: (l' ++ LF :: rest)).
      cbn iota. rewrite Qd.
      change (d :: (l' ++ LF :: rest)) with ((d :: l') ++ LF :: rest).
      rewrite (IH N' E'), <- app_assoc. reflexivity.
    + rewrite (IH N' E'), <- app_assoc. reflexivity.
Qed.

Lemma tight_no_CR_end (l : jsstring) : tight l -> hd_error (rev l) <> Some CR.
Proof.
  intros [_ H]. destruct (rev l) as [|c r]; [discriminate|].
  simpl in *. intros X. inversion X; subst c. discriminate H.
Qed.

(** Lines without line feed and without white space at either end are
    the non-blank lines of their join. *)
Lemma nonBlankLines_join (ls : list jsstring) :
  Forall (fun l => ~ In LF l /\ tight l) ls ->
  nonBlankLines (join [LF] ls) = ls.
Proof.
  intros All. unfold nonBlankLines.
  assert (S : ls <> [] -> splitLines [] (join [LF] ls) = ls).
  { clear - All. induction All as [|l ls [N T] _ IH]; [intros X; contradiction|]. intros _.
    destruct ls as [|l2 ls].
    - simpl join. apply (@splitLines_last l N).
    - change (join [LF] (l :: l2 :: ls))
        with (l ++ LF :: join [LF] (l2 :: ls)).
      rewrite (@splitLines_line l N (tight_no_CR_end T)).
      rewrite IH by discriminate. reflexivity. }
  destruct ls as [|l ls]; [reflexivity|].
  rewrite S by discriminate.
  clear S. induction All as [|x xs [N T] _ IH]; [reflexivity|].
  cbn [map filter]. rewrite (tight_trim T), (tight_truthy T), IH. reflexivity.
Qed.

Lemma splitLine_bare_fields (fs : list jsstring) :
  fs <> [] -> Forall bare fs -> splitLine (join [comma] fs) = map trim fs.
Proof.
  intros Ne Hb. destruct (exists_last Ne) as (fs0 & f & E). subst fs.
  apply Forall_app in Hb. destruct Hb as [Hb0 Hf].
  inversion Hf as [|? ? Hf' _]; subst.
  unfold splitLine. rewrite (splitLoop_bare_fields Hb0).
  rewrite <- (app_nil_r f) at 1. rewrite (splitLoop_bare Hf').
  cbn [splitLoop app].
  change [trim f] with (map trim [f]). rewrite <- map_app, map_map.
  apply map_ext_in. intros x Hx. apply stripQuotes_no_quote.
  assert (B : bare x).
  { apply in_app_or in Hx. destruct Hx as [Hx|[<-|[]]]; [|exact Hf'].
    rewrite Forall_forall in Hb0. auto. }
  destruct B as [N _]. intros H. apply N. apply trim_incl, H.
Qed.

Lemma splitLine_quoted_fields (vs : list jsstring) :
  vs <> [] -> Forall plainEnds vs ->
  splitLine (join [comma] (map quoteField vs)) = map trim vs.
Proof.
  intros Ne All. unfold splitLine.
  rewrite splitLoop_quoted_fields; [|exact Ne|].
  - simpl app. rewrite map_map. apply map_ext_in.
    intros f Hin. apply field_value_plain.
    rewrite Forall_forall in All. auto.
  - apply Forall_forall. intros f Hin E.
    rewrite Forall_forall in All. destruct (All f Hin) as [H1 _].
    apply H1, trim_head_quote, E.
Qed.

Lemma str_in_dec (k : jsstring) (l : list jsstring) : {In k l} + {~ In k l}.
Proof. apply in_dec. apply list_eq_dec. apply ascii_dec. Qed.

(** A row filled from values computed from the header names. *)
Lemma fillRow_get_mapped (f : jsstring -> jsstring) (k : jsstring)
  (hs : list jsstring) :
  k <> js "__proto__" ->
  In k hs ->
  forall pre r,
    get_prop k (fillRow (pre ++ map f hs) (List.length pre) hs r)
    = Some (f k).
Proof.
  intros P. induction hs as [|h hs IH]; intros Hin pre r; [contradiction|].
  cbn [fillRow map].
  destruct (str_in_dec k hs) as [I|NI].
  - replace (pre ++ f h :: map f hs) with ((pre ++ [f h]) ++ map f hs)
      by (rewrite <- app_assoc; reflexivity).
    replace (S (List.length pre)) with (List.length (pre ++ [f h]))
      by (rewrite length_app; simpl; lia).
    rewrite (IH I). reflexivity.
  - destruct Hin as [->|Hin]; [|contradiction].
    rewrite fillRow_get_notin by exact NI.
    rewrite (get_setField_same _ _ P). unfold valueAt.
    rewrite nth_error_app2 by lia. rewrite Nat.sub_diag. simpl.
    destruct (f k); reflexivity.
Qed.

Lemma Forall2_map_self (A B : Type) (P : A -> B -> Prop) (g : A -> B)
  (l : list A) :
  (forall x, In x l -> P x (g x)) -> Forall2 P l (map g l).
Proof.
  induction l as [|x l IH]; intros H; simpl; constructor.
  - apply H. left. reflexivity.
  - apply IH. intros y Hy. apply H. right. exact Hy.
Qed.

Section ExportImport.
Context {RT : JsRuntime}.

(** X19.  A downloaded CSV reads back.  When the property names of the
    first record are plain and no written value holds a line feed or
    has a quote at an end of its trimmed text, parsing the downloaded
    text gives the property names as header and one row per record, in
    order, whose entries are the trimmed written values under the same
    names.  A property named [__proto__] is written like the others and
    listed in the header; it is the one name that gives the parsed rows
    no entry. *)
Theorem downloadCSV_reimport (first : obj jsval) (others : list (obj jsval)) :
  Object_keys first <> [] ->
  Forall plainKey (Object_keys first) ->
  (forall r k, In r (first :: others) -> In k (Object_keys first) ->
     ~ In LF (stringOf (get_prop k r)) /\
     plainEnds (stringOf (get_prop k r))) ->
  exists out,
    downloadCSV (first :: others) = Some out /\
    fields (parseCSV out) = Object_keys first /\
    Forall2 (fun r r' =>
               (forall k, In k (map fst r')
                          <-> In k (Object_keys first) /\ k <> js "__proto__") /\
               (forall k, In k (Object_keys first) -> k <> js "__proto__" ->
                  get_prop k r' = Some (trim (stringOf (get_prop k r)))))
            (first :: others) (data (parseCSV out)).
Proof.
  intros Ne Keys Vals. eexists. split; [reflexivity|].
  set (keys := Object_keys first) in *.
  set (line := fun r : obj jsval =>
                 join [comma]
                   (map (fun k => quoteField (stringOf (get_prop k r))) keys)).
  set (arr := first :: others) in *.
  assert (KT : Forall tight keys).
  { apply Forall_forall. intros k Hk. rewrite Forall_forall in Keys.
    destruct (Keys k Hk) as (N & T & _). apply trim_fixed_tight; assumption. }
  assert (KB : Forall bare keys).
  { apply Forall_forall. intros k Hk. rewrite Forall_forall in Keys.
    destruct (Keys k Hk) as (_ & _ & B & _). exact B. }
  assert (Hdr : splitLine (join [comma] keys) = keys).
  { rewrite (splitLine_bare_fields Ne KB).
    rewrite <- (map_id keys) at 2. apply map_ext_in. intros k Hk.
    apply tight_trim. rewrite Forall_forall in KT. auto. }
  assert (Lines : Forall (fun l => ~ In LF l /\ tight l)
                    (join [comma] keys :: map line arr)).
  { constructor.
    - split; [|apply tight_join; assumption].
      intros H. apply In_join in H. destruct H as [[H|[]]|(k & Hk & H)].
      + discriminate H.
      + rewrite Forall_forall in Keys.
        destruct (Keys k Hk) as (_ & _ & _ & N). apply N, H.
    - apply Forall_forall. intros l Hl. apply in_map_iff in Hl.
      destruct Hl as (r & <- & Hr). unfold line. split.
      + intros H. apply In_join in H. destruct H as [[H|[]]|(q & Hq & H)].
        * discriminate H.
        * apply in_map_iff in Hq. destruct Hq as (k & <- & Hk).
          destruct (Vals r k Hr Hk) as [N _]. apply N.
          unfold quoteField in H. apply in_app_or in H.
          destruct H as [[H|[]]|H]; [discriminate H|].
          apply in_app_or in H. destruct H as [H|[H|[]]]; [|discriminate H].
          apply In_doubleQuotes in H. destruct H as [H|H];
            [discriminate H | exact H].
      + apply tight_join.
        * destruct keys; [contradiction | discriminate].
        * apply Forall_forall. intros q Hq. apply in_map_iff in Hq.
          destruct Hq as (k & <- & _). apply tight_quoteField. }
  rewrite parseCSV_spec.
  change (nonBlankLines (join [LF] (join [comma] (Object_keys first)
            :: map (fun r => join [comma]
                      (map (fun k => quoteField (stringOf (get_prop k r)))
                           (Object_keys first))) (first :: others))))
    with (nonBlankLines (join [LF] (join [comma] keys :: map line arr))).
  rewrite (nonBlankLines_join Lines). cbn [data fields].
  split; [exact Hdr|].
  rewrite map_map. apply Forall2_map_self. intros r Hr.
  assert (Row : rowOf (join [comma] keys) (line r)
                = fillRow (map (fun k => trim (stringOf (get_prop k r))) keys)
                    0 keys []).
  { unfold rowOf. rewrite Hdr. unfold line.
    rewrite <- map_map with (f := fun k => stringOf (get_prop k r))
                            (g := quoteField).
    rewrite splitLine_quoted_fields.
    - rewrite map_map. reflexivity.
    - destruct keys; [contradiction | discriminate].
    - apply Forall_forall. intros v Hv. apply in_map_iff in Hv.
      destruct Hv as (k & <- & Hk). apply (Vals r k Hr Hk). }
  rewrite Row. split.
  - intros k.
    destruct (@fillRow_keys
                (map (fun k => trim (stringOf (get_prop k r))) keys)
                keys 0 [] (NoDup_nil _)) as [_ I].
    rewrite I. simpl. tauto.
  - intros k Hk P.
    apply (@fillRow_get_mapped
             (fun k => trim (stringOf (get_prop k r))) k keys P Hk [] []).
Qed.

End ExportImport.

Lemma downloadCSV_reimport_witness :
  let first := [(js "SiteName", @VStr Exact.runtime (js "HR, Legal"));
                (js "Files", VNum (@num_of_Z Exact.runtime 3))] in
  let others := [[(js "SiteName", @VStr Exact.runtime (js "Sales"));
                  (js "Files", @VStr Exact.runtime (js " 12 "))]] in
  exists out,
    downloadCSV (first :: others) = Some out /\
    fields (parseCSV out) = [js "SiteName"; js "Files"] /\
    map (get_prop (js "SiteName")) (data (parseCSV out))
    = [Some (js "HR, Legal"); Some (js "Sales")] /\
    map (get_prop (js "Files")) (data (parseCSV out))
    = [Some (js "3"); Some (js "12")].
Proof.
  intros first others.
  assert (K : Object_keys first = [js "SiteName"; js "Files"])
    by reflexivity.
  destruct (@downloadCSV_reimport Exact.runtime first others)
    as (out & E & F & R).
  - rewrite K. discriminate.
  - rewrite K. repeat constructor; vm_compute; intuition discriminate.
  - intros r k Hr Hk. rewrite K in Hk.
    destruct Hr as [<-|[<-|[]]]; destruct Hk as [<-|[<-|[]]];
      split; vm_compute; intuition discriminate.
  - exists out. rewrite K in F, R. split; [exact E|]. split; [exact F|].
    destruct (data (parseCSV out)) as [|r1' d1]; [inversion R|].
    inversion R as [|? ? ? ? [_ G1] R1]; subst.
    destruct d1 as [|r2' d2]; [inversion R1|].
    inversion R1 as [|? ? ? ? [_ G2] R2]; subst.
    inversion R2; subst. cbn [map].
    rewrite (G1 (js "SiteName")), (G1 (js "Files")),
            (G2 (js "SiteName")), (G2 (js "Files"))
      by (simpl; tauto || discriminate).
    split; reflexivity.
Defined.

(** ** The extension read from a file name *)

Lemma existsb_sep_false (sep : ascii) (s : jsstring) :
  ~ In sep s -> existsb (ch_eqb sep) s = false.
Proof.
  intros N. destruct (existsb (ch_eqb sep) s) eqn:E; [|reflexivity].
  apply existsb_exists in E. destruct E as (x & Hx & E).
  apply ch_eqb_eq in E. subst x. contradiction.
Qed.

Lemma existsb_sep_true (sep : ascii) (s : jsstring) :
  In sep s -> existsb (ch_eqb sep) s = true.
Proof.
  intros I. apply existsb_exists. exists sep.
  split; [exact I | apply ch_eqb_refl].
Qed.

Lemma lastSegment_none (sep : ascii) (s : jsstring) :
  ~ In sep s -> lastSegment sep s = s.
Proof.
  destruct s as [|c s]; intros N; [reflexivity|]. cbn [lastSegment].
  assert (Q : ch_eqb c sep = false)
    by (apply ch_eqb_neq; intros ->; apply N; left; reflexivity).
  rewrite Q, existsb_sep_false; [reflexivity|].
  intros H. apply N. right. exact H.
Qed.

Lemma lastSegment_after (sep : ascii) (d s : jsstring) :
  ~ In sep s -> lastSegment sep (d ++ sep :: s) = s.
Proof.
  intros N. induction d as [|c d IH].
  - cbn [app lastSegment]. rewrite ch_eqb_refl. apply lastSegment_none, N.
  - change ((c :: d) ++ sep :: s) with (c :: (d ++ sep :: s)).
    cbn [lastSegment]. rewrite existsb_sep_true.
    + destruct (ch_eqb c sep); exact IH.
    + apply in_or_app. right. left. reflexivity.
Qed.

Lemma wordChar_plain (c : ascii) :
  isWordChar c = true ->
  isWhiteSpace (lower_char c) = false /\
  ch_eqb (lower_char c) "."%char = false /\
  ch_eqb c "?"%char || ch_eqb c "#"%char = false /\
  c <> "."%char /\ c <> "/"%char.
Proof.
  intros W. destruct c as [[] [] [] [] [] [] [] []];
    first [discriminate W
          | repeat split; first [reflexivity | discriminate]].
Qed.

Lemma beforeQuery_ext (ext query : jsstring) :
  forallb isWordChar ext = true ->
  query = [] \/ hd_error query = Some "?"%char
  \/ hd_error query = Some "#"%char ->
  beforeQuery (ext ++ query) = ext.
Proof.
  intros W Q. induction ext as [|c ext IH].
  - destruct Q as [->|Q]; [reflexivity|].
    destruct query as [|q query]; [reflexivity|]. simpl in Q |- *.
    destruct Q as [Q|Q]; inversion Q; subst q; reflexivity.
  - simpl in W. apply andb_prop in W. destruct W as [Wc W].
    destruct (wordChar_plain c Wc) as (_ & _ & X & _).
    change ((c :: ext) ++ query) with (c :: (ext ++ query)).
    cbn [beforeQuery]. rewrite X, (IH W). reflexivity.
Qed.

Lemma toLowerCase_word_clean (ext : jsstring) :
  forallb isWordChar ext = true ->
  stripLeadingDot (trim (toLowerCase ext)) = toLowerCase ext.
Proof.
  intros W.
  assert (A : forall c, In c ext -> isWordChar c = true).
  { intros c Hc. rewrite forallb_forall in W. auto. }
  rewrite trim_tight.
  - destruct ext as [|c ext]; [reflexivity|]. simpl.
    destruct (wordChar_plain c (A c (or_introl eq_refl))) as (_ & D & _).
    rewrite D. reflexivity.
  - destruct ext as [|c ext]; [exact I|]. simpl.
    apply (wordChar_plain c (A c (or_introl eq_refl))).
  - unfold toLowerCase. rewrite <- map_rev.
    destruct (rev ext) as [|c t] eqn:R; [exact I|]. simpl.
    apply (wordChar_plain c). apply A. apply in_rev. rewrite R.
    left. reflexivity.
Qed.

(** X21.  Without a file-type value, the extension is read from the
    file name: the text after the last dot of the last path segment, up
    to a query or fragment mark, in lower case.  This is stated for a
    name or URL made of a directory part, a base name, a dot, an
    extension of one to nine letters, digits or underscores, and a query
    part holding neither slash nor dot. *)
Theorem getFileExtension_from_name (rs : roles) (r : row)
  (dir base ext query : jsstring) :
  truthyField (fileTypeKey rs) r = None ->
  truthyField (fileNameKey rs) r
  = Some (dir ++ base ++ "."%char :: ext ++ query) ->
  dir = [] \/ hd_error (rev dir) = Some "/"%char ->
  ~ In "/"%char base ->
  ~ In "/"%char query ->
  ~ In "."%char query ->
  query = [] \/ hd_error query = Some "?"%char
  \/ hd_error query = Some "#"%char ->
  forallb isWordChar ext = true ->
  1 <= List.length ext <= 9 ->
  getFileExtension rs r = toLowerCase ext.
Proof.
  intros T Nm D Sb Sq Dq Q W L.
  assert (A : forall c, In c ext -> c <> "."%char /\ c <> "/"%char).
  { intros c Hc. rewrite forallb_forall in W.
    destruct (wordChar_plain c (W c Hc)) as (_ & _ & _ & P). exact P. }
  assert (NoSlash : ~ In "/"%char (base ++ "."%char :: ext ++ query)).
  { intros H. apply in_app_or in H. destruct H as [H|[H|H]];
      [contradiction | discriminate H|].
    apply in_app_or in H. destruct H as [H|H]; [|contradiction].
    destruct (A _ H) as [_ X]. apply X. reflexivity. }
  assert (NoDot : ~ In "."%char (ext ++ query)).
  { intros H. apply in_app_or in H. destruct H as [H|H]; [|contradiction].
    destruct (A _ H) as [X _]. apply X. reflexivity. }
  assert (Seg : lastSegment "/"%char (dir ++ base ++ "."%char :: ext ++ query)
                = base ++ "."%char :: ext ++ query).
  { destruct D as [->|D]; [apply lastSegment_none, NoSlash|].
    destruct (rev dir) as [|c t] eqn:R; [discriminate|].
    simpl in D. inversion D; subst c.
    assert (E : dir = rev t ++ ["/"%char]).
    { rewrite <- (rev_involutive dir), R. reflexivity. }
    rewrite E, <- app_assoc. apply lastSegment_after, NoSlash. }
  unfold getFileExtension. rewrite T, Nm, Seg.
  rewrite existsb_sep_true by (apply in_or_app; right; left; reflexivity).
  rewrite (@lastSegment_after "."%char base (ext ++ query) NoDot),
    (@beforeQuery_ext ext query W Q).
  destruct ext as [|c ext]; [simpl in L; lia|]. cbn [truthy negb].
  rewrite (@toLowerCase_word_clean (c :: ext) W).
  unfold toLowerCase at 1 2. rewrite length_map.
  destruct L as [L1 L2].
  replace (0 <? List.length (c :: ext)) with true
    by (symmetry; apply Nat.ltb_lt; lia).
  replace (List.length (c :: ext) <? 10) with true
    by (symmetry; apply Nat.ltb_lt; lia).
  reflexivity.
Qed.

Lemma getFileExtension_from_name_witness :
  getFileExtension (updateColumnKeys [js "Site"; js "Url"])
    [(js "Site", js "A");
     (js "Url", js "https://x.org/docs/Report.v2.PDF?web=1")]
  = js "pdf".
Proof.
  apply (@getFileExtension_from_name
           (updateColumnKeys [js "Site"; js "Url"])
           [(js "Site", js "A");
            (js "Url", js "https://x.org/docs/Report.v2.PDF?web=1")]
           (js "https://x.org/docs/") (js "Report.v2") (js "PDF")
           (js "?web=1")).
  - reflexivity.
  - reflexivity.
  - right. reflexivity.
  - vm_compute. intuition discriminate.
  - vm_compute. intuition discriminate.
  - vm_compute. intuition discriminate.
  - right. left. reflexivity.
  - reflexivity.
  - simpl. lia.
Defined.
